(** * Diagram-text sanitisation, validity classification and fallback synthesis

    A shallow embedding of the diagram engine of the analysis report:
    the Mermaid sanitiser of the diagram component ([splitStatements],
    [cleanLabel], [formatNodeContent], [normalizeGraphDiagram], [sanitizeErd],
    [sanitizeSequence], [sanitizeMermaidCode]) and the guarantee layer of
    [services/geminiService.ts] ([hasRenderableGraphDiagram], the two fallback
    builders, [extractScreenNamesFromDiagram] and
    [ensureScreenDescriptionsMatchDiagram]), with the chart signature of the
    component ([hashString]) and, of the service, the repair stage of
    [analyzeProject], [sanitizeHtmlResponse] and the remembered project
    context.

    A JavaScript string is the list of its UTF-16 code units.  The regular
    expressions of the source are kept as syntax trees and run by a
    backtracking matcher that follows the ECMAScript pattern semantics
    (continuation passing, leftmost alternative first, greedy and lazy
    quantifiers, captures, lookahead, the [i], [m] and [g] flags). *)

From stdpp Require Import base list gmap strings.
From Stdlib Require Ascii String.
From Stdlib Require Import NArith ZArith Lia.

Local Open Scope N_scope.

(** ** JavaScript strings and the built-ins the source calls *)

Module JS.

Abbreviation jsstring := (list N).

(** A literal of the source, as code units. *)
Definition lit (s : string) : jsstring :=
  map Ascii.N_of_ascii (String.list_ascii_of_string s).

Definition dq : N := 34.        (* the double quote *)
Definition sq : N := 39.        (* the apostrophe *)
Definition bsl : N := 92.       (* the backslash *)
Definition nl : N := 10.        (* line feed *)
Definition semi : N := 59.      (* the semicolon *)

(** ECMAScript LineTerminator: LF, CR, LS, PS. *)
Definition isLineTerminator (c : N) : bool :=
  (c =? 10) || (c =? 13) || (c =? 8232) || (c =? 8233).

(** ECMAScript WhiteSpace and LineTerminator: what [trim] strips and what
    [\s] matches. *)
Definition isWhiteSpace (c : N) : bool :=
  (c =? 9) || (c =? 11) || (c =? 12) || (c =? 32) || (c =? 160)
  || (c =? 5760) || ((8192 <=? c) && (c <=? 8202)) || (c =? 8239)
  || (c =? 8287) || (c =? 12288) || (c =? 65279) || isLineTerminator c.

(** [\w]: ASCII letters, digits and the underscore. *)
Definition isWordChar (c : N) : bool :=
  ((97 <=? c) && (c <=? 122)) || ((65 <=? c) && (c <=? 90))
  || ((48 <=? c) && (c <=? 57)) || (c =? 95).

Definition isBasicLatin (c : N) : bool := c <? 128.

Definition lowerUnit (c : N) : N :=
  if (65 <=? c) && (c <=? 90) then c + 32 else c.

Definition upperUnit (c : N) : N :=
  if (97 <=? c) && (c <=? 122) then c - 32 else c.

(** Case conversion on strings that leave Basic Latin is the Unicode
    algorithm of the host; the development is parametric in it. *)
Class UnicodeCase := {
  lowerBeyondLatin : jsstring -> jsstring;
  upperBeyondLatin : jsstring -> jsstring
}.

Definition toLowerCase `{UnicodeCase} (s : jsstring) : jsstring :=
  if forallb isBasicLatin s then map lowerUnit s else lowerBeyondLatin s.

Definition toUpperCase `{UnicodeCase} (s : jsstring) : jsstring :=
  if forallb isBasicLatin s then map upperUnit s else upperBeyondLatin s.

(** The instance used to run closed examples: code units outside Basic
    Latin are left as they are. *)
Definition latinOnly : UnicodeCase :=
  {| lowerBeyondLatin := map lowerUnit; upperBeyondLatin := map upperUnit |}.

Fixpoint dropWhile {A} (p : A -> bool) (l : list A) : list A :=
  match l with
  | [] => []
  | x :: l' => if p x then dropWhile p l' else l
  end.

Fixpoint takeWhile {A} (p : A -> bool) (l : list A) : list A :=
  match l with
  | [] => []
  | x :: l' => if p x then x :: takeWhile p l' else []
  end.

Definition notBlank (c : N) : bool := negb (isWhiteSpace c).

Definition trimStart (s : jsstring) : jsstring := dropWhile isWhiteSpace s.
Fixpoint trimEnd (s : jsstring) : jsstring :=
  match s with
  | [] => []
  | c :: s' =>
      match trimEnd s' with
      | [] => if isWhiteSpace c then [] else [c]
      | t => c :: t
      end
  end.
Definition trim (s : jsstring) : jsstring := trimEnd (trimStart s).

(** [s.slice(a, b)] for [0 <= a] and [0 <= b]. *)
Definition slice (s : jsstring) (a b : nat) : jsstring :=
  take (b - a) (drop a s).

Fixpoint eqs (a b : jsstring) : bool :=
  match a, b with
  | [], [] => true
  | x :: a', y :: b' => (x =? y) && eqs a' b'
  | _, _ => false
  end.

Fixpoint startsWith (s p : jsstring) {struct p} : bool :=
  match p, s with
  | [], _ => true
  | c :: p', d :: s' => (c =? d) && startsWith s' p'
  | _ :: _, [] => false
  end.

(** [s] starts with the lower-case text [p], up to the case of ASCII
    letters. *)
Definition startsWithIgnoreCase (s p : jsstring) : bool :=
  eqs (lowerUnit <$> take (length p) s) p.

Definition endsWith (s p : jsstring) : bool := startsWith (rev s) (rev p).

(** A string is truthy when it is not empty. *)
Definition truthy (s : jsstring) : bool :=
  match s with [] => false | _ => true end.

(** [s.split(c)] for a one-character separator [c]. *)
Fixpoint splitOn (c : N) (s : jsstring) : list jsstring :=
  match s with
  | [] => [[]]
  | x :: s' =>
      if x =? c then [] :: splitOn c s'
      else match splitOn c s' with
           | [] => [[x]]
           | p :: ps => (x :: p) :: ps
           end
  end.

(** [parts.join(sep)]. *)
Fixpoint join (sep : jsstring) (parts : list jsstring) : jsstring :=
  match parts with
  | [] => []
  | [p] => p
  | p :: ps => p ++ sep ++ join sep ps
  end.

(** Decimal digits of an array index, as a template literal prints it. *)
Fixpoint digitsFuel (fuel n : nat) (acc : jsstring) : jsstring :=
  match fuel with
  | O => acc
  | S f =>
      let acc' := (48 + N.of_nat (n mod 10)) :: acc in
      if (n <? 10)%nat then acc' else digitsFuel f (n / 10)%nat acc'
  end.

Definition numToString (n : nat) : jsstring := digitsFuel (S n) n [].

End JS.

Import JS.

(** ** Regular expressions *)

Module Regex.

Inductive cclass : Type :=
| CChar (c : N)
| CRange (lo hi : N)
| CWord                         (* \w *)
| CSpace.                       (* \s *)

Inductive regex : Type :=
| REmpty
| RChar (c : N)
| RAny                                        (* . *)
| RSet (negated : bool) (items : list cclass) (* [...], [^...], \w, \s *)
| RSeq (r1 r2 : regex)
| RAlt (r1 r2 : regex)
| RGroup (n : nat) (r : regex)                (* the n-th capturing group *)
| RQuant (r : regex) (min : nat) (max : option nat) (greedy : bool)
| RBol                                        (* ^ *)
| REol                                        (* $ *)
| RLook (positive : bool) (r : regex).        (* (?=r) and (?!r) *)

Record flags := { ignoreCase : bool; multiline : bool; global : bool }.

Record RegExp := {
  re_body : regex;
  re_groups : nat;             (* number of capturing groups *)
  re_flags : flags
}.

Abbreviation span := (nat * nat)%type.
Abbreviation captures := (list (option span)).
Abbreviation mstate := (nat * captures)%type.
Abbreviation matcher :=
  ((mstate -> option mstate) -> mstate -> option mstate).

Fixpoint groupsOf (r : regex) : list nat :=
  match r with
  | RSeq a b | RAlt a b => groupsOf a ++ groupsOf b
  | RGroup n a => n :: groupsOf a
  | RQuant a _ _ _ | RLook _ a => groupsOf a
  | _ => []
  end.

(** The bounds of every quantifier are in order, as the parser of the
    host requires. *)
Fixpoint wellFormed (r : regex) : bool :=
  match r with
  | RSeq a b | RAlt a b => wellFormed a && wellFormed b
  | RGroup _ a | RLook _ a => wellFormed a
  | RQuant a mn mx _ =>
      match mx with Some b => (mn <=? b)%nat | None => true end
      && wellFormed a
  | _ => true
  end.

Definition clearGroups (gs : list nat) (c : captures) : captures :=
  foldr (fun g acc => <[g := None]> acc) c gs.

Section Matcher.
  Variable fl : flags.
  Variable s : jsstring.

Definition itemMem (it : cclass) (c : N) : bool :=
    match it with
    | CChar d => c =? d
    | CRange lo hi => (lo <=? c) && (c <=? hi)
    | CWord => isWordChar c
    | CSpace => isWhiteSpace c
    end.

Definition setMem (items : list cclass) (c : N) : bool :=
    existsb (fun it => itemMem it c) items.

  (** CharacterSetMatcher: [c] is accepted when some member of the set has
      the canonical form of [c].  The sets of the source hold Basic Latin
      characters and [\w], [\s], so under [i] the members with the
      canonical form of [c] are [c] and its two ASCII case variants. *)
Definition setMatch (negated : bool) (items : list cclass) (c : N) : bool :=
    xorb negated
      (setMem items c
       || (ignoreCase fl
           && (setMem items (upperUnit c) || setMem items (lowerUnit c)))).

Definition charStep (p : N -> bool) (k : mstate -> option mstate)
      (x : mstate) : option mstate :=
    match s !! x.1 with
    | Some c => if p c then k (S x.1, x.2) else None
    | None => None
    end.

Definition atLineStart (i : nat) : bool :=
    match i with
    | O => true
    | S j => multiline fl &&
             match s !! j with Some c => isLineTerminator c | None => false end
    end.

Definition atLineEnd (i : nat) : bool :=
    match s !! i with
    | None => true
    | Some c => multiline fl && isLineTerminator c
    end.

  (** RepeatMatcher, for the matcher [m] of the repeated pattern and its
      capturing groups [gs]: an iteration that is not required ([min = 0])
      and consumes nothing is rejected, so at most
      [min + (length s - position)] iterations run; [fuel] is started above
      that bound. *)
Fixpoint repeatM (m : (mstate -> option mstate) -> mstate -> option mstate)
      (gs : list nat) (greedy : bool) (k : mstate -> option mstate)
      (fuel mn : nat) (mx : option nat) (x : mstate) {struct fuel}
      : option mstate :=
    match fuel with
    | O => None
    | S fuel' =>
        match mx with
        | Some O => k x
        | _ =>
            let d := fun y : mstate =>
              if (mn =? 0)%nat && (y.1 =? x.1)%nat then None
              else repeatM m gs greedy k fuel' (pred mn) (pred <$> mx) y in
            let xr := (x.1, clearGroups gs x.2) in
            if negb (mn =? 0)%nat then m d xr
            else if greedy then
              match m d xr with
              | Some z => Some z
              | None => k x
              end
            else
              match k x with
              | Some z => Some z
              | None => m d xr
              end
        end
    end.

Fixpoint rmatch (r : regex) (k : mstate -> option mstate) (x : mstate)
      {struct r} : option mstate :=
    match r with
    | REmpty => k x
    | RChar c => charStep (setMatch false [CChar c]) k x
    | RAny => charStep (fun c => negb (isLineTerminator c)) k x
    | RSet negated items => charStep (setMatch negated items) k x
    | RSeq r1 r2 => rmatch r1 (fun y => rmatch r2 k y) x
    | RAlt r1 r2 =>
        match rmatch r1 k x with
        | Some z => Some z
        | None => rmatch r2 k x
        end
    | RGroup n r1 =>
        rmatch r1 (fun y => k (y.1, <[n := Some (x.1, y.1)]> y.2)) x
    | RQuant r1 mn mx greedy =>
        repeatM (rmatch r1) (groupsOf r1) greedy k
          (S (mn + (length s - x.1))) mn mx x
    | RBol => if atLineStart x.1 then k x else None
    | REol => if atLineEnd x.1 then k x else None
    | RLook positive r1 =>
        match rmatch r1 Some x with
        | Some y => if positive then k (x.1, y.2) else None
        | None => if positive then None else k x
        end
    end.

  (** *** What a pattern matches

      [lang r i j]: the pattern [r] matches the characters of [s] from
      position [i] to position [j] (in the context of the whole string,
      for the assertions).  Captures play no part: the patterns of the
      source have no back-reference. *)
Definition charAt (p : N -> bool) (i j : nat) : Prop :=
    exists c, s !! i = Some c /\ p c = true /\ j = S i.

Fixpoint chain (step : nat -> nat -> Prop) (n : nat) (i j : nat) : Prop :=
    match n with
    | O => j = i
    | S n' => exists m, step i m /\ chain step n' m j
    end.

Definition within (mn : nat) (mx : option nat) (n : nat) : Prop :=
    (mn <= n)%nat /\
    match mx with Some b => (n <= b)%nat | None => True end.

Fixpoint lang (r : regex) (i j : nat) : Prop :=
    match r with
    | REmpty => j = i
    | RChar c => charAt (setMatch false [CChar c]) i j
    | RAny => charAt (fun c => negb (isLineTerminator c)) i j
    | RSet negated items => charAt (setMatch negated items) i j
    | RSeq r1 r2 => exists m, lang r1 i m /\ lang r2 m j
    | RAlt r1 r2 => lang r1 i j \/ lang r2 i j
    | RGroup _ r1 => lang r1 i j
    | RQuant r1 mn mx _ => exists n, within mn mx n /\ chain (lang r1) n i j
    | RBol => j = i /\ atLineStart i = true
    | REol => j = i /\ atLineEnd i = true
    | RLook true r1 => j = i /\ exists m, lang r1 i m
    | RLook false r1 => j = i /\ ~ exists m, lang r1 i m
    end.
(** *** Correctness statements for a matcher

    A matcher is sound for a relation [L] on positions when a successful
    run ends in a call of the continuation at a position [L] reaches, and
    complete when it succeeds as soon as [L] reaches a position at which
    the continuation succeeds whatever the captures are. *)
Definition sound (m : matcher) (L : nat -> nat -> Prop) : Prop :=
  forall k x z, (x.1 <= length s)%nat -> m k x = Some z ->
    exists y, L x.1 y.1 /\ k y = Some z.

Definition complete (m : matcher) (L : nat -> nat -> Prop) : Prop :=
  forall k x j, (x.1 <= length s)%nat -> L x.1 j ->
    (forall c, is_Some (k (j, c))) -> is_Some (m k x).

Definition bounded (L : nat -> nat -> Prop) : Prop :=
  forall i j, (i <= length s)%nat -> L i j -> (i <= j <= length s)%nat.

Definition boundsOk (mn : nat) (mx : option nat) : Prop :=
  match mx with Some b => (mn <= b)%nat | None => True end.

(** A matcher looks at its continuation only at the positions from the
    current one to the end of the string. *)
Definition local (m : matcher) : Prop :=
  forall k k' x, (x.1 <= length s)%nat ->
    (forall y, (x.1 <= y.1 <= length s)%nat -> k y = k' y) ->
    m k x = m k' x.

(** The continuation [d] of RepeatMatcher. *)
Definition iterate (m : matcher) (gs : list nat) (greedy : bool)
    (k : mstate -> option mstate) (fuel mn : nat)
    (mx : option nat) (x : mstate) : mstate -> option mstate :=
  fun y => if (mn =? 0)%nat && (y.1 =? x.1)%nat then None
           else repeatM m gs greedy k fuel (pred mn) (pred <$> mx) y.
End Matcher.

(** *** Captures that a match defines *)

(** The groups that every successful match of a pattern defines. *)
Fixpoint surely (r : regex) : list nat :=
  match r with
  | RSeq a b => surely a ++ surely b
  | RAlt a b => filter (fun n => n ∈ surely b) (surely a)
  | RGroup n a => n :: surely a
  | RQuant a mn _ _ => match mn with O => [] | S _ => surely a end
  | RLook true a => surely a
  | _ => []
  end.

Definition defined (n : nat) (c : captures) : Prop :=
  exists sp, c !! n = Some (Some sp).

(** A matcher keeps the length of the capture list, leaves the groups
    outside [gs] as they are and defines the groups of [sure]. *)
Definition captures_ok (m : matcher) (gs sure : list nat) : Prop :=
  forall k x z, m k x = Some z ->
    exists y, k y = Some z /\ length y.2 = length x.2
      /\ (forall n, n ∉ gs -> y.2 !! n = x.2 !! n)
      /\ (forall n, n ∈ sure -> (n < length x.2)%nat -> defined n y.2).

(** The literal [t] is read at the head of [s], each character up to the
    flags. *)
Fixpoint litAt (fl : flags) (t s : jsstring) {struct t} : bool :=
  match t, s with
  | [], _ => true
  | c :: t', d :: s' => setMatch fl false [CChar c] d && litAt fl t' s'
  | _ :: _, [] => false
  end.

(** The result of one successful match: where it starts, where it ends and
    the spans of the capturing groups ([None]: did not take part). *)
Record MatchResult := {
  m_index : nat;
  m_end : nat;
  m_caps : captures
}.

Definition matchAt (re : RegExp) (s : jsstring) (i : nat) : option MatchResult :=
  match rmatch (re_flags re) s (re_body re) Some
          (i, replicate (S (re_groups re)) None) with
  | Some y => Some {| m_index := i; m_end := y.1; m_caps := y.2 |}
  | None => None
  end.

(** RegExpBuiltinExec from [lastIndex = i]: the first start position, from
    [i] up to the length of the string, at which the pattern matches. *)
Fixpoint execLoop (re : RegExp) (s : jsstring) (gap i : nat)
    : option MatchResult :=
  match matchAt re s i with
  | Some m => Some m
  | None =>
      match gap with
      | O => None
      | S g => execLoop re s g (S i)
      end
  end.

Definition exec (re : RegExp) (s : jsstring) (i : nat) : option MatchResult :=
  if (i <=? length s)%nat then execLoop re s (length s - i) i else None.

(** [re.test(s)] and [s.match(re)] for a pattern without the [g] flag. *)
Definition regex_test (re : RegExp) (s : jsstring) : bool :=
  match exec re s 0 with Some _ => true | None => false end.

Definition matched (s : jsstring) (m : MatchResult) : jsstring :=
  slice s (m_index m) (m_end m).

(** [match[n]] for [n >= 1]; [None] is [undefined]. *)
Definition group (s : jsstring) (m : MatchResult) (n : nat) : option jsstring :=
  match m_caps m !! n with
  | Some (Some (a, b)) => Some (slice s a b)
  | _ => None
  end.

(** The successive matches of a [g] pattern, as [replace] and a
    [while (exec)] loop see them: after an empty match [lastIndex] is
    advanced by one.  [lastIndex] grows with every round and [exec] fails
    beyond the end of the string, so [fuel] is started at [length s + 2]. *)
Fixpoint matchAllLoop (re : RegExp) (s : jsstring) (fuel last : nat)
    : list MatchResult :=
  match fuel with
  | O => []
  | S f =>
      match exec re s last with
      | None => []
      | Some m =>
          m :: matchAllLoop re s f
                 (if (m_end m =? m_index m)%nat then S (m_end m) else m_end m)
      end
  end.

Definition matchAll (re : RegExp) (s : jsstring) : list MatchResult :=
  matchAllLoop re s (length s + 2) 0.

Fixpoint substitute (s : jsstring) (f : MatchResult -> jsstring)
    (ms : list MatchResult) (from : nat) : jsstring :=
  match ms with
  | [] => drop from s
  | m :: ms' => slice s from (m_index m) ++ f m ++ substitute s f ms' (m_end m)
  end.

(** [s.replace(re, f)]: every match when [re] has the [g] flag, the first
    one otherwise. *)
Definition replace (re : RegExp) (s : jsstring) (f : MatchResult -> jsstring)
    : jsstring :=
  if global (re_flags re) then substitute s f (matchAll re s) 0
  else match exec re s 0 with
       | Some m => substitute s f [m] 0
       | None => s
       end.

(** [s.split(re)] (the Symbol.split loop: sticky matches at each position
    [q]; a match that ends where the current piece starts is skipped).  The
    patterns given to it in the source have no capturing group.  Of two
    successive rounds one at least moves [q] forward, so [fuel] is started
    at twice the length of the string. *)
Fixpoint splitLoop (re : RegExp) (s : jsstring) (fuel p q : nat)
    : list jsstring :=
  match fuel with
  | O => [drop p s]
  | S f =>
      if (length s <=? q)%nat then [drop p s]
      else match matchAt re s q with
           | None => splitLoop re s f p (S q)
           | Some m =>
               let e := Nat.min (m_end m) (length s) in
               if (e =? p)%nat then splitLoop re s f p (S q)
               else slice s p q :: splitLoop re s f e e
           end
  end.

Definition split (re : RegExp) (s : jsstring) : list jsstring :=
  match s with
  | [] => match matchAt re s 0 with Some _ => [] | None => [[]] end
  | _ => splitLoop re s (2 * length s) 0 0
  end.

(** *** Writing patterns *)

Definition seqs (rs : list regex) : regex := foldr RSeq REmpty rs.
Definition str (t : string) : regex := seqs (RChar <$> lit t).
Fixpoint alts (rs : list regex) : regex :=
  match rs with
  | [] => RSet false []
  | [r] => r
  | r :: rs' => RAlt r (alts rs')
  end.
Definition star (r : regex) : regex := RQuant r 0 None true.
Definition plus (r : regex) : regex := RQuant r 1 None true.
Definition opt (r : regex) : regex := RQuant r 0 (Some 1%nat) true.
Definition lazyStar (r : regex) : regex := RQuant r 0 None false.
Definition lazyPlus (r : regex) : regex := RQuant r 1 None false.
Definition word : regex := RSet false [CWord].
Definition space : regex := RSet false [CSpace].
Definition noFlags : flags :=
  {| ignoreCase := false; multiline := false; global := false |}.
Definition flagI : flags :=
  {| ignoreCase := true; multiline := false; global := false |}.
Definition flagG : flags :=
  {| ignoreCase := false; multiline := false; global := true |}.
Definition flagGM : flags :=
  {| ignoreCase := false; multiline := true; global := true |}.

End Regex.

Import Regex.

(** ** The Mermaid sanitiser of the diagram component *)

Module Diagram.

Definition mk (fl : flags) (n : nat) (r : regex) : RegExp :=
  {| re_body := r; re_groups := n; re_flags := fl |}.

(** In the patterns quoted in comments, [DQ] stands for the double-quote
    character and a blank is put between a star and a closing parenthesis.
    [/\\/g] and [/DQ/g] *)
Definition reBackslash : RegExp := mk flagG 0 (RChar bsl).
Definition reQuote : RegExp := mk flagG 0 (RChar dq).

(** [text.replace(/\\/g, '\\\\').replace(/DQ/g, '\\DQ')] *)
Definition escapeLabel (text : jsstring) : jsstring :=
  replace reQuote (replace reBackslash text (fun _ => [bsl; bsl]))
    (fun _ => [bsl; dq]).

(** [/^_+/] and [/_+$/] *)
Definition reLeadingUnderscores : RegExp :=
  mk noFlags 0 (RSeq RBol (plus (RChar 95))).
Definition reTrailingUnderscores : RegExp :=
  mk noFlags 0 (RSeq (plus (RChar 95)) REol).

Definition cleanLabel (text : jsstring) : jsstring :=
  let cleaned := trim text in
  if negb (truthy cleaned) then []
  else
    let cleaned :=
      if (startsWith cleaned [dq] && endsWith cleaned [dq])
         || (startsWith cleaned [sq] && endsWith cleaned [sq])
      then slice cleaned 1 (length cleaned - 1)
      else cleaned in
    let cleaned :=
      trim (replace reTrailingUnderscores
              (replace reLeadingUnderscores cleaned (fun _ => []))
              (fun _ => [])) in
    escapeLabel cleaned.

(** [/^fa:[\w-]+/i] and [/\s+/] *)
Definition reIcon : RegExp :=
  mk flagI 0 (seqs [RBol; str "fa:"; plus (RSet false [CWord; CChar 45])]).
Definition reSpaces : RegExp := mk noFlags 0 (plus space).

Definition formatNodeContent (raw : jsstring) : jsstring :=
  let trimmed := trim raw in
  if negb (truthy trimmed) then [dq; dq]
  else if regex_test reIcon trimmed then
    let icon := hd [] (split reSpaces trimmed) in
    let rest := trim (drop (length icon) trimmed) in
    if negb (truthy rest) then icon
    else icon ++ lit " " ++ [dq] ++ cleanLabel rest ++ [dq]
  else [dq] ++ cleanLabel trimmed ++ [dq].

(** The scanner of [splitStatements]: the statements pushed so far, the
    current accumulator, the quote flag and the previous character
    ([input[i - 1]], undefined at [i = 0]). *)
Record SplitState := {
  statements : list jsstring;
  current : jsstring;
  inQuote : bool;
  previous : option N
}.

Definition pushTrimmed (acc : list jsstring) (cur : jsstring) : list jsstring :=
  if truthy (trim cur) then acc ++ [trim cur] else acc.

Definition splitStep (st : SplitState) (char : N) : SplitState :=
  let inQ :=
    if (char =? dq) && negb (bool_decide (previous st = Some bsl))
    then negb (inQuote st) else inQuote st in
  if negb inQ && ((char =? nl) || (char =? semi)) then
    {| statements := pushTrimmed (statements st) (current st);
       current := []; inQuote := inQ; previous := Some char |}
  else
    {| statements := statements st; current := current st ++ [char];
       inQuote := inQ; previous := Some char |}.

Definition splitStatements (input : jsstring) : list jsstring :=
  let st := fold_left splitStep input
              {| statements := []; current := []; inQuote := false;
                 previous := None |} in
  pushTrimmed (statements st) (current st).

(** [/^graph\s+/i] and [/^graph\s+([A-Za-z]+)/i] *)
Definition reGraphHeader : RegExp :=
  mk flagI 0 (seqs [RBol; str "graph"; plus space]).
Definition reGraphDirection : RegExp :=
  mk flagI 1
     (seqs [RBol; str "graph"; plus space;
            RGroup 1 (plus (RSet false [CRange 65 90; CRange 97 122]))]).

(** [/;/g] *)
Definition reSemicolon : RegExp := mk flagG 0 (RChar semi).

(** [-\\.->] of the source patterns: a hyphen, a backslash, any character,
    a hyphen and [>]. *)
Definition arrowBackslashDot : regex :=
  seqs [RChar 45; RChar bsl; RAny; str "->"].

(** [/(-->|---|-->>|==>|=>|-\\.->|-\+->|--x|-x)\s*$/gm] *)
Definition reDanglingArrow : RegExp :=
  mk flagGM 1
     (seqs [RGroup 1
              (alts [str "-->"; str "---"; str "-->>"; str "==>"; str "=>";
                     arrowBackslashDot; str "-+->"; str "--x"; str "-x"]);
            star space; REol]).

(** [new RegExp(`(\\w+)\\${open}([^\\${close}]*?)\\${close}`, 'g')] *)
Definition nodeRegex (open close : N) : RegExp :=
  mk flagG 2
     (seqs [RGroup 1 (plus word); RChar open;
            RGroup 2 (lazyStar (RSet true [CChar close])); RChar close]).

Definition NODE_BRACKETS : list (N * N) := [(91, 93); (40, 41); (123, 125)].

(** [/(---|-->>|--\s*-->|-->|==>|=>|-\\.->|-\+->|--x|-x)\s*\|\s*([^|]+?)\s*\|/g] *)
Definition reEdgeLabel : RegExp :=
  mk flagG 2
     (seqs [RGroup 1
              (alts [str "---"; str "-->>";
                     seqs [str "--"; star space; str "-->"];
                     str "-->"; str "==>"; str "=>";
                     arrowBackslashDot; str "-+->"; str "--x"; str "-x"]);
            star space; RChar 124; star space;
            RGroup 2 (lazyPlus (RSet true [CChar 124]));
            star space; RChar 124]).

Definition groupText (s : jsstring) (m : MatchResult) (n : nat) : jsstring :=
  default [] (group s m n).

Definition rewriteNodes (normalized : jsstring) (b : N * N) : jsstring :=
  replace (nodeRegex b.1 b.2) normalized
    (fun m => groupText normalized m 1 ++ [b.1]
              ++ formatNodeContent (groupText normalized m 2) ++ [b.2]).

Definition normalizeLine (line : jsstring) : jsstring :=
  let normalized := trim (replace reSemicolon line (fun _ => [])) in
  if negb (truthy normalized) then []
  else
    let normalized := replace reDanglingArrow normalized (fun _ => []) in
    let normalized := fold_left rewriteNodes NODE_BRACKETS normalized in
    replace reEdgeLabel normalized
      (fun m => groupText normalized m 1 ++ [124; dq]
                ++ cleanLabel (groupText normalized m 2) ++ [dq; 124]).

(** The loop over the statements: the header line, the body and the
    [headerFound] flag. *)
Record GraphState := {
  header : jsstring;
  body : list jsstring;
  headerFound : bool
}.

Section Graph.
  Context `{UnicodeCase}.

Definition headerStep (st : GraphState) (statement : jsstring) : GraphState :=
    if negb (headerFound st) && regex_test reGraphHeader statement then
      let mt := exec reGraphDirection statement 0 in
      let direction :=
        match mt with
        | Some m => toUpperCase (groupText statement m 1)
        | None => lit "TD"
        end in
      let remainder :=
        trim (drop (match mt with
                    | Some m => length (matched statement m)
                    | None => O
                    end) statement) in
      {| header := lit "graph " ++
                   (if eqs direction (lit "LR") then lit "LR" else lit "TD");
         body := if truthy remainder
                 then body st ++ splitStatements remainder else body st;
         headerFound := true |}
    else
      {| header := header st; body := body st ++ [statement];
         headerFound := headerFound st |}.

Definition normalizeGraphDiagram (code : jsstring) : jsstring :=
    let stmts := splitStatements code in
    match stmts with
    | [] => []
    | _ =>
        let st := fold_left headerStep stmts
                    {| header := lit "graph TD"; body := [];
                       headerFound := false |} in
        let normalizedBody := filter (fun l => truthy l = true)
                                (normalizeLine <$> body st) in
        join [nl] (header st :: normalizedBody)
    end.
End Graph.

(** The patterns of [sanitizeErd]. *)
Definition reFence : RegExp := mk flagG 0 (str "```").
Definition alnumUnderscore : regex :=
  RSet false [CRange 65 90; CRange 97 122; CRange 48 57; CChar 95].
(** [/([A-Za-z0-9_]+)\s*:::\s*(\w+)/g] *)
Definition reClassShorthand : RegExp :=
  mk flagG 2
     (seqs [RGroup 1 (plus alnumUnderscore); star space; str ":::";
            star space; RGroup 2 (plus word)]).
(** [/classDef\s+[^\n]+/g] *)
Definition reClassDef : RegExp :=
  mk flagG 0 (seqs [str "classDef"; plus space; plus (RSet true [CChar nl])]).
(** [/}\s+(?=[A-Za-z0-9_])/g] *)
Definition reBraceGap : RegExp :=
  mk flagG 0 (seqs [RChar 125; plus space; RLook true alnumUnderscore]).
(** [/^(class(?:Def)?.* );/gm] *)
Definition reClassSemicolon : RegExp :=
  mk flagGM 1
     (seqs [RBol; RGroup 1 (seqs [str "class"; opt (str "Def"); star RAny]);
            RChar semi]).
(** [/^(.*\s:\s* )(.* )\s*$/] *)
Definition reRelationship : RegExp :=
  mk noFlags 2
     (seqs [RBol;
            RGroup 1 (seqs [star RAny; space; RChar 58; star space]);
            RGroup 2 (star RAny); star space; REol]).
(** [/[|o}][|-]{2}[o|{]/] *)
Definition reCardinality : RegExp :=
  mk noFlags 0
     (seqs [RSet false [CChar 124; CChar 111; CChar 125];
            RQuant (RSet false [CChar 124; CChar 45]) 2 (Some 2%nat) true;
            RSet false [CChar 111; CChar 124; CChar 123]]).

Definition erdLine (processed : list jsstring) (line : jsstring)
    : list jsstring :=
  let current := trim line in
  if negb (truthy current) then processed
  else
    let current :=
      replace reClassSemicolon current (fun m => groupText current m 1) in
    let current :=
      match exec reRelationship current 0 with
      | Some relMatch =>
          let label := trim (groupText current relMatch 2) in
          if truthy label && negb (startsWith label [dq])
             && negb (endsWith label [dq]) && regex_test reCardinality current
          then trim (groupText current relMatch 1) ++ lit " " ++ [dq]
               ++ cleanLabel label ++ [dq]
          else current
      | None => current
      end in
    processed ++ [current].

Definition sanitizeErd (code : jsstring) : jsstring :=
  let working := replace reFence code (fun _ => []) in
  let classAssignments :=
    (fun m => lit "class " ++ trim (groupText working m 1) ++ lit " "
              ++ groupText working m 2) <$> matchAll reClassShorthand working in
  let working :=
    replace reClassShorthand working (fun m => groupText working m 1) in
  let classDefs :=
    (fun m => trim (replace reSemicolon (matched working m) (fun _ => [])))
      <$> matchAll reClassDef working in
  let working := replace reClassDef working (fun _ => []) in
  let working := replace reBraceGap working (fun _ => [125; nl]) in
  let processed := fold_left erdLine (splitOn nl working) [] in
  join [nl] (filter (fun l => truthy l = true)
               (processed ++ classDefs ++ classAssignments)).

(** [/[DQ']/g] *)
Definition reAnyQuote : RegExp := mk flagG 0 (RSet false [CChar dq; CChar sq]).

(** [/(.*(?:->>|-->>|->|-->|-x|--x)\s*[\wDQ']+\s*:\s* )(?!DQ)(.* )/] *)
Definition reMessage : RegExp :=
  mk noFlags 2
     (seqs [RGroup 1
              (seqs [star RAny;
                     alts [str "->>"; str "-->>"; str "->"; str "-->";
                           str "-x"; str "--x"];
                     star space;
                     plus (RSet false [CWord; CChar dq; CChar sq]);
                     star space; RChar 58; star space]);
            RLook false (RChar dq);
            RGroup 2 (star RAny)]).

(** [/^(\s* )activate\s+(.+)/i] and [/^(\s* )deactivate\s+(.+)/i] *)
Definition reActivate : RegExp :=
  mk flagI 2
     (seqs [RBol; RGroup 1 (star space); str "activate"; plus space;
            RGroup 2 (plus RAny)]).
Definition reDeactivate : RegExp :=
  mk flagI 2
     (seqs [RBol; RGroup 1 (star space); str "deactivate"; plus space;
            RGroup 2 (plus RAny)]).

(** The message-quoting step at the head of the loop body of
    [sanitizeSequence]. *)
Definition quoteMessage (line : jsstring) : jsstring :=
  match exec reMessage line 0 with
  | Some messageMatch =>
      let messageText := trim (groupText line messageMatch 2) in
      if truthy messageText
      then groupText line messageMatch 1 ++ [dq] ++ cleanLabel messageText
           ++ [dq]
      else line
  | None => line
  end.

Definition activateName (currentLine : jsstring) : option jsstring :=
  match exec reActivate currentLine 0 with
  | Some m => Some (groupText currentLine m 2)
  | None => None
  end.

Definition deactivateName (currentLine : jsstring) : option jsstring :=
  match exec reDeactivate currentLine 0 with
  | Some m => Some (groupText currentLine m 2)
  | None => None
  end.

Section Sequence.
  Context `{UnicodeCase}.

Definition normalizeParticipantId (raw : jsstring) : jsstring :=
    toLowerCase (trim (replace reAnyQuote raw (fun _ => []))).

  (** One round of the loop: the set [activeParticipants] and the list
      [processedLines]. *)
Definition sequenceStep (st : gset jsstring * list jsstring)
      (line : jsstring) : gset jsstring * list jsstring :=
    let currentLine := quoteMessage line in
    match activateName currentLine with
    | Some name =>
        let participantId := normalizeParticipantId name in
        ((if truthy participantId then {[participantId]} ∪ st.1 else st.1),
         st.2 ++ [currentLine])
    | None =>
        match deactivateName currentLine with
        | Some name =>
            let participantId := normalizeParticipantId name in
            if negb (truthy participantId)
               || negb (bool_decide (participantId ∈ st.1))
            then st
            else (st.1 ∖ {[participantId]}, st.2 ++ [currentLine])
        | None => (st.1, st.2 ++ [currentLine])
        end
    end.

Definition sanitizeSequence (code : jsstring) : jsstring :=
    join [nl] (fold_left sequenceStep (splitOn nl code) (∅, [])).2.

Definition sanitizeMermaidCode (code : jsstring) : jsstring :=
    let trimmed := trim code in
    if negb (truthy trimmed) then []
    else if startsWith trimmed (lit "graph") then normalizeGraphDiagram trimmed
    else if startsWith trimmed (lit "erDiagram") then sanitizeErd trimmed
    else if startsWith trimmed (lit "sequenceDiagram")
         then sanitizeSequence trimmed
    else trimmed.
End Sequence.

End Diagram.

(** ** The guarantee layer of [services/geminiService.ts] *)

Module Gemini.

(** The records of [types.ts]. *)
Record ComponentInfo := {
  name : jsstring;
  path : jsstring;
  c_description : jsstring
}.

Record TechnologyInfo := {
  t_name : jsstring;
  category : jsstring;
  t_description : jsstring
}.

Record ScreenDescription := {
  screenName : jsstring;
  description : jsstring;
  uiElements : list jsstring;
  events : list jsstring;
  validations : list jsstring
}.

Record CodeQualityAnalysis := {
  readability : jsstring;
  extensibility : jsstring;
  security : jsstring
}.

Record AnalysisResult := {
  overview : jsstring;
  components : list ComponentInfo;
  technologies : list TechnologyInfo;
  businessFlowDiagram : jsstring;
  sequenceDiagram : jsstring;
  screenTransitionDiagram : jsstring;
  databaseERD : jsstring;
  screenDescriptions : list ScreenDescription;
  codeQualityAnalysis : CodeQualityAnalysis
}.

Definition mk := Diagram.mk.

(** [/^graph\s/i] *)
Definition reGraphLine : RegExp :=
  mk flagI 0 (seqs [RBol; str "graph"; space]).
(** [/\w+\s*(?:\[|\(|\{)/] *)
Definition reNode : RegExp :=
  mk noFlags 0
     (seqs [plus word; star space; alts [RChar 91; RChar 40; RChar 123]]).
(** [/-->|---|==>|=>|-\.\->|-\+->/] *)
Definition reEdge : RegExp :=
  mk noFlags 0
     (alts [str "-->"; str "---"; str "==>"; str "=>"; str "-.->";
            str "-+->"]).

Section Classifier.
  Context `{UnicodeCase}.

  (** The lines the classifier looks at: the trimmed, non-empty lines that
      do not start, in lower case, with [graph] and a blank. *)
Definition statementLines (trimmed : jsstring) : list jsstring :=
    filter (fun line =>
              truthy line && negb (startsWith (toLowerCase line) (lit "graph "))
              = true)
           (trim <$> splitOn nl trimmed).

  (** [diagram] is [undefined], [null] ([None]) or a string. *)
Definition hasRenderableGraphDiagram (diagram : option jsstring) : bool :=
    match diagram with
    | None => false
    | Some diagram =>
        if negb (truthy diagram) then false
        else
          let trimmed := trim diagram in
          if negb (truthy trimmed) then false
          else if negb (regex_test reGraphLine trimmed) then false
          else
            let lines := statementLines trimmed in
            if (length lines =? 0)%nat then false
            else
              let hasNode := existsb (regex_test reNode) lines in
              let hasEdge := existsb (regex_test reEdge) lines in
              hasNode && hasEdge
    end.
End Classifier.

(** [text.replace(/DQ/g, '\\DQ').trim()] *)
Definition escapeLabel (text : jsstring) : jsstring :=
  trim (replace Diagram.reQuote text (fun _ => [bsl; dq])).

(** [/(service|controller|api|logic|backend|handler)/i] and
    [/(repository|dao|model|entity|database|db|storage|persistence)/i] *)
Definition reLogicKeywords : RegExp :=
  mk flagI 1
     (RGroup 1 (alts [str "service"; str "controller"; str "api";
                      str "logic"; str "backend"; str "handler"])).
Definition reDataKeywords : RegExp :=
  mk flagI 1
     (RGroup 1 (alts [str "repository"; str "dao"; str "model"; str "entity";
                      str "database"; str "db"; str "storage";
                      str "persistence"])).

Definition pickComponentLabel (components : list ComponentInfo)
    (keywords : RegExp) (fallback : jsstring) : jsstring :=
  match find (fun component =>
                regex_test keywords (name component)
                || regex_test keywords (path component)) components with
  | None => fallback
  | Some found =>
      let description :=
        if truthy (c_description found)
        then lit " - " ++ c_description found else [] in
      name found ++ description
  end.

Definition placeholderScreen (screenName description : jsstring)
    : ScreenDescription :=
  {| screenName := screenName; description := description;
     uiElements := []; events := []; validations := [] |}.

(** [`  ${a} --> ${b}`] *)
Definition edgeLine (a b : jsstring) : jsstring :=
  lit "  " ++ a ++ lit " --> " ++ b.

(** The chain a builder pushes for a non-empty list of node ids: an edge
    from [first] to the head, the [for] loop over the consecutive pairs
    and the edge from the last id to [final]. *)
Definition chainEdges (first final : jsstring) (ids : list jsstring)
    : list jsstring :=
  match ids with
  | [] => [edgeLine first final]
  | id0 :: _ =>
      [edgeLine first id0]
      ++ ((fun p => edgeLine p.1 p.2) <$> zip ids (tail ids))
      ++ [edgeLine (List.last ids []) final]
  end.

(** [node.split('[')[0]] *)
Definition idOfNode (node : jsstring) : jsstring :=
  hd [] (splitOn 91 node).

Definition buildBusinessFlowFallback (result : AnalysisResult) : jsstring :=
  let screens :=
    match screenDescriptions result with
    | [] => [placeholderScreen (lit "Primary Screen")
               (lit "Key user interaction surface")]
    | l => l
    end in
  let flowNodes := take 3 screens in
  let userNode := lit "User[" ++ [dq] ++ lit "User initiates action" ++ [dq]
                  ++ lit "]" in
  let uiNodes :=
    imap (fun index screen =>
            lit "UI" ++ numToString index ++ lit "[" ++ [dq]
            ++ escapeLabel (screenName screen) ++ [dq] ++ lit "]")
         flowNodes in
  let backendLabel :=
    escapeLabel (pickComponentLabel (components result) reLogicKeywords
                   (lit "Application Logic Layer")) in
  let dataLabel :=
    escapeLabel (pickComponentLabel (components result) reDataKeywords
                   (lit "Data Store")) in
  let nodes :=
    [lit "graph TD"; lit "  " ++ userNode]
    ++ ((fun node => lit "  " ++ node) <$> uiNodes)
    ++ [lit "  Logic[" ++ [dq] ++ backendLabel ++ [dq] ++ lit "]";
        lit "  Data[" ++ [dq] ++ dataLabel ++ [dq] ++ lit "]";
        lit "  Outcome[" ++ [dq] ++ lit "Business outcome delivered" ++ [dq]
        ++ lit "]"] in
  let edges :=
    chainEdges (lit "User") (lit "Logic") (idOfNode <$> uiNodes)
    ++ [lit "  Logic --> Data"; lit "  Data --> Logic";
        lit "  Logic --> Outcome"] in
  join [nl] (nodes ++ edges).

Definition buildScreenTransitionFallback (screens : list ScreenDescription)
    : jsstring :=
  let list :=
    match screens with
    | [] => [placeholderScreen (lit "Main Screen") []]
    | l => l
    end in
  let baseNodes :=
    imap (fun index screen =>
            (lit "Screen" ++ numToString index,
             escapeLabel (if truthy (screenName screen) then screenName screen
                          else lit "Screen " ++ numToString (index + 1))))
         list in
  let lines :=
    [lit "graph TD";
     lit "  Start[" ++ [dq] ++ lit "User Entry" ++ [dq] ++ lit "]";
     lit "  EndPoint[" ++ [dq] ++ lit "Goal Achieved" ++ [dq] ++ lit "]"]
    ++ ((fun n => lit "  " ++ n.1 ++ lit "[" ++ [dq] ++ n.2 ++ [dq] ++ lit "]")
          <$> baseNodes)
    ++ chainEdges (lit "Start") (lit "EndPoint") (fst <$> baseNodes) in
  join [nl] lines.

(** The pattern of [extractScreenNamesFromDiagram]:
    [/(\w+)\s*(?:\[\s*DQ([^DQ]+)DQ\s*\]|\(\s*DQ([^DQ]+)DQ\s*\)|\{\s*DQ([^DQ]+)DQ\s*\})/g] *)
Definition quotedLabel (n : nat) (open close : N) : regex :=
  seqs [RChar open; star space; RChar dq;
        RGroup n (plus (RSet true [CChar dq])); RChar dq; star space;
        RChar close].
Definition reScreenNode : RegExp :=
  mk flagG 4
     (seqs [RGroup 1 (plus word); star space;
            alts [quotedLabel 2 91 93; quotedLabel 3 40 41;
                  quotedLabel 4 123 125]]).

(** [a || b]: [a] when it is a non-empty string, [b] otherwise. *)
Definition orElse (a b : option jsstring) : option jsstring :=
  match a with
  | Some t => if truthy t then a else b
  | None => b
  end.

Section Screens.
  Context `{UnicodeCase}.

  (** One round of the [while (exec)] loop: the array [names] and the set
      [seen]. *)
Definition extractStep (diagram : jsstring)
      (st : list jsstring * gset jsstring) (m : MatchResult)
      : list jsstring * gset jsstring :=
    match orElse (group diagram m 2)
            (orElse (group diagram m 3) (group diagram m 4)) with
    | None => st
    | Some label =>
        if negb (truthy label) then st
        else
          let normalized := trim label in
          let key := toLowerCase normalized in
          if negb (truthy normalized) || bool_decide (key ∈ st.2) then st
          else (st.1 ++ [normalized], {[key]} ∪ st.2)
    end.

Definition extractScreenNamesFromDiagram (diagram : option jsstring)
      : list jsstring :=
    match diagram with
    | None => []
    | Some diagram =>
        if negb (truthy diagram) then []
        else (fold_left (extractStep diagram) (matchAll reScreenNode diagram)
                ([], ∅)).1
    end.

Definition createPlaceholderScreen (name : jsstring) : ScreenDescription :=
    {| screenName := name;
       description := name ++ lit " screen (auto-generated placeholder).";
       uiElements := [lit "Main content panel"; lit "Summary widget"];
       events := [lit "User reviews data";
                  lit "User navigates to other screens"];
       validations := [lit "Basic validation is not specified"] |}.

Definition screenKey (name : jsstring) : jsstring :=
    toLowerCase (trim name).

Definition withScreenDescriptions (result : AnalysisResult)
      (l : list ScreenDescription) : AnalysisResult :=
    {| overview := overview result; components := components result;
       technologies := technologies result;
       businessFlowDiagram := businessFlowDiagram result;
       sequenceDiagram := sequenceDiagram result;
       screenTransitionDiagram := screenTransitionDiagram result;
       databaseERD := databaseERD result;
       screenDescriptions := l;
       codeQualityAnalysis := codeQualityAnalysis result |}.

Definition ensureScreenDescriptionsMatchDiagram (result : AnalysisResult)
      : AnalysisResult :=
    let diagramScreens :=
      extractScreenNamesFromDiagram (Some (screenTransitionDiagram result)) in
    match diagramScreens with
    | [] => result
    | _ =>
        let existingMap : gmap jsstring ScreenDescription :=
          fold_left (fun m screen => <[screenKey (screenName screen) := screen]> m)
                    (screenDescriptions result) ∅ in
        let synchronized :=
          (fun screenName =>
             default (createPlaceholderScreen screenName)
                     (existingMap !! screenKey screenName)) <$> diagramScreens in
        let extras :=
          filter (fun screen =>
                    negb (existsb (fun label =>
                                     eqs (screenKey label)
                                         (screenKey (screenName screen)))
                                  diagramScreens) = true)
                 (screenDescriptions result) in
        withScreenDescriptions result (synchronized ++ extras)
    end.

Definition withBusinessFlow (result : AnalysisResult) (d : jsstring)
      : AnalysisResult :=
    {| overview := overview result; components := components result;
       technologies := technologies result;
       businessFlowDiagram := d;
       sequenceDiagram := sequenceDiagram result;
       screenTransitionDiagram := screenTransitionDiagram result;
       databaseERD := databaseERD result;
       screenDescriptions := screenDescriptions result;
       codeQualityAnalysis := codeQualityAnalysis result |}.

Definition withScreenTransition (result : AnalysisResult) (d : jsstring)
      : AnalysisResult :=
    {| overview := overview result; components := components result;
       technologies := technologies result;
       businessFlowDiagram := businessFlowDiagram result;
       sequenceDiagram := sequenceDiagram result;
       screenTransitionDiagram := d;
       databaseERD := databaseERD result;
       screenDescriptions := screenDescriptions result;
       codeQualityAnalysis := codeQualityAnalysis result |}.

Definition ensureGraphDiagrams (result : AnalysisResult) : AnalysisResult :=
    let normalized :=
      if negb (hasRenderableGraphDiagram (Some (businessFlowDiagram result)))
      then withBusinessFlow result (buildBusinessFlowFallback result)
      else result in
    let normalized :=
      if negb (hasRenderableGraphDiagram
                 (Some (screenTransitionDiagram normalized)))
      then withScreenTransition normalized
             (buildScreenTransitionFallback (screenDescriptions normalized))
      else normalized in
    ensureScreenDescriptionsMatchDiagram normalized.
End Screens.

End Gemini.

(** ** The chart signature of the diagram component *)

Module Chart.

(** ToInt32, the conversion [x | 0] applies: the integer modulo 2^32, read
    as a signed 32-bit number. *)
Definition toInt32 (x : Z) : Z :=
  let int32bit := (x mod 2 ^ 32)%Z in
  if (2 ^ 31 <=? int32bit)%Z then (int32bit - 2 ^ 32)%Z else int32bit.

(** [Math.imul(x, y)]: the product of the two operands as unsigned 32-bit
    numbers, modulo 2^32, read as a signed 32-bit number. *)
Definition imul (x y : Z) : Z :=
  let a := (x mod 2 ^ 32)%Z in
  let b := (y mod 2 ^ 32)%Z in
  let product := ((a * b) mod 2 ^ 32)%Z in
  if (2 ^ 31 <=? product)%Z then (product - 2 ^ 32)%Z else product.

(** One round of the loop of [hashString]:
    [hash = Math.imul(31, hash) + value.charCodeAt(i) | 0]. *)
Definition hashStep (hash : Z) (charCode : N) : Z :=
  toInt32 (imul 31 hash + Z.of_N charCode).

Definition hashCode (value : jsstring) : Z := fold_left hashStep value 0%Z.

(** A digit of [toString(36)]: [0] to [9], then [a] to [z]. *)
Definition digit36 (d : N) : N := if d <? 10 then 48 + d else 87 + d.

Fixpoint digits36 (fuel : nat) (n : N) (acc : jsstring) : jsstring :=
  match fuel with
  | O => acc
  | S f =>
      let acc' := digit36 (n mod 36) :: acc in
      if n <? 36 then acc' else digits36 f (n / 36) acc'
  end.

(** [n.toString(36)] for an integer [n >= 0]; a number of [b] bits has at
    most [b] digits, which bounds the fuel. *)
Definition toString36 (n : N) : jsstring :=
  digits36 (S (N.to_nat (N.log2 n))) n [].

(** [Math.abs(hash).toString(36)] *)
Definition hashString (value : jsstring) : jsstring :=
  toString36 (Z.to_N (Z.abs (hashCode value))).

Section Memo.
  Context `{UnicodeCase}.

(** [chart?.trim() ?? ''] and the two memoised values of the component:
    the sanitised chart and its signature. *)
Definition cleanChart (chart : option jsstring) : jsstring :=
  let normalizedChart := match chart with Some c => trim c | None => [] end in
  if negb (truthy normalizedChart) then []
  else Diagram.sanitizeMermaidCode normalizedChart.

Definition chartSignature (chart : option jsstring) : jsstring :=
  let clean := cleanChart chart in
  if negb (truthy clean) then lit "empty" else hashString clean.
End Memo.

End Chart.

(** ** The response clean-up of [services/geminiService.ts] *)

Module Service.

Definition flagGI : flags :=
  {| ignoreCase := true; multiline := false; global := true |}.

(** [/```(?:html|css|javascript|js)?/gi] *)
Definition reHtmlFence : RegExp :=
  Diagram.mk flagGI 0
    (seqs [str "```";
           opt (alts [str "html"; str "css"; str "javascript"; str "js"])]).

(** [html.replace(/```(?:html|css|javascript|js)?/gi, '').replace(/```/g, '').trim()] *)
Definition sanitizeHtmlResponse (html : jsstring) : jsstring :=
  trim (replace Diagram.reFence (replace reHtmlFence html (fun _ => []))
          (fun _ => [])).

(** [PROJECT_CONTEXT_LIMIT] and the module variable [lastProjectContext]
    ([None] is [null]), threaded as a state. *)
Definition PROJECT_CONTEXT_LIMIT : nat := N.to_nat 120000.

Definition rememberProjectContext (projectText : jsstring)
    (lastProjectContext : option jsstring) : option jsstring :=
  if truthy projectText
  then Some (slice projectText 0 PROJECT_CONTEXT_LIMIT) else None.

Definition getProjectContext (lastProjectContext : option jsstring)
    : option jsstring :=
  lastProjectContext.

(** [type GraphDiagramKey = 'businessFlowDiagram' | 'screenTransitionDiagram'] *)
Inductive GraphDiagramKey : Type :=
| businessFlowKey
| screenTransitionKey.

(** [result[key]] *)
Definition diagramOf (key : GraphDiagramKey) (result : Gemini.AnalysisResult)
    : jsstring :=
  match key with
  | businessFlowKey => Gemini.businessFlowDiagram result
  | screenTransitionKey => Gemini.screenTransitionDiagram result
  end.

Section Repair.
  Context `{UnicodeCase}.

(** [result[key] = d] *)
Definition withDiagram (key : GraphDiagramKey) (result : Gemini.AnalysisResult)
    (d : jsstring) : Gemini.AnalysisResult :=
  match key with
  | businessFlowKey => Gemini.withBusinessFlow result d
  | screenTransitionKey => Gemini.withScreenTransition result d
  end.

Definition buildFallbackDiagram (key : GraphDiagramKey)
    (result : Gemini.AnalysisResult) : jsstring :=
  match key with
  | screenTransitionKey =>
      Gemini.buildScreenTransitionFallback (Gemini.screenDescriptions result)
  | businessFlowKey => Gemini.buildBusinessFlowFallback result
  end.

  (** The outcome of [regenerateGraphDiagram] for a key: the text it
      returns, or [None] when the call throws. *)
  Variable regenerated : GraphDiagramKey -> option jsstring.

(** One round of the repair loop of [analyzeProject]. *)
Definition repairDiagram (parsed : Gemini.AnalysisResult)
    (key : GraphDiagramKey) : Gemini.AnalysisResult :=
  if negb (Gemini.hasRenderableGraphDiagram (Some (diagramOf key parsed))) then
    let giveUp :=
      if negb (Gemini.hasRenderableGraphDiagram (Some (diagramOf key parsed)))
      then withDiagram key parsed (buildFallbackDiagram key parsed)
      else parsed in
    match regenerated key with
    | Some text =>
        if Gemini.hasRenderableGraphDiagram (Some text)
        then withDiagram key parsed text
        else giveUp
    | None => giveUp
    end
  else parsed.

(** The loop over the two keys and the closing call of
    [ensureGraphDiagrams]. *)
Definition repairDiagrams (parsed : Gemini.AnalysisResult)
    : Gemini.AnalysisResult :=
  Gemini.ensureGraphDiagrams
    (fold_left repairDiagram [businessFlowKey; screenTransitionKey] parsed).
End Repair.

End Service.

(** ** What the patterns of the source accept, in words

    The readings below are proved equivalent to the patterns further
    down. *)

Import Diagram Gemini.

Module Reading.

(** [/^graph\s/i]: the text starts with [graph] in any case, then a blank. *)
Definition graphKeywordThenBlank (t : jsstring) : bool :=
  startsWithIgnoreCase t (lit "graph")
  && match t !! 5%nat with Some w => isWhiteSpace w | None => false end.

(** [/^fa:[\w-]+/i]: the text starts with [fa:] in any case, then a word
    character or a hyphen. *)
Definition iconStart (t : jsstring) : bool :=
  startsWithIgnoreCase t (lit "fa:")
  && match t !! 3%nat with
     | Some c => isWordChar c || (c =? 45)
     | None => false
     end.

(** [/\w+\s*(?:\[|\(|\{)/]: a word character, blanks or none, then an
    opening bracket. *)
Definition hasNodeBracket (line : jsstring) : Prop :=
  exists pre c blanks b post,
    line = pre ++ [c] ++ blanks ++ [b] ++ post
    /\ isWordChar c = true
    /\ Forall (fun x => isWhiteSpace x = true) blanks
    /\ b ∈ [91; 40; 123].

Definition edgeArrows : list jsstring :=
  lit <$> ["-->"; "---"; "==>"; "=>"; "-.->"; "-+->"]%string.

(** The edge pattern: one of the arrows occurs in the line. *)
Definition hasEdgeArrow (line : jsstring) : Prop :=
  exists pre tok post, line = pre ++ tok ++ post /\ tok ∈ edgeArrows.

(** The double quotes of [s] that are not escaped, in the sense of
    [splitStatements]: not immediately preceded by a backslash. *)
Fixpoint countUnescaped (prev : option N) (s : jsstring) : nat :=
  match s with
  | [] => O
  | c :: s' =>
      let unescaped := (c =? dq) && negb (bool_decide (prev = Some bsl)) in
      ((if unescaped then 1 else 0) + countUnescaped (Some c) s')%nat
  end.

Definition unescapedQuotes (s : jsstring) : nat := countUnescaped None s.

(** A quote is left open: the number of unescaped double quotes is odd. *)
Definition unterminatedQuote (s : jsstring) : bool :=
  Nat.odd (unescapedQuotes s).

Definition noSemi (c : N) : Prop := c <> semi.

(** The first line of a text. *)
Definition firstLine (s : jsstring) : jsstring := hd [] (splitOn nl s).

(** The first header statement of a flow graph: the first statement that
    [/^graph\s+/i] accepts. *)
Definition firstHeaderStatement (code : jsstring) : option jsstring :=
  List.find (regex_test reGraphHeader) (splitStatements code).

(** The direction word [/^graph\s+([A-Za-z]+)/i] captures in a statement. *)
Definition capturedDirection (statement : jsstring) : option jsstring :=
  match exec reGraphDirection statement 0 with
  | Some m => Some (groupText statement m 1)
  | None => None
  end.

(** The scanner of [splitStatements] has a statement to give: one is
    pushed already or the accumulator is not blank. *)
Definition splitAlive (st : SplitState) : Prop :=
  statements st <> [] \/ truthy (trim (current st)) = true.

(** The first character of a line that is not blank: position and
    character. *)
Definition firstNonBlank (line : jsstring) (x : nat) (c : N) : Prop :=
  Forall (fun d => isWhiteSpace d = true) (take x line)
  /\ line !! x = Some c /\ isWhiteSpace c = false.

Section WithCase.
Context `{UnicodeCase}.

(** The captured direction word is [LR] up to case. *)
Definition statementIsLR (statement : jsstring) : bool :=
  match capturedDirection statement with
  | Some direction => eqs (toUpperCase direction) (lit "LR")
  | None => false
  end.

Definition directionIsLR (code : jsstring) : bool :=
  match firstHeaderStatement code with
  | Some statement => statementIsLR statement
  | None => false
  end.

Definition headerOf (statement : jsstring) : jsstring :=
  lit "graph " ++ (if statementIsLR statement then lit "LR" else lit "TD").

(** What makes a line count for the classifier. *)
Definition countsAs (test : jsstring -> bool) (line : jsstring) : Prop :=
  (nl ∉ line) /\ truthy (trim line) = true
  /\ startsWith (toLowerCase (trim line)) (lit "graph ") = false
  /\ test (trim line) = true.

(** The existing description that matches a diagram label up to case and
    outer blanks: the last one, as the map keeps the last value set for a
    key. *)
Definition lastMatching (existing : list ScreenDescription)
    (label : jsstring) : option ScreenDescription :=
  last (filter (fun screen => screenKey (screenName screen) = screenKey label)
          existing).

(** The invariant of the extraction loop: [seen] holds the keys of [names]
    and no key occurs twice. *)
Definition extractInv (st : list jsstring * gset jsstring) : Prop :=
  NoDup (screenKey <$> st.1) /\ forall k, k ∈ st.2 <-> k ∈ screenKey <$> st.1.
End WithCase.

(** The example of the screen-description synchronization: a diagram with
    the labels Login and Home, and one existing description, Home. *)
Definition exampleHome : ScreenDescription :=
  {| screenName := lit "Home"; description := lit "Landing page";
     uiElements := [lit "Menu"]; events := [lit "Open menu"];
     validations := [] |}.

Definition exampleResult : AnalysisResult :=
  {| overview := []; components := []; technologies := [];
     businessFlowDiagram := []; sequenceDiagram := [];
     screenTransitionDiagram :=
       lit "graph TD" ++ [nl] ++ lit "  A[" ++ [dq] ++ lit "Login" ++ [dq]
       ++ lit "] --> B[" ++ [dq] ++ lit "Home" ++ [dq] ++ lit "]";
     databaseERD := []; screenDescriptions := [exampleHome];
     codeQualityAnalysis :=
       {| readability := []; extensibility := []; security := [] |} |}.

(** The patterns of the sanitiser and of the classifier. *)
Definition patterns : list RegExp :=
  [reBackslash; reQuote; reLeadingUnderscores; reTrailingUnderscores;
   reIcon; reSpaces; reGraphHeader; reGraphDirection; reSemicolon;
   reDanglingArrow; nodeRegex 91 93; nodeRegex 40 41; nodeRegex 123 125;
   reEdgeLabel; reFence; reClassShorthand; reClassDef; reBraceGap;
   reClassSemicolon; reRelationship; reCardinality; reAnyQuote; reMessage;
   reActivate; reDeactivate; reGraphLine; reNode; reEdge; reLogicKeywords;
   reDataKeywords; reScreenNode].

(** The capture groups whose text the sanitiser uses as a string: the
    pattern and the number of the group. *)
Definition capturesRead : list (RegExp * nat) :=
  [(reGraphDirection, 1%nat);
   (nodeRegex 91 93, 1%nat); (nodeRegex 91 93, 2%nat);
   (nodeRegex 40 41, 1%nat); (nodeRegex 40 41, 2%nat);
   (nodeRegex 123 125, 1%nat); (nodeRegex 123 125, 2%nat);
   (reEdgeLabel, 1%nat); (reEdgeLabel, 2%nat);
   (reClassSemicolon, 1%nat);
   (reRelationship, 1%nat); (reRelationship, 2%nat);
   (reClassShorthand, 1%nat); (reClassShorthand, 2%nat);
   (reMessage, 1%nat); (reMessage, 2%nat);
   (reActivate, 2%nat); (reDeactivate, 2%nat)].

(** A pattern is in order when it is well formed and numbers its groups
    without repetition. *)
Definition inOrder (re : RegExp) : bool :=
  wellFormed (re_body re) && bool_decide (NoDup (groupsOf (re_body re))).

Definition alwaysDefines (re : RegExp) (n : nat) : bool :=
  inOrder re && bool_decide (n ∈ surely (re_body re))
  && (n <=? re_groups re)%nat.

(** *** Notions used by the further properties *)

(** [t] is a piece of [s]: it occurs in it as a run of consecutive
    characters. *)
Definition pieceOf (t s : jsstring) : Prop :=
  exists pre post, s = pre ++ t ++ post.

(** A label as [extractScreenNamesFromDiagram] gives them: not empty, no
    blank at either end, a piece of the diagram. *)
Definition goodLabel (diagram label : jsstring) : Prop :=
  label <> [] /\ trim label = label /\ pieceOf label diagram.

(** The characters [splitStatements] can drop: blanks and semicolons. *)
Definition separatorOrBlank (c : N) : bool := isWhiteSpace c || (c =? semi).

(** The visible characters of a text, in order. *)
Definition visible (s : jsstring) : jsstring :=
  filter (fun c => separatorOrBlank c = false) s.

(** A statement as [splitStatements] gives them: not empty, no blank at
    either end. *)
Definition trimmedStatement (st : jsstring) : Prop := st <> [] /\ trim st = st.

(** A text without line feed and without semicolon. *)
Definition plain (s : jsstring) : Prop := (nl ∉ s) /\ (semi ∉ s).

(** The scanner of [splitStatements] is outside a quote and has met no
    separator it kept. *)
Definition plainState (st : SplitState) : Prop :=
  inQuote st = false /\ plain (current st) /\ Forall plain (statements st).

(** A line that the [deactivate] pattern does not accept. *)
Definition notDeactivate (line : jsstring) : Prop := deactivateName line = None.

Section LifelineOrder.
Context `{UnicodeCase}.

(** The lifelines of a list of lines are in order from the set [active]:
    every [deactivate] line names a participant, by an id that is not
    empty, that an [activate] line before it has activated and no
    [deactivate] line since has put to rest. *)
Fixpoint lifelinesInOrder (active : gset jsstring) (lines : list jsstring)
    : Prop :=
  match lines with
  | [] => True
  | line :: rest =>
      match activateName line with
      | Some name =>
          let id := normalizeParticipantId name in
          lifelinesInOrder (if truthy id then {[id]} ∪ active else active) rest
      | None =>
          match deactivateName line with
          | Some name =>
              let id := normalizeParticipantId name in
              id <> [] /\ id ∈ active
              /\ lifelinesInOrder (active ∖ {[id]}) rest
          | None => lifelinesInOrder active rest
          end
      end
  end.

(** The lines [sanitizeSequence] pushes for the lines [lines], from the
    set [active]. *)
Definition pushedLines (active : gset jsstring) (lines : list jsstring)
    : list jsstring :=
  (fold_left sequenceStep lines (active, [])).2.
End LifelineOrder.

(** The value of the polynomial with the code units of [value] as
    coefficients at 31, the first code unit leading. *)
Definition polynomial31 (value : jsstring) : Z :=
  fold_left (fun acc c => (31 * acc + Z.of_N c)%Z) value 0%Z.

(** The number a string of base-36 digits stands for. *)
Definition valueOfDigit36 (c : N) : N := if c <? 58 then c - 48 else c - 87.
Definition value36 (digits : jsstring) : N :=
  fold_left (fun acc c => 36 * acc + valueOfDigit36 c) digits 0.

(** A digit or a lower-case letter. *)
Definition isDigit36 (c : N) : Prop := 48 <= c <= 57 \/ 97 <= c <= 122.

(** A code fence (three backticks) starts at position [i] of [s]. *)
Definition fenceAt (s : jsstring) (i : nat) : Prop :=
  s !! i = Some 96 /\ s !! S i = Some 96 /\ s !! S (S i) = Some 96.

(** [/[DQ']/]: a double quote or an apostrophe. *)
Definition isQuote (c : N) : bool := (c =? dq) || (c =? sq).

(** A participant id in canonical form: no quote, no capital ASCII letter,
    no blank at either end. *)
Definition canonicalId (id : jsstring) : Prop :=
  Forall (fun c => isQuote c = false /\ ~ (65 <= c <= 90)) id /\ trim id = id.

(** The words of the two keyword patterns of the fallback builders. *)
Definition logicKeywords : list string :=
  ["service"; "controller"; "api"; "logic"; "backend"; "handler"]%string.
Definition dataKeywords : list string :=
  ["repository"; "dao"; "model"; "entity"; "database"; "db"; "storage";
   "persistence"]%string.

Definition lowerCaseWord (k : string) : Prop :=
  Forall (fun c => c < 65 \/ 90 < c) (lit k).

(** The text holds one of the keywords, in any case of its ASCII
    letters. *)
Definition mentions (keywords : list string) (text : jsstring) : Prop :=
  exists k pre tok post,
    k ∈ keywords /\ text = pre ++ tok ++ post /\ lowerUnit <$> tok = lit k.

(** The label of a component: its name, then its description after a
    hyphen when it has one. *)
Definition componentLabel (c : ComponentInfo) : jsstring :=
  name c ++ (if truthy (c_description c)
             then lit " - " ++ c_description c else []).

Section RepairedText.
Context `{UnicodeCase}.
Variable regenerated : Service.GraphDiagramKey -> option jsstring.

(** The text the repair loop of [analyzeProject] settles on for a key: the
    diagram of the response when it is renderable, else the regenerated
    one when there is one and it is renderable, else the fallback. *)
Definition repairedText (key : Service.GraphDiagramKey)
    (parsed : AnalysisResult) : jsstring :=
  if hasRenderableGraphDiagram (Some (Service.diagramOf key parsed))
  then Service.diagramOf key parsed
  else match regenerated key with
       | Some text =>
           if hasRenderableGraphDiagram (Some text) then text
           else Service.buildFallbackDiagram key parsed
       | None => Service.buildFallbackDiagram key parsed
       end.
End RepairedText.

End Reading.

(** ** The words of the specification, where they differ from the code *)

Module Spec.

Definition isOpenBracket (c : N) : bool := (c =? 91) || (c =? 40) || (c =? 123).

(** A node-bracket pattern as the specification words it: an identifier
    immediately followed by one of the three opening brackets. *)
Fixpoint nodeBracketImmediately (line : jsstring) : bool :=
  match line with
  | c :: (b :: _) as rest =>
      (isWordChar c && isOpenBracket b) || nodeBracketImmediately rest
  | _ => false
  end.

(** The very first token of a text: its characters up to the first blank. *)
Definition firstToken (t : jsstring) : jsstring := takeWhile notBlank t.

Definition keywords : list jsstring :=
  lit <$> ["graph"; "erDiagram"; "sequenceDiagram"]%string.

Definition isAsciiLetter (c : N) : bool :=
  ((97 <=? c) && (c <=? 122)) || ((65 <=? c) && (c <=? 90)).

Definition isAlnumOrHyphen (c : N) : bool :=
  isAsciiLetter c || ((48 <=? c) && (c <=? 57)) || (c =? 45).

(** An icon-style token as the specification words it: a two-letter
    namespace prefix, a colon and an alphanumeric or hyphen token, followed
    by a blank. *)
Definition iconTokenThenBlank (t : jsstring) : bool :=
  match t with
  | a :: b :: c :: rest =>
      isAsciiLetter a && isAsciiLetter b && (c =? 58)
      && truthy (takeWhile isAlnumOrHyphen rest)
      && match dropWhile isAlnumOrHyphen rest with
         | w :: _ => isWhiteSpace w
         | [] => false
         end
  | _ => false
  end.

End Spec.

(** ** Proof automation for character comparisons *)

Ltac cmp_by_lia :=
  repeat match goal with
  | |- context [N.eqb ?a ?b] =>
      first [ rewrite (proj2 (N.eqb_eq a b)) by lia
            | rewrite (proj2 (N.eqb_neq a b)) by lia ]
  | |- context [N.leb ?a ?b] =>
      first [ rewrite (proj2 (N.leb_le a b)) by lia
            | rewrite (proj2 (N.leb_gt a b)) by lia ]
  end.

Ltac bool_atoms :=
  repeat match goal with
  | |- context [N.eqb ?a ?b] => destruct (N.eqb a b)
  | |- context [isWhiteSpace ?a] => destruct (isWhiteSpace a)
  | |- context [isWordChar ?a] => destruct (isWordChar a)
  end; done.

Import Reading.

(** ** Strings *)

Section Strings.
  Implicit Types (s t : jsstring) (P : N -> Prop).

Lemma dropWhile_Forall {A} (Q : A -> Prop) p (l : list A) :
    Forall Q l -> Forall Q (dropWhile p l).
  Proof.
    induction 1 as [|x l Hx Hl IH]; simpl; [constructor|].
    destruct (p x); auto.
  Qed.

Lemma trimEnd_Forall P s : Forall P s -> Forall P (trimEnd s).
  Proof.
    induction 1 as [|x l Hx Hl IH]; simpl; [constructor|].
    destruct (trimEnd l); [destruct (isWhiteSpace x)|]; auto.
  Qed.

Lemma trim_Forall P s : Forall P s -> Forall P (trim s).
  Proof. intros Hs. by apply trimEnd_Forall, dropWhile_Forall. Qed.

Lemma slice_Forall P s a b : Forall P s -> Forall P (slice s a b).
  Proof. intros Hs. unfold slice. by apply Forall_take, Forall_drop. Qed.

Lemma dropWhile_nil_or_head {A} p (l : list A) :
    dropWhile p l = [] \/ exists x l', dropWhile p l = x :: l' /\ p x = false.
  Proof.
    induction l as [|x l IH]; simpl; [by left|].
    destruct (p x) eqn:Hx; [done|]. right. by exists x, l.
  Qed.

Lemma trimEnd_nil s : trimEnd s = [] <-> forallb isWhiteSpace s = true.
  Proof.
    induction s as [|x s IH]; simpl; [done|].
    destruct (trimEnd s) as [|y t] eqn:E.
    - destruct (isWhiteSpace x); simpl; [tauto|]. split; discriminate.
    - split; [discriminate|]. intros [_ Hs]%andb_prop.
      by apply IH in Hs.
  Qed.

Lemma trimEnd_cons c s :
    isWhiteSpace c = false -> exists t, trimEnd (c :: s) = c :: t.
  Proof.
    intros Hc. simpl. destruct (trimEnd s); rewrite ?Hc; eauto.
  Qed.

  (** What is left of a string that ends with a character that is not
      blank. *)
Lemma trimEnd_snoc m d : isWhiteSpace d = false -> trimEnd (m ++ [d]) = m ++ [d].
  Proof.
    intros Hd. induction m as [|x m IH]; simpl; [by rewrite Hd|].
    rewrite IH. by destruct m.
  Qed.

Lemma trim_fixed c m d :
    isWhiteSpace c = false -> isWhiteSpace d = false ->
    trim (c :: m ++ [d]) = c :: m ++ [d].
  Proof.
    intros Hc Hd. unfold trim, trimStart. simpl dropWhile. rewrite Hc.
    change (c :: m ++ [d]) with ((c :: m) ++ [d]). by apply trimEnd_snoc.
  Qed.

  (** The first character of a trimmed string is not blank. *)
Lemma trim_head s c t : trim s = c :: t -> isWhiteSpace c = false.
  Proof.
    unfold trim, trimStart. intros Heq.
    destruct (dropWhile_nil_or_head isWhiteSpace s) as [E|(x & l' & E & Hx)];
      rewrite E in Heq; [discriminate|].
    destruct (trimEnd_cons x l' Hx) as [t' Ht]. rewrite Ht in Heq.
    by injection Heq as <- _.
  Qed.

Lemma trimEnd_idem s : trimEnd (trimEnd s) = trimEnd s.
  Proof.
    induction s as [|x s IH]; simpl; [done|].
    destruct (trimEnd s) as [|y t] eqn:E.
    - destruct (isWhiteSpace x) eqn:Hx; simpl; [done|]. by rewrite Hx.
    - simpl in *. rewrite IH. done.
  Qed.

Lemma trimEnd_head s c t : trimEnd s = c :: t -> exists s', s = c :: s'.
  Proof.
    destruct s as [|x s]; simpl; [discriminate|].
    destruct (trimEnd s); [destruct (isWhiteSpace x)|]; intros [= <- _]; eauto.
  Qed.

Lemma trim_idem s : trim (trim s) = trim s.
  Proof.
    unfold trim at 1. destruct (trim s) as [|c t] eqn:E; [done|].
    pose proof (trim_head _ _ _ E) as Hc.
    unfold trimStart. simpl. rewrite Hc. rewrite <- E. unfold trim.
    apply trimEnd_idem.
  Qed.

  (** A string trims to nothing exactly when all its characters are blank. *)
Lemma trim_nil s : trim s = [] <-> forallb isWhiteSpace s = true.
  Proof.
    unfold trim, trimStart. rewrite trimEnd_nil.
    induction s as [|x s IH]; simpl; [done|].
    destruct (isWhiteSpace x) eqn:Hx; simpl; [done|]. by rewrite Hx.
  Qed.

Lemma truthy_true s : truthy s = true <-> s <> [].
  Proof. by destruct s. Qed.

Lemma truthy_false s : truthy s = false <-> s = [].
  Proof. by destruct s. Qed.

Lemma eqs_eq a b : eqs a b = true <-> a = b.
  Proof.
    revert b. induction a as [|x a IH]; intros [|y b]; simpl;
      [done|split; discriminate|split; discriminate|].
    rewrite andb_true_iff, N.eqb_eq, IH. split; [by intros [-> ->]|].
    by intros [= -> ->].
  Qed.

Lemma startsWith_app p s : startsWith (p ++ s) p = true.
  Proof. induction p as [|c p IH]; simpl; [done|]. by rewrite N.eqb_refl, IH. Qed.

Lemma startsWith_spec s p : startsWith s p = true <-> exists t, s = p ++ t.
  Proof.
    revert s. induction p as [|c p IH]; intros s; simpl.
    - split; eauto.
    - destruct s as [|d s]; [split; [done|intros [t [=]]]|].
      rewrite andb_true_iff, N.eqb_eq, IH. split.
      + intros [-> [t ->]]. eauto.
      + intros [t [= -> ->]]. eauto.
  Qed.

  (** *** [split] on a character and [join] *)

Lemma splitOn_not_nil c s : splitOn c s <> [].
  Proof.
    destruct s as [|x s]; simpl; [done|].
    destruct (x =? c); [done|]. by destruct (splitOn c s).
  Qed.

Lemma splitOn_app c a b :
    splitOn c (a ++ c :: b) = splitOn c a ++ splitOn c b.
  Proof.
    induction a as [|x a IH]; simpl.
    - by rewrite N.eqb_refl.
    - destruct (x =? c); [by rewrite IH|].
      rewrite IH. pose proof (splitOn_not_nil c a).
      by destruct (splitOn c a).
  Qed.

  (** A line without the separator is a single piece. *)
Lemma splitOn_single c s : c ∉ s -> splitOn c s = [s].
  Proof.
    induction s as [|x s IH]; simpl; [done|].
    intros Hn. apply not_elem_of_cons in Hn as [Hx Hs].
    destruct (N.eqb_spec x c); [congruence|]. by rewrite IH.
  Qed.

Lemma join_cons sep p q ps :
    join sep (p :: q :: ps) = p ++ sep ++ join sep (q :: ps).
  Proof. done. Qed.

Lemma splitOn_join c (ls : list jsstring) :
    ls <> [] -> splitOn c (join [c] ls) = ls ≫= splitOn c.
  Proof.
    induction ls as [|p ls IH]; [done|]. intros _.
    destruct ls as [|q ls].
    - simpl. by rewrite app_nil_r.
    - rewrite join_cons.
      change ([c] ++ join [c] (q :: ls)) with (c :: join [c] (q :: ls)).
      rewrite splitOn_app, IH by done. done.
  Qed.

Lemma join_Forall P sep ls :
    Forall P sep -> Forall (Forall P) ls -> Forall P (join sep ls).
  Proof.
    intros Hsep. induction 1 as [|p ls Hp Hls IH]; [constructor|].
    destruct ls as [|q ls]; [done|]. rewrite join_cons.
    rewrite !Forall_app. auto.
  Qed.

Lemma join_head sep p ps :
    exists t, join sep (p :: ps) = p ++ t.
  Proof.
    destruct ps; simpl; [exists []; by rewrite app_nil_r|eauto].
  Qed.

Lemma join_snoc sep ps p :
    exists t, join sep (ps ++ [p]) = t ++ p.
  Proof.
    induction ps as [|q ps [t IH]]; [by exists []|].
    destruct ps as [|q' ps].
    - exists (q ++ sep). simpl. by rewrite <- app_assoc.
    - simpl app in *. rewrite join_cons, IH.
      exists (q ++ sep ++ t). by rewrite <- !app_assoc.
  Qed.
End Strings.

(** ** The matcher and what a pattern matches *)

Section MatcherTheory.
  Variable fl : flags.
  Variable s : jsstring.
  Local Abbreviation sound := (sound s).
  Local Abbreviation complete := (complete s).
  Local Abbreviation bounded := (bounded s).

Lemma charAt_bounded p : bounded (charAt s p).
  Proof.
    intros i j _ (c & Hc & _ & ->). apply lookup_lt_Some in Hc. lia.
  Qed.

Lemma chain_bounded L n : bounded L -> bounded (chain L n).
  Proof.
    intros HL. induction n as [|n IH]; intros i j Hi; simpl.
    - intros ->. lia.
    - intros (m & Him & Hmj). apply HL in Him; [|done].
      apply IH in Hmj; lia.
  Qed.

Lemma lang_bounded r : bounded (lang fl s r).
  Proof.
    induction r as [|c| |ng it|r1 IH1 r2 IH2|r1 IH1 r2 IH2|g r1 IH1
                    |r1 IH1 mn mx gr| | |pos r1 IH1]; simpl;
      try apply charAt_bounded.
    - intros i j Hi ->. lia.
    - intros i j Hi (m & H1 & H2). apply IH1 in H1; [|done].
      apply IH2 in H2; lia.
    - intros i j Hi [H1|H2]; [by apply IH1|by apply IH2].
    - done.
    - intros i j Hi (n & _ & Hc). by eapply chain_bounded.
    - intros i j Hi [-> _]. lia.
    - intros i j Hi [-> _]. lia.
    - intros i j Hi Hl. destruct pos; destruct Hl as [-> _]; lia.
  Qed.

Lemma charStep_sound p : sound (charStep s p) (charAt s p).
  Proof.
    intros k [i c] z _. unfold charStep. simpl.
    destruct (s !! i) as [d|] eqn:Hd; [|done].
    destruct (p d) eqn:Hp; [|done]. intros Hk.
    exists (S i, c). split; [|done]. by exists d.
  Qed.

Lemma charStep_complete p : complete (charStep s p) (charAt s p).
  Proof.
    intros k [i c] j _ (d & Hd & Hp & ->) Hk. unfold charStep. simpl in *.
    rewrite Hd, Hp. apply Hk.
  Qed.

  Section Repeat.
    Variables (m : matcher) (gs : list nat) (greedy : bool)
              (L : nat -> nat -> Prop).
    Local Abbreviation iterate := (iterate m gs greedy).

Lemma repeatM_unfold k fuel mn mx x :
      repeatM m gs greedy k (S fuel) mn mx x =
      match mx with
      | Some O => k x
      | _ =>
          let xr := (x.1, clearGroups gs x.2) in
          if negb (mn =? 0)%nat then m (iterate k fuel mn mx x) xr
          else if greedy then
            match m (iterate k fuel mn mx x) xr with
            | Some z => Some z
            | None => k x
            end
          else
            match k x with
            | Some z => Some z
            | None => m (iterate k fuel mn mx x) xr
            end
      end.
    Proof. done. Qed.

Lemma repeatM_sound k :
      sound m L -> bounded L ->
      forall fuel mn mx x z, boundsOk mn mx -> (x.1 <= length s)%nat ->
        repeatM m gs greedy k fuel mn mx x = Some z ->
        exists y n, within mn mx n /\ chain L n x.1 y.1 /\ k y = Some z.
    Proof.
      intros Hm HL. induction fuel as [|fuel IH]; intros mn mx x z Hb Hx; [done|].
      assert (Hzero : k x = Some z -> mn = O ->
                exists y n, within mn mx n /\ chain L n x.1 y.1 /\ k y = Some z).
      { intros Hk ->. exists x, O. repeat split; [lia| |done].
        destruct mx; simpl; [lia|done]. }
      assert (Hstep : mx <> Some O ->
                m (iterate k fuel mn mx x) (x.1, clearGroups gs x.2) = Some z ->
                exists y n, within mn mx n /\ chain L n x.1 y.1 /\ k y = Some z).
      { intros Hmx Hr. apply Hm in Hr as (y1 & H1 & Hd); [|done]. simpl in H1.
        unfold iterate in Hd.
        destruct ((mn =? 0)%nat && (y1.1 =? x.1)%nat); [done|].
        apply IH in Hd as (y & n & [Hn1 Hn2] & Hc & Hk).
        - exists y, (S n). repeat split; [lia| |by exists y1.1|done].
          destruct mx as [[|b]|]; simpl in *; [done|lia|done].
        - destruct mx as [[|b]|]; simpl in *; [done|lia|done].
        - apply HL in H1; [lia|done]. }
      rewrite repeatM_unfold.
      assert (Hgen : (if negb (mn =? 0)%nat
                      then m (iterate k fuel mn mx x) (x.1, clearGroups gs x.2)
                      else if greedy then
                        match m (iterate k fuel mn mx x) (x.1, clearGroups gs x.2) with
                        | Some z => Some z
                        | None => k x
                        end
                      else
                        match k x with
                        | Some z => Some z
                        | None => m (iterate k fuel mn mx x) (x.1, clearGroups gs x.2)
                        end) = Some z -> mx <> Some O ->
                exists y n, within mn mx n /\ chain L n x.1 y.1 /\ k y = Some z).
      { destruct (Nat.eqb_spec mn 0) as [Emn|Emn]; simpl.
        - destruct greedy.
          + destruct (m _ _) eqn:Er.
            * intros [= ->] Hmx. by apply Hstep.
            * intros Hk _. by apply Hzero.
          + destruct (k x) eqn:Ek.
            * intros [= ->] _. by apply Hzero.
            * intros Er Hmx. by apply Hstep.
        - intros Er Hmx. by apply Hstep. }
      destruct mx as [[|b]|].
      - intros Hk. apply Hzero; [done|]. simpl in Hb. lia.
      - intros Hr. by apply Hgen.
      - intros Hr. by apply Hgen.
    Qed.

Lemma within_pred mn mx n :
      mx <> Some O -> within mn mx (S n) -> within (pred mn) (pred <$> mx) n.
    Proof.
      intros Hmx [H1 H2]. split; [lia|].
      destruct mx as [[|b]|]; simpl in *; [done|lia|done].
    Qed.

Lemma boundsOk_pred mn mx :
      mx <> Some O -> boundsOk mn mx -> boundsOk (pred mn) (pred <$> mx).
    Proof. destruct mx as [[|b]|]; simpl; [done|lia|done]. Qed.

Lemma repeatM_complete k :
      complete m L -> bounded L ->
      forall fuel mn mx x n j, boundsOk mn mx ->
        (mn + (length s - x.1) < fuel)%nat -> (x.1 <= length s)%nat ->
        within mn mx n -> chain L n x.1 j ->
        (forall c, is_Some (k (j, c))) ->
        is_Some (repeatM m gs greedy k fuel mn mx x).
    Proof.
      intros Hm HL. induction fuel as [|fuel IH];
        intros mn mx x n j Hb Hfuel Hx Hn Hc Hk; [lia|].
      rewrite repeatM_unfold.
      assert (Hhere : n = O -> is_Some (k x)).
      { intros ->. simpl in Hc. subst j. destruct x. apply Hk. }
      destruct (decide (mx = Some O)) as [->|Hmx].
      { apply Hhere. destruct Hn as [_ Hn]. simpl in Hn. lia. }
      assert (Hiter : forall n' i' c',
                (x.1 <= i' <= length s)%nat ->
                (mn =? 0)%nat && (i' =? x.1)%nat = false ->
                within (pred mn) (pred <$> mx) n' -> chain L n' i' j ->
                is_Some (iterate k fuel mn mx x (i', c'))).
      { intros n' i' c' Hi' Hif Hw Hc'. unfold iterate. simpl. rewrite Hif.
        eapply IH; [by apply boundsOk_pred| |simpl; lia|exact Hw|exact Hc'|exact Hk].
        simpl. apply andb_false_iff in Hif as [Hif|Hif];
          apply Nat.eqb_neq in Hif; lia. }
      assert (Hgo : forall n' i', L x.1 i' -> chain L n' i' j ->
                within mn mx (S n') ->
                (mn =? 0)%nat && (i' =? x.1)%nat = false ->
                is_Some (m (iterate k fuel mn mx x) (x.1, clearGroups gs x.2))).
      { intros n' i' Hi' Hc' Hw Hif. apply (Hm _ _ i'); [done|done|].
        intros c'. apply (Hiter n'); [by apply HL|done|by apply within_pred|done]. }
      assert (Hbody : is_Some
                (if negb (mn =? 0)%nat
                 then m (iterate k fuel mn mx x) (x.1, clearGroups gs x.2)
                 else if greedy then
                   match m (iterate k fuel mn mx x) (x.1, clearGroups gs x.2) with
                   | Some z => Some z
                   | None => k x
                   end
                 else
                   match k x with
                   | Some z => Some z
                   | None => m (iterate k fuel mn mx x) (x.1, clearGroups gs x.2)
                   end)).
      { destruct (Nat.eqb_spec mn 0) as [Emn|Emn]; simpl.
        - assert (Hor : is_Some (k x) \/
                        is_Some (m (iterate k fuel mn mx x)
                                   (x.1, clearGroups gs x.2))).
          { clear Hhere. revert Hn Hc. induction n as [|n IHn]; intros Hn Hc.
            - left. simpl in Hc. subst j. destruct x. apply Hk.
            - destruct Hc as (i' & Hi' & Hc').
              destruct (decide (i' = x.1)) as [->|Hne].
              + apply IHn; [|done]. destruct Hn as [H1 H2]. split; [lia|].
                destruct mx; [lia|done].
              + right. apply (Hgo n i'); [done|done|done|].
                simpl. by apply Nat.eqb_neq. }
          destruct greedy.
          + destruct (m _ _); [by eexists|]. by destruct Hor as [?|[? [=]]].
          + destruct (k x); [by eexists|]. by destruct Hor as [[? [=]]|?].
        - destruct n as [|n]; [destruct Hn; lia|].
          destruct Hc as (i' & Hi' & Hc'). by apply (Hgo n i'). }
      by destruct mx as [[|b]|].
    Qed.
  End Repeat.

Lemma rmatch_correct r :
    wellFormed r = true ->
    sound (rmatch fl s r) (lang fl s r) /\ complete (rmatch fl s r) (lang fl s r).
  Proof.
    induction r as [|c| |ng it|r1 IH1 r2 IH2|r1 IH1 r2 IH2|g r1 IH1
                    |r1 IH1 mn mx gr| | |pos r1 IH1];
      intros Hwf; simpl in Hwf; cbn [lang rmatch].
    - split; [intros k x z _ Hk; by exists x|].
      intros k [i c] j _ Hj Hk. simpl in Hj. subst j. apply Hk.
    - split; [apply charStep_sound|apply charStep_complete].
    - split; [apply charStep_sound|apply charStep_complete].
    - split; [apply charStep_sound|apply charStep_complete].
    - apply andb_prop in Hwf as [Hw1 Hw2].
      destruct (IH1 Hw1) as [S1 C1], (IH2 Hw2) as [S2 C2]. split.
      + intros k x z Hx Hr. apply S1 in Hr as (y1 & H1 & Hr); [|done].
        apply S2 in Hr as (y2 & H2 & Hr).
        * exists y2. split; [|done]. by exists y1.1.
        * apply (lang_bounded r1) in H1; [lia|done].
      + intros k x j Hx (m & H1 & H2) Hk. apply (C1 _ _ m); [done|done|].
        intros c. apply (C2 _ _ j); [|done|done]. simpl.
        apply (lang_bounded r1) in H1; [lia|done].
    - apply andb_prop in Hwf as [Hw1 Hw2].
      destruct (IH1 Hw1) as [S1 C1], (IH2 Hw2) as [S2 C2]. split.
      + intros k x z Hx. destruct (rmatch fl s r1 k x) eqn:E1.
        * intros [= ->]. apply S1 in E1 as (y & H1 & Hk); [|done].
          exists y. auto.
        * intros E2. apply S2 in E2 as (y & H2 & Hk); [|done]. exists y. auto.
      + intros k x j Hx [H1|H2] Hk.
        * apply (C1 k) in H1; [|done|done]. destruct H1 as [z ->]. by exists z.
        * destruct (rmatch fl s r1 k x); [by eexists|]. by apply (C2 _ _ j).
    - destruct (IH1 Hwf) as [S1 C1]. split.
      + intros k x z Hx Hr. apply S1 in Hr as (y & H1 & Hk); [|done].
        eexists (_, _). split; [|exact Hk]. done.
      + intros k x j Hx H1 Hk. apply (C1 _ _ j); [done|done|].
        intros c. apply Hk.
    - apply andb_prop in Hwf as [Hb Hw1]. destruct (IH1 Hw1) as [S1 C1].
      assert (Hok : boundsOk mn mx).
      { destruct mx; simpl; [by apply Nat.leb_le in Hb|done]. }
      split.
      + intros k x z Hx Hr.
        apply (repeatM_sound _ _ _ _ _ S1 (lang_bounded r1)) in Hr;
          [|done|done].
        destruct Hr as (y & n & Hn & Hc & Hk). exists y. split; [|done].
        by exists n.
      + intros k x j Hx (n & Hn & Hc) Hk.
        eapply (repeatM_complete _ _ _ _ _ C1 (lang_bounded r1)); eauto.
    - split.
      + intros k x z _. destruct (atLineStart fl s x.1) eqn:E; [|done].
        intros Hk. by exists x.
      + intros k [i c] j _ [-> E] Hk. simpl in *. rewrite E. apply Hk.
    - split.
      + intros k x z _. destruct (atLineEnd fl s x.1) eqn:E; [|done].
        intros Hk. by exists x.
      + intros k [i c] j _ [-> E] Hk. simpl in *. rewrite E. apply Hk.
    - destruct (IH1 Hwf) as [S1 C1]. split.
      + intros k x z Hx. destruct (rmatch fl s r1 Some x) as [y|] eqn:E.
        * destruct pos; [|done]. intros Hk.
          apply S1 in E as (y' & H1 & _); [|done].
          eexists (_, _). split; [|exact Hk]. simpl. eauto.
        * destruct pos; [done|]. intros Hk. exists x. split; [|done].
          split; [done|]. intros (m & Hm).
          destruct (C1 Some x m Hx Hm) as [y Hy]; [by eexists|congruence].
      + intros k [i c] j Hx Hl Hk. simpl in *.
        destruct pos; destruct Hl as [-> Hl].
        * destruct Hl as (m & Hm).
          destruct (C1 Some (i, c) m Hx Hm) as [y ->]; [by eexists|]. apply Hk.
        * destruct (rmatch fl s r1 Some (i, c)) as [y|] eqn:E; [|apply Hk].
          apply S1 in E as (y' & H1 & _); [|done]. destruct Hl. eauto.
  Qed.
End MatcherTheory.

(** *** [exec] and [test] *)

Section Exec.
  Variable re : RegExp.
  Variable s : jsstring.
  Hypothesis re_wf : wellFormed (re_body re) = true.

  Abbreviation matches := (lang (re_flags re) s (re_body re)).

Lemma matchAt_sound i m :
    (i <= length s)%nat -> matchAt re s i = Some m ->
    m_index m = i /\ matches i (m_end m).
  Proof.
    intros Hi. unfold matchAt.
    destruct (rmatch _ _ _ _ _) as [y|] eqn:E; [|done]. intros [= <-].
    apply (rmatch_correct _ _ _ re_wf) in E as (y' & H1 & [= ->]); done.
  Qed.

Lemma matchAt_complete i j :
    (i <= length s)%nat -> matches i j -> is_Some (matchAt re s i).
  Proof.
    intros Hi Hl. unfold matchAt.
    destruct (proj2 (rmatch_correct _ _ _ re_wf) Some
                (i, replicate (S (re_groups re)) None) j Hi Hl) as [y ->];
      by eexists.
  Qed.

Lemma matchAt_none i j :
    (i <= length s)%nat -> matchAt re s i = None -> ~ matches i j.
  Proof.
    intros Hi E Hl. destruct (matchAt_complete i j Hi Hl) as [m Hm]. congruence.
  Qed.

  (** [execLoop] returns the leftmost match. *)
Lemma execLoop_sound gap i m :
    (i + gap <= length s)%nat -> execLoop re s gap i = Some m ->
    (i <= m_index m <= i + gap)%nat /\ matches (m_index m) (m_end m)
    /\ forall i', (i <= i' < m_index m)%nat -> forall j, ~ matches i' j.
  Proof.
    revert i. induction gap as [|gap IH]; intros i Hi; simpl.
    - destruct (matchAt re s i) as [m'|] eqn:E; [|done]. intros [= ->].
      apply matchAt_sound in E as [E1 E2]; [|lia]. rewrite E1.
      split; [lia|]. split; [done|]. intros; lia.
    - destruct (matchAt re s i) as [m'|] eqn:E.
      + intros [= ->]. apply matchAt_sound in E as [E1 E2]; [|lia].
        rewrite E1. split; [lia|]. split; [done|]. intros; lia.
      + intros Hr. apply IH in Hr as (H1 & H2 & H3); [|lia].
        split; [lia|]. split; [done|]. intros i' Hi' j.
        destruct (decide (i' = i)) as [->|Hne].
        * apply matchAt_none; [lia|done].
        * apply H3. lia.
  Qed.

Lemma execLoop_none gap i :
    (i + gap <= length s)%nat -> execLoop re s gap i = None ->
    forall i', (i <= i' <= i + gap)%nat -> forall j, ~ matches i' j.
  Proof.
    revert i. induction gap as [|gap IH]; intros i Hi; simpl.
    - destruct (matchAt re s i) as [m'|] eqn:E; [done|]. intros _ i' Hi' j.
      assert (i' = i) as -> by lia. apply matchAt_none; [lia|done].
    - destruct (matchAt re s i) as [m'|] eqn:E; [done|]. intros Hr i' Hi' j.
      destruct (decide (i' = i)) as [->|Hne].
      + apply matchAt_none; [lia|done].
      + apply (IH (S i)); [lia|done|lia].
  Qed.

Lemma exec_sound i m :
    exec re s i = Some m ->
    (i <= m_index m <= length s)%nat /\ matches (m_index m) (m_end m)
    /\ forall i', (i <= i' < m_index m)%nat -> forall j, ~ matches i' j.
  Proof.
    unfold exec. destruct (Nat.leb_spec i (length s)); [|done].
    intros Hr. apply execLoop_sound in Hr; [|lia].
    destruct Hr as (H1 & H2 & H3). split; [lia|done].
  Qed.

Lemma exec_none i :
    exec re s i = None ->
    forall i', (i <= i' <= length s)%nat -> forall j, ~ matches i' j.
  Proof.
    unfold exec. destruct (Nat.leb_spec i (length s)); [|intros; lia].
    intros Hr i' Hi'. eapply execLoop_none; [|exact Hr|]; lia.
  Qed.

  (** [re.test(s)] holds exactly when the pattern matches somewhere in
      [s]. *)
Lemma regex_test_spec :
    regex_test re s = true <->
    exists i j, (i <= length s)%nat /\ matches i j.
  Proof.
    unfold regex_test. destruct (exec re s 0) as [m|] eqn:E.
    - apply exec_sound in E as (H1 & H2 & _). split; [|done].
      intros _. exists (m_index m), (m_end m). split; [lia|done].
    - split; [done|]. intros (i & j & Hi & Hl).
      exfalso. eapply exec_none; [exact E| |exact Hl]. lia.
  Qed.

Lemma exec_end_bound i m :
    exec re s i = Some m -> (m_index m <= m_end m <= length s)%nat.
  Proof.
    intros Hr. apply exec_sound in Hr as (H1 & H2 & _).
    apply lang_bounded in H2; lia.
  Qed.
End Exec.

(** ** Captures of a successful match *)

Section Captures.
Variable fl : flags.
Variable s : jsstring.

Lemma surely_groupsOf r n : n ∈ surely r -> n ∈ groupsOf r.
Proof.
  revert n. induction r as [|c| |ng it|r1 IH1 r2 IH2|r1 IH1 r2 IH2|g r1 IH1
                    |r1 IH1 mn mx gr| | |pos r1 IH1]; simpl; intros n Hn;
    try done.
  - apply elem_of_app in Hn as [Hn|Hn]; apply elem_of_app; auto.
  - apply list_elem_of_filter in Hn as [_ Hn]. apply elem_of_app. auto.
  - apply elem_of_cons in Hn as [->|Hn]; [left|right; auto].
  - destruct mn; [inversion Hn|auto].
  - destruct pos; [auto|inversion Hn].
Qed.

Lemma clearGroups_length gs (c : captures) :
  length (clearGroups gs c) = length c.
Proof.
  unfold clearGroups. induction gs as [|g gs IH]; simpl; [done|].
  by rewrite length_insert.
Qed.

Lemma clearGroups_other gs (c : captures) n :
  n ∉ gs -> clearGroups gs c !! n = c !! n.
Proof.
  unfold clearGroups. induction gs as [|g gs IH]; simpl; [done|].
  intros Hn. apply not_elem_of_cons in Hn as [Hne Hn].
  rewrite list_lookup_insert_ne by done. by apply IH.
Qed.

Lemma charStep_captures p : captures_ok (charStep s p) [] [].
Proof.
  intros k [i c] z. unfold charStep. simpl.
  destruct (s !! i); [|done]. destruct (p n); [|done]. intros Hk.
  eexists. split; [exact Hk|]. split; [done|]. split; [done|].
  intros n' Hn'. inversion Hn'.
Qed.

Lemma repeatM_captures (m : matcher) gs sure greedy k :
  captures_ok m gs sure ->
  forall fuel mn mx x z, boundsOk mn mx ->
    repeatM m gs greedy k fuel mn mx x = Some z ->
    exists y, k y = Some z /\ length y.2 = length x.2
      /\ (forall n, n ∉ gs -> y.2 !! n = x.2 !! n)
      /\ ((1 <= mn)%nat \/
          (forall n, n ∈ sure -> (n < length x.2)%nat -> defined n x.2) ->
          forall n, n ∈ sure -> (n < length x.2)%nat -> defined n y.2).
Proof.
  intros Hm. induction fuel as [|fuel IH]; intros mn mx x z Hb; [done|].
  rewrite repeatM_unfold.
  assert (Hhere : mn = O -> k x = Some z ->
            exists y, k y = Some z /\ length y.2 = length x.2
              /\ (forall n, n ∉ gs -> y.2 !! n = x.2 !! n)
              /\ ((1 <= mn)%nat \/
                  (forall n, n ∈ sure -> (n < length x.2)%nat -> defined n x.2) ->
                  forall n, n ∈ sure -> (n < length x.2)%nat -> defined n y.2)).
  { intros -> Hk. exists x. split; [done|]. split; [done|]. split; [done|].
    intros [?|Hq]; [lia|done]. }
  assert (Hiter : mx <> Some O ->
            m (iterate m gs greedy k fuel mn mx x) (x.1, clearGroups gs x.2)
            = Some z ->
            exists y, k y = Some z /\ length y.2 = length x.2
              /\ (forall n, n ∉ gs -> y.2 !! n = x.2 !! n)
              /\ ((1 <= mn)%nat \/
                  (forall n, n ∈ sure -> (n < length x.2)%nat -> defined n x.2) ->
                  forall n, n ∈ sure -> (n < length x.2)%nat -> defined n y.2)).
  { intros Hmx Hr. apply Hm in Hr as (y1 & Hd & Hl1 & Hf1 & Hs1).
    simpl in Hl1, Hf1, Hs1. rewrite clearGroups_length in Hl1, Hs1.
    unfold iterate in Hd.
    destruct ((mn =? 0)%nat && (y1.1 =? x.1)%nat); [done|].
    apply IH in Hd as (y & Hk & Hl & Hf & Hs); [|by apply boundsOk_pred].
    exists y. split; [done|]. split; [congruence|]. split.
    - intros n Hn. rewrite Hf, Hf1 by done. by apply clearGroups_other.
    - intros _ n Hn Hlt. apply Hs; [|done|congruence].
      right. intros n' Hn' Hlt'. apply Hs1; [done|congruence]. }
  destruct (decide (mx = Some O)) as [->|Hmx].
  { intros Hk. apply Hhere; [|done]. simpl in Hb. lia. }
  assert (Hbody : (if negb (mn =? 0)%nat
                   then m (iterate m gs greedy k fuel mn mx x)
                          (x.1, clearGroups gs x.2)
                   else if greedy then
                     match m (iterate m gs greedy k fuel mn mx x)
                             (x.1, clearGroups gs x.2) with
                     | Some z => Some z
                     | None => k x
                     end
                   else
                     match k x with
                     | Some z => Some z
                     | None => m (iterate m gs greedy k fuel mn mx x)
                                 (x.1, clearGroups gs x.2)
                     end) = Some z ->
            exists y, k y = Some z /\ length y.2 = length x.2
              /\ (forall n, n ∉ gs -> y.2 !! n = x.2 !! n)
              /\ ((1 <= mn)%nat \/
                  (forall n, n ∈ sure -> (n < length x.2)%nat -> defined n x.2) ->
                  forall n, n ∈ sure -> (n < length x.2)%nat -> defined n y.2)).
  { destruct (Nat.eqb_spec mn 0) as [Emn|Emn]; simpl.
    - destruct greedy.
      + destruct (m _ _) eqn:Er.
        * intros [= ->]. by apply Hiter.
        * intros Hk. by apply Hhere.
      + destruct (k x) eqn:Ek.
        * intros [= ->]. by apply Hhere.
        * intros Er. by apply Hiter.
    - intros Er. by apply Hiter. }
  by destruct mx as [[|b]|].
Qed.

Lemma rmatch_captures r :
  wellFormed r = true -> NoDup (groupsOf r) ->
  captures_ok (rmatch fl s r) (groupsOf r) (surely r).
Proof.
  induction r as [|c| |ng it|r1 IH1 r2 IH2|r1 IH1 r2 IH2|g r1 IH1
                  |r1 IH1 mn mx gr| | |pos r1 IH1];
    intros Hwf Hnd; simpl in Hwf; cbn [rmatch groupsOf surely] in *.
  - intros k x z Hk. exists x. repeat split; try done. intros n Hn; inversion Hn.
  - apply charStep_captures.
  - apply charStep_captures.
  - apply charStep_captures.
  - apply andb_prop in Hwf as [Hw1 Hw2]. apply NoDup_app in Hnd as (N1 & Hdis & N2).
    intros k x z Hr.
    apply (IH1 Hw1 N1) in Hr as (y1 & Hr & L1 & F1 & S1).
    apply (IH2 Hw2 N2) in Hr as (y2 & Hk & L2 & F2 & S2).
    exists y2. split; [done|]. split; [congruence|]. split.
    + intros n Hn. apply not_elem_of_app in Hn as [Hn1 Hn2].
      by rewrite F2, F1.
    + intros n Hn Hlt. apply elem_of_app in Hn as [Hn|Hn].
      * destruct (S1 n Hn Hlt) as [sp Hsp]. exists sp. rewrite F2; [done|].
        intros Hn2. eapply Hdis; [|exact Hn2]. by apply surely_groupsOf.
      * apply S2; [done|congruence].
  - apply andb_prop in Hwf as [Hw1 Hw2]. apply NoDup_app in Hnd as (N1 & Hdis & N2).
    intros k x z. destruct (rmatch fl s r1 k x) eqn:E1.
    + intros [= ->]. apply (IH1 Hw1 N1) in E1 as (y & Hk & L & F & S).
      exists y. split; [done|]. split; [done|]. split.
      * intros n Hn. apply not_elem_of_app in Hn as [Hn1 Hn2]. by apply F.
      * intros n Hn Hlt. apply list_elem_of_filter in Hn as [_ Hn]. by apply S.
    + intros E2. apply (IH2 Hw2 N2) in E2 as (y & Hk & L & F & S).
      exists y. split; [done|]. split; [done|]. split.
      * intros n Hn. apply not_elem_of_app in Hn as [Hn1 Hn2]. by apply F.
      * intros n Hn Hlt. apply list_elem_of_filter in Hn as [Hn _]. by apply S.
  - apply NoDup_cons in Hnd as [Hg N1]. intros k x z Hr.
    apply (IH1 Hwf N1) in Hr as (y & Hk & L & F & S).
    eexists (_, _). split; [exact Hk|]. simpl.
    split; [by rewrite length_insert|]. split.
    + intros n Hn. apply not_elem_of_cons in Hn as [Hne Hn].
      rewrite list_lookup_insert_ne by done. by apply F.
    + intros n Hn Hlt. apply elem_of_cons in Hn as [->|Hn].
      * eexists. apply list_lookup_insert_eq. congruence.
      * destruct (S n Hn Hlt) as [sp Hsp]. exists sp.
        rewrite list_lookup_insert_ne; [done|]. intros ->.
        by apply Hg, surely_groupsOf.
  - apply andb_prop in Hwf as [Hb Hw1].
    assert (Hok : boundsOk mn mx).
    { destruct mx; simpl; [by apply Nat.leb_le in Hb|done]. }
    intros k x z Hr.
    apply (repeatM_captures _ _ (surely r1) _ _ (IH1 Hw1 Hnd)) in Hr; [|done].
    destruct Hr as (y & Hk & L & F & S). exists y. split; [done|].
    split; [done|]. split; [done|]. intros n Hn Hlt.
    destruct mn as [|mn]; [inversion Hn|]. apply S; [left; lia|done|done].
  - intros k x z. destruct (atLineStart fl s x.1); [|done]. intros Hk.
    exists x. repeat split; try done. intros n Hn; inversion Hn.
  - intros k x z. destruct (atLineEnd fl s x.1); [|done]. intros Hk.
    exists x. repeat split; try done. intros n Hn; inversion Hn.
  - intros k x z. destruct (rmatch fl s r1 Some x) as [y|] eqn:E.
    + destruct pos; [|done]. intros Hk.
      apply (IH1 Hwf Hnd) in E as (y' & [= ->] & L & F & S).
      eexists (_, _). split; [exact Hk|]. done.
    + destruct pos; [done|]. intros Hk. exists x. repeat split; try done.
      intros n Hn; inversion Hn.
Qed.
End Captures.

Section Reads.
Variable re : RegExp.
Variable s : jsstring.
Hypothesis re_wf : wellFormed (re_body re) = true.
Hypothesis re_nodup : NoDup (groupsOf (re_body re)).

Lemma matchAt_defines i m n :
  matchAt re s i = Some m -> n ∈ surely (re_body re) ->
  (n <= re_groups re)%nat -> is_Some (group s m n).
Proof.
  unfold matchAt. destruct (rmatch _ _ _ _ _) as [y|] eqn:E; [|done].
  intros [= <-] Hn Hle.
  apply (rmatch_captures _ _ _ re_wf re_nodup) in E
    as (y' & [= ->] & L & F & S).
  destruct (S n Hn) as [[a b] Hsp].
  { simpl. rewrite length_replicate. lia. }
  unfold group. simpl. rewrite Hsp. by eexists.
Qed.

Lemma execLoop_defines gap i m n :
  execLoop re s gap i = Some m -> n ∈ surely (re_body re) ->
  (n <= re_groups re)%nat -> is_Some (group s m n).
Proof.
  revert i. induction gap as [|gap IH]; intros i; simpl;
    destruct (matchAt re s i) as [m'|] eqn:E; try done.
  - intros [= ->]. by apply (matchAt_defines i).
  - intros [= ->]. by apply (matchAt_defines i).
  - apply IH.
Qed.

(** A group that the pattern surely defines is defined in every match
    [exec] returns... *)
Lemma exec_defines i m n :
  exec re s i = Some m -> n ∈ surely (re_body re) ->
  (n <= re_groups re)%nat -> is_Some (group s m n).
Proof.
  unfold exec. destruct (_ <=? _)%nat; [|done]. apply execLoop_defines.
Qed.

Lemma matchAllLoop_defines fuel last m n :
  m ∈ matchAllLoop re s fuel last -> n ∈ surely (re_body re) ->
  (n <= re_groups re)%nat -> is_Some (group s m n).
Proof.
  revert last. induction fuel as [|fuel IH]; intros last; simpl;
    [by intros ?%not_elem_of_nil|].
  destruct (exec re s last) as [m'|] eqn:E; [|by intros ?%not_elem_of_nil].
  intros Hin. apply elem_of_cons in Hin as [->|Hin];
    [by apply (exec_defines last)|].
  by apply (IH _ Hin).
Qed.

(** ... and in every match handed to the callback of [replace]. *)
Lemma matchAll_defines m n :
  m ∈ matchAll re s -> n ∈ surely (re_body re) ->
  (n <= re_groups re)%nat -> is_Some (group s m n).
Proof. apply matchAllLoop_defines. Qed.
End Reads.

(** ** The fuel is never used up *)

Section Fuel.
Variable fl : flags.
Variable s : jsstring.

Lemma charStep_local p : local s (charStep s p).
Proof.
  intros k k' [i c] Hx Hk. unfold charStep. simpl in *.
  destruct (s !! i) as [d|] eqn:Hd; [|done]. destruct (p d); [|done].
  apply Hk. simpl. apply lookup_lt_Some in Hd. lia.
Qed.

(** With fuel above [min + (length s - position)], more fuel or another
    continuation that agrees from the position on changes nothing. *)
Lemma repeatM_fuel_local (m : matcher) gs greedy :
  local s m ->
  forall fuel fuel' k k' mn mx x,
    (mn + (length s - x.1) < fuel)%nat -> (mn + (length s - x.1) < fuel')%nat ->
    (x.1 <= length s)%nat ->
    (forall y, (x.1 <= y.1 <= length s)%nat -> k y = k' y) ->
    repeatM m gs greedy k fuel mn mx x = repeatM m gs greedy k' fuel' mn mx x.
Proof.
  intros Hm. induction fuel as [|fuel IH];
    intros fuel' k k' mn mx x Hf Hf' Hx Hk; [lia|].
  destruct fuel' as [|fuel']; [lia|]. rewrite !repeatM_unfold.
  assert (Hkx : k x = k' x) by (apply Hk; lia).
  assert (Hd : m (iterate m gs greedy k fuel mn mx x) (x.1, clearGroups gs x.2)
               = m (iterate m gs greedy k' fuel' mn mx x)
                   (x.1, clearGroups gs x.2)).
  { apply Hm; [done|]. simpl. intros y Hy. unfold iterate.
    destruct (Nat.eqb_spec mn 0) as [Emn|Emn];
      destruct (Nat.eqb_spec y.1 x.1) as [Ey|Ey]; simpl; try done.
    all: apply IH; [lia|lia|lia|]; intros y' Hy'; apply Hk; lia. }
  cbv zeta. rewrite Hkx, Hd. done.
Qed.

Lemma rmatch_local r : local s (rmatch fl s r).
Proof.
  induction r as [|c| |ng it|r1 IH1 r2 IH2|r1 IH1 r2 IH2|g r1 IH1
                  |r1 IH1 mn mx gr| | |pos r1 IH1]; cbn [rmatch].
  - intros k k' x Hx Hk. apply Hk. lia.
  - apply charStep_local.
  - apply charStep_local.
  - apply charStep_local.
  - intros k k' x Hx Hk. apply IH1; [done|]. intros y Hy.
    apply IH2; [lia|]. intros y' Hy'. apply Hk. lia.
  - intros k k' x Hx Hk. rewrite (IH1 k k' x Hx Hk), (IH2 k k' x Hx Hk). done.
  - intros k k' x Hx Hk. apply IH1; [done|]. intros y Hy. apply Hk. simpl. lia.
  - intros k k' x Hx Hk. apply repeatM_fuel_local; try done; lia.
  - intros k k' x Hx Hk. rewrite (Hk x) by lia. done.
  - intros k k' x Hx Hk. rewrite (Hk x) by lia. done.
  - intros k k' x Hx Hk. destruct (rmatch fl s r1 Some x); destruct pos;
      try done; apply Hk; simpl; lia.
Qed.

(** The fuel of a quantifier is enough: any greater amount gives the same
    result. *)
Theorem quantifier_fuel_enough r mn mx greedy k x extra :
  (x.1 <= length s)%nat ->
  repeatM (rmatch fl s r) (groupsOf r) greedy k
    (S (mn + (length s - x.1)) + extra) mn mx x
  = rmatch fl s (RQuant r mn mx greedy) k x.
Proof.
  intros Hx. cbn [rmatch].
  apply repeatM_fuel_local; [apply rmatch_local|lia|lia|done|done].
Qed.
End Fuel.

Section LoopFuel.
Variable re : RegExp.
Variable s : jsstring.
Hypothesis re_wf : wellFormed (re_body re) = true.

Lemma exec_progress last m :
  exec re s last = Some m ->
  (last < (if (m_end m =? m_index m)%nat then S (m_end m) else m_end m))%nat.
Proof.
  intros He. pose proof (exec_end_bound re s re_wf last m He) as Hb.
  apply exec_sound in He as (H1 & _); [|done].
  destruct (Nat.eqb_spec (m_end m) (m_index m)); lia.
Qed.

(** The fuel of [matchAll] is enough. *)
Theorem matchAll_fuel_enough fuel fuel' last :
  (length s + 2 <= fuel + last)%nat -> (length s + 2 <= fuel' + last)%nat ->
  matchAllLoop re s fuel last = matchAllLoop re s fuel' last.
Proof.
  revert fuel' last. induction fuel as [|fuel IH]; intros fuel' last Hf Hf'.
  - destruct fuel' as [|fuel']; [done|]. simpl.
    unfold exec. destruct (Nat.leb_spec last (length s)); [lia|done].
  - destruct fuel' as [|fuel'].
    + simpl. unfold exec. destruct (Nat.leb_spec last (length s)); [lia|done].
    + simpl. destruct (exec re s last) as [m|] eqn:E; [|done]. f_equal.
      pose proof (exec_progress _ _ E). apply IH; lia.
Qed.

Lemma matchAt_progress q m :
  (q <= length s)%nat -> matchAt re s q = Some m ->
  (q <= m_end m <= length s)%nat.
Proof.
  intros Hq Hm. apply matchAt_sound in Hm as [_ Hl]; [|done|done].
  by apply lang_bounded in Hl.
Qed.

(** The fuel of [split] is enough. *)
Theorem split_fuel_enough fuel fuel' p q :
  (p <= q)%nat ->
  (2 * (length s - q) + (if decide (p = q) then 0 else 1) <= fuel)%nat ->
  (2 * (length s - q) + (if decide (p = q) then 0 else 1) <= fuel')%nat ->
  splitLoop re s fuel p q = splitLoop re s fuel' p q.
Proof.
  revert fuel' p q. induction fuel as [|fuel IH]; intros fuel' p q Hpq Hf Hf'.
  - destruct fuel' as [|fuel']; [done|]. simpl.
    destruct (Nat.leb_spec (length s) q); [done|]. lia.
  - destruct fuel' as [|fuel'].
    + simpl. destruct (Nat.leb_spec (length s) q); [done|]. lia.
    + simpl. destruct (Nat.leb_spec (length s) q) as [|Hq]; [done|].
      assert (Hnext : splitLoop re s fuel p (S q) = splitLoop re s fuel' p (S q)).
      { apply IH; [lia| |]; destruct (decide (p = q)), (decide (p = S q)); lia. }
      destruct (matchAt re s q) as [m|] eqn:E; [|done].
      apply matchAt_progress in E; [|lia].
      destruct (Nat.eqb_spec (Nat.min (m_end m) (length s)) p); [done|].
      f_equal. apply IH; [lia| |];
        destruct (decide (p = q)), (decide (Nat.min (m_end m) (length s)
                                            = Nat.min (m_end m) (length s)));
        lia.
Qed.
End LoopFuel.

(** ** Replacements *)

Section Replace.
Implicit Types (s t : jsstring) (P : N -> Prop).

Lemma groupText_Forall P s m n : Forall P s -> Forall P (groupText s m n).
Proof.
  intros Hs. unfold groupText, group.
  destruct (m_caps m !! n) as [[[a b]|]|]; simpl; try constructor.
  by apply slice_Forall.
Qed.

Lemma matched_Forall P s m : Forall P s -> Forall P (matched s m).
Proof. apply slice_Forall. Qed.

Lemma substitute_Forall P s f ms from :
  Forall P s -> (forall m, Forall P (f m)) ->
  Forall P (substitute s f ms from).
Proof.
  intros Hs Hf. revert from. induction ms as [|m ms IH]; intros from; simpl.
  - by apply Forall_drop.
  - rewrite !Forall_app. split; [by apply slice_Forall|]. split; [apply Hf|apply IH].
Qed.

(** What [replace] returns is made of characters of the subject and of
    the replacements. *)
Lemma replace_Forall P re s f :
  Forall P s -> (forall m, Forall P (f m)) -> Forall P (replace re s f).
Proof.
  intros Hs Hf. unfold replace. destruct (global (re_flags re)).
  - by apply substitute_Forall.
  - destruct (exec re s 0); [by apply substitute_Forall|done].
Qed.

Lemma splitLoop_Forall P re s fuel p q :
  Forall P s -> Forall (Forall P) (splitLoop re s fuel p q).
Proof.
  intros Hs. revert p q. induction fuel as [|fuel IH]; intros p q; simpl.
  - repeat constructor. by apply Forall_drop.
  - destruct (length s <=? q)%nat; [repeat constructor; by apply Forall_drop|].
    destruct (matchAt re s q) as [m|]; [|apply IH].
    destruct (_ =? p)%nat; [apply IH|]. constructor; [by apply slice_Forall|apply IH].
Qed.

Lemma split_Forall P re s : Forall P s -> Forall (Forall P) (split re s).
Proof.
  intros Hs. unfold split. destruct s as [|c s'].
  - destruct (matchAt re [] 0); repeat constructor.
  - by apply splitLoop_Forall.
Qed.

(** *** Replacing every occurrence of one character *)

Local Abbreviation charRe c := (Diagram.mk flagG 0 (RChar c)).

Lemma charRe_lang c s i j :
  lang flagG s (RChar c) i j <-> s !! i = Some c /\ j = S i.
Proof.
  simpl. unfold charAt, setMatch, setMem. simpl. split.
  - intros (d & Hd & Hp & ->). rewrite !orb_false_r in Hp.
    apply N.eqb_eq in Hp as ->. done.
  - intros [Hc ->]. exists c. by rewrite N.eqb_refl.
Qed.

Lemma bind_fixed {A} (g : A -> list A) (l : list A) :
  Forall (fun x => g x = [x]) l -> l ≫= g = l.
Proof.
  induction 1 as [|x l Hx Hl IH]; [done|].
  rewrite bind_cons, Hx, IH. done.
Qed.

Lemma drop_split_at s i j c :
  (i <= j)%nat -> s !! j = Some c ->
  drop i s = slice s i j ++ c :: drop (S j) s.
Proof.
  intros Hij Hc. unfold slice.
  rewrite <- (take_drop (j - i) (drop i s)) at 1. f_equal.
  rewrite drop_drop. replace (i + (j - i))%nat with j by lia.
  by apply drop_S.
Qed.

Lemma slice_Forall_lookup (Q : N -> Prop) s i j :
  (forall i' x, (i <= i' < j)%nat -> s !! i' = Some x -> Q x) ->
  Forall Q (slice s i j).
Proof.
  intros H. unfold slice. apply Forall_lookup. intros n x Hn.
  apply lookup_take_Some in Hn as [Hn Hlt]. rewrite lookup_drop in Hn.
  eapply H; [|exact Hn]. lia.
Qed.

Lemma replaceChar_loop c t s fuel i :
  (length s + 2 <= fuel + i)%nat -> (i <= length s)%nat ->
  substitute s (fun _ => t) (matchAllLoop (charRe c) s fuel i) i
  = drop i s ≫= (fun x => if x =? c then t else [x]).
Proof.
  revert i. induction fuel as [|fuel IH]; intros i Hf Hi; [lia|].
  simpl. destruct (exec (charRe c) s i) as [m|] eqn:E.
  - apply exec_sound in E as (H1 & H2 & H3); [|done].
    apply charRe_lang in H2 as [Hc He]. rewrite He.
    destruct (Nat.eqb_spec (S (m_index m)) (m_index m)) as [?|_]; [lia|].
    simpl. apply lookup_lt_Some in Hc as Hlt.
    rewrite He, IH by lia.
    rewrite (drop_split_at s i (m_index m) c) by (done || lia).
    rewrite bind_app, bind_cons, N.eqb_refl. f_equal.
    symmetry. apply bind_fixed, slice_Forall_lookup.
    intros i' x Hi' Hx. destruct (N.eqb_spec x c) as [->|]; [|done].
    exfalso. apply (H3 i' ltac:(lia) (S i')). by apply charRe_lang.
  - simpl. symmetry. apply bind_fixed, Forall_lookup. intros n x Hn.
    rewrite lookup_drop in Hn. destruct (N.eqb_spec x c) as [->|]; [|done].
    exfalso. apply lookup_lt_Some in Hn as Hlt.
    eapply (exec_none (charRe c) s eq_refl _ E (i + n)%nat); [lia|].
    apply charRe_lang. split; [exact Hn|done].
Qed.

(** [s.replace(/c/g, t)] rewrites the characters of [s] one by one. *)
Lemma replaceChar_spec c t s :
  replace (charRe c) s (fun _ => t)
  = s ≫= (fun x => if x =? c then t else [x]).
Proof.
  unfold replace. simpl. unfold matchAll.
  rewrite replaceChar_loop by lia. by rewrite drop_0.
Qed.
End Replace.

(** ** Reading the patterns of the source *)

Section CharClasses.
Implicit Types c d : N.

Lemma upperUnit_cases d :
  (97 <= d <= 122 /\ upperUnit d = d - 32) \/
  ((d < 97 \/ 122 < d) /\ upperUnit d = d).
Proof.
  unfold upperUnit.
  destruct (N.leb_spec 97 d), (N.leb_spec d 122); simpl; [left|right..]; lia.
Qed.

Lemma lowerUnit_cases d :
  (65 <= d <= 90 /\ lowerUnit d = d + 32) \/
  ((d < 65 \/ 90 < d) /\ lowerUnit d = d).
Proof.
  unfold lowerUnit.
  destruct (N.leb_spec 65 d), (N.leb_spec d 90); simpl; [left|right..]; lia.
Qed.

Lemma isWhiteSpace_letter d : 33 <= d <= 159 -> isWhiteSpace d = false.
Proof.
  intros Hd. unfold isWhiteSpace, isLineTerminator. by cmp_by_lia.
Qed.

Lemma isWordChar_lower d : 97 <= d <= 122 -> isWordChar d = true.
Proof. intros Hd. unfold isWordChar. by cmp_by_lia. Qed.

Lemma isWordChar_upper d : 65 <= d <= 90 -> isWordChar d = true.
Proof. intros Hd. unfold isWordChar. by cmp_by_lia. Qed.

Lemma setMatch_exact d c :
  setMatch noFlags false [CChar c] d = (d =? c).
Proof. unfold setMatch, setMem. simpl. by rewrite !orb_false_r. Qed.

Lemma setMatch_word d : setMatch noFlags false [CWord] d = isWordChar d.
Proof. unfold setMatch, setMem. simpl. by rewrite !orb_false_r. Qed.

Lemma setMatch_space fl d : setMatch fl false [CSpace] d = isWhiteSpace d.
Proof.
  unfold setMatch, setMem. simpl. rewrite !orb_false_r.
  destruct (ignoreCase fl); simpl; [|by rewrite orb_false_r].
  destruct (upperUnit_cases d) as [[Hu ->]|[Hu ->]],
           (lowerUnit_cases d) as [[Hl ->]|[Hl ->]]; try lia.
  - rewrite !isWhiteSpace_letter by lia. done.
  - rewrite !isWhiteSpace_letter by lia. done.
  - bool_atoms.
Qed.

(** Under [i] a lower-case letter of a pattern accepts itself and its
    capital. *)
Lemma setMatch_letter d c :
  97 <= c <= 122 -> setMatch flagI false [CChar c] d = (lowerUnit d =? c).
Proof.
  intros Hc. unfold setMatch, setMem. simpl. rewrite !orb_false_r.
  destruct (upperUnit_cases d) as [[Hu ->]|[Hu ->]],
           (lowerUnit_cases d) as [[Hl ->]|[Hl ->]]; try lia.
  - rewrite (proj2 (N.eqb_neq (d - 32) c)) by lia. bool_atoms.
  - rewrite (proj2 (N.eqb_neq d c)) by lia. bool_atoms.
  - bool_atoms.
Qed.

Lemma setMatch_other d c :
  c < 65 \/ 90 < c < 97 \/ 122 < c ->
  setMatch flagI false [CChar c] d = (d =? c).
Proof.
  intros Hc. unfold setMatch, setMem. simpl. rewrite !orb_false_r.
  destruct (upperUnit_cases d) as [[Hu ->]|[Hu ->]],
           (lowerUnit_cases d) as [[Hl ->]|[Hl ->]]; try lia.
  - rewrite (proj2 (N.eqb_neq (d - 32) c)) by lia. bool_atoms.
  - rewrite (proj2 (N.eqb_neq (d + 32) c)) by lia. bool_atoms.
  - bool_atoms.
Qed.

Lemma setMatch_iconChar d :
  setMatch flagI false [CWord; CChar 45] d = isWordChar d || (d =? 45).
Proof.
  unfold setMatch, setMem. simpl. rewrite !orb_false_r.
  destruct (upperUnit_cases d) as [[Hu ->]|[Hu ->]],
           (lowerUnit_cases d) as [[Hl ->]|[Hl ->]]; try lia.
  - rewrite (isWordChar_lower d), (isWordChar_upper (d - 32)) by lia. done.
  - rewrite (isWordChar_upper d), (isWordChar_lower (d + 32)) by lia. done.
  - bool_atoms.
Qed.
End CharClasses.

Section Reading.
Variable fl : flags.
Variable s : jsstring.

Lemma slice_nil i : slice s i i = [].
Proof. unfold slice. by rewrite Nat.sub_diag. Qed.

Lemma slice_cons i j c :
  s !! i = Some c -> (i < j)%nat -> slice s i j = c :: slice s (S i) j.
Proof.
  intros Hc Hij. unfold slice. rewrite (drop_S _ _ _ Hc).
  replace (j - i)%nat with (S (j - S i)) by lia. done.
Qed.

Lemma slice_full_split i j :
  (i <= j)%nat -> s = take i s ++ slice s i j ++ drop j s.
Proof.
  intros Hij. unfold slice.
  rewrite <- (take_drop i s) at 1. f_equal.
  rewrite <- (take_drop (j - i) (drop i s)) at 1. f_equal.
  rewrite drop_drop. f_equal. lia.
Qed.

(** A run of [n] characters of one class. *)
Lemma chain_charAt p n i j :
  (i <= length s)%nat ->
  chain (charAt s p) n i j <->
  j = (i + n)%nat /\ (j <= length s)%nat
  /\ Forall (fun c => p c = true) (slice s i j).
Proof.
  revert i. induction n as [|n IH]; intros i Hi; simpl.
  - split.
    + intros ->. rewrite slice_nil. split; [lia|]. split; [done|constructor].
    + intros (-> & _). lia.
  - split.
    + intros (m & (c & Hc & Hp & ->) & Hch).
      apply lookup_lt_Some in Hc as Hlt.
      apply IH in Hch as (-> & Hle & Hall); [|lia].
      split; [lia|]. split; [done|].
      rewrite (slice_cons i _ c) by (done || lia). by constructor.
    + intros (-> & Hle & Hall).
      destruct (lookup_lt_is_Some_2 s i ltac:(lia)) as [c Hc].
      rewrite (slice_cons i _ c) in Hall by (done || lia).
      apply Forall_cons in Hall as [Hp Hall].
      exists (S i). split; [by exists c|]. apply IH; [lia|].
      split; [lia|]. done.
Qed.

(** A literal. *)
Lemma lang_lit t i j :
  lang fl s (seqs (RChar <$> t)) i j <->
  j = (i + length t)%nat /\ litAt fl t (drop i s) = true.
Proof.
  revert i. induction t as [|c t IH]; intros i.
  - simpl. split; [intros ->; split; [lia|done]|intros [-> _]; lia].
  - rewrite fmap_cons. cbn [seqs foldr lang length litAt]. split.
    + intros (m & (d & Hd & Hp & ->) & Hl). apply IH in Hl as [-> Hl].
      split; [lia|]. rewrite (drop_S _ _ _ Hd). by rewrite Hp.
    + intros [-> Hl]. destruct (drop i s) as [|d s'] eqn:E; [done|].
      apply andb_prop in Hl as [Hp Hl].
      assert (Hd : s !! i = Some d).
      { rewrite <- (Nat.add_0_r i), <- lookup_drop, E. done. }
      exists (S i). split; [by exists d|]. apply IH. split; [lia|].
      rewrite (drop_S _ _ _ Hd) in E. by injection E as ->.
Qed.
End Reading.

Lemma litAt_exact t s : litAt noFlags t s = startsWith s t.
Proof.
  revert s. induction t as [|c t IH]; intros [|d s];
    cbn [litAt startsWith]; try done.
  rewrite setMatch_exact, IH. by rewrite N.eqb_sym.
Qed.

Section ReadingSource.
Implicit Types s t : jsstring.

Lemma setMatch_lowered d c :
  c < 65 \/ 90 < c -> setMatch flagI false [CChar c] d = (lowerUnit d =? c).
Proof.
  intros Hc. destruct (N.le_gt_cases 97 c) as [H1|H1];
    [destruct (N.le_gt_cases c 122) as [H2|H2]|].
  - by apply setMatch_letter.
  - rewrite setMatch_other by lia.
    destruct (lowerUnit_cases d) as [[Hl ->]|[Hl ->]]; [|done].
    rewrite (proj2 (N.eqb_neq d c)), (proj2 (N.eqb_neq (d + 32) c)) by lia. done.
  - rewrite setMatch_other by lia.
    destruct (lowerUnit_cases d) as [[Hl ->]|[Hl ->]]; [|done].
    rewrite (proj2 (N.eqb_neq d c)), (proj2 (N.eqb_neq (d + 32) c)) by lia. done.
Qed.

(** A pattern literal in lower case, read under [i]. *)
Lemma litAt_ignoreCase p s :
  Forall (fun c => c < 65 \/ 90 < c) p ->
  litAt flagI p s = startsWithIgnoreCase s p.
Proof.
  unfold startsWithIgnoreCase. intros Hp. revert s.
  induction Hp as [|c p Hc Hp IH]; intros s; [done|].
  destruct s as [|d s]; cbn [litAt length take fmap list_fmap eqs]; [done|].
  rewrite setMatch_lowered, IH by done. done.
Qed.

Lemma atLineStart_single fl s i :
  multiline fl = false -> atLineStart fl s i = true <-> i = O.
Proof. intros Hm. destruct i; simpl; [done|]. by rewrite Hm. Qed.

Lemma test_at_start (re : RegExp) r s :
  re_body re = RSeq RBol r -> multiline (re_flags re) = false ->
  wellFormed r = true ->
  regex_test re s = true <-> exists j, lang (re_flags re) s r O j.
Proof.
  intros Hb Hm Hwf. rewrite regex_test_spec by (by rewrite Hb). rewrite Hb.
  cbn [lang]. split.
  - intros (i & j & _ & m & [-> Hs] & Hl).
    apply atLineStart_single in Hs as ->; [|done]. eauto.
  - intros (j & Hl). exists O, j. split; [lia|]. exists O. split; [|done].
    split; [done|]. by apply atLineStart_single.
Qed.

(** [/^graph\s/i] *)
Lemma reGraphLine_spec t : regex_test reGraphLine t = graphKeywordThenBlank t.
Proof.
  apply eq_true_iff_eq. rewrite (test_at_start reGraphLine _ t eq_refl eq_refl eq_refl).
  unfold graphKeywordThenBlank. rewrite andb_true_iff.
  rewrite <- litAt_ignoreCase by (repeat constructor; vm_compute; right; done).
  cbn [lang seqs foldr]. split.
  - intros (j & m & Hl & m' & (c & Hc & Hp & ->) & ->).
    apply (lang_lit flagI t (lit "graph")) in Hl as [-> Hl].
    rewrite drop_0 in Hl. split; [done|]. simpl in Hc. rewrite Hc.
    by rewrite setMatch_space in Hp.
  - intros [Hl Hw]. destruct (t !! 5%nat) as [w|] eqn:E; [|done].
    exists 6%nat, 5%nat. split.
    + apply (lang_lit flagI t (lit "graph")). by rewrite drop_0.
    + exists 6%nat. split; [|done]. exists w. by rewrite setMatch_space.
Qed.

(** [/^fa:[\w-]+/i] *)
Lemma reIcon_spec t : regex_test reIcon t = iconStart t.
Proof.
  apply eq_true_iff_eq. rewrite (test_at_start reIcon _ t eq_refl eq_refl eq_refl).
  unfold iconStart. rewrite andb_true_iff.
  rewrite <- litAt_ignoreCase by (repeat constructor; vm_compute; left; done).
  cbn [lang seqs foldr plus]. split.
  - intros (j & m & Hl & m' & (n & [Hn _] & Hch) & ->).
    apply (lang_lit flagI t (lit "fa:")) in Hl as [-> Hl].
    rewrite drop_0 in Hl. split; [done|].
    destruct n as [|n]; [lia|]. destruct Hch as (m & (c & Hc & Hp & ->) & _).
    simpl in Hc. rewrite Hc. by rewrite setMatch_iconChar in Hp.
  - intros [Hl Hw]. destruct (t !! 3%nat) as [c|] eqn:E; [|done].
    exists 4%nat, 3%nat. split.
    + apply (lang_lit flagI t (lit "fa:")). by rewrite drop_0.
    + exists 4%nat. split; [|done]. exists 1%nat. split; [split; [lia|done]|].
      exists 4%nat. split; [|done]. exists c. by rewrite setMatch_iconChar.
Qed.
End ReadingSource.

Section ReadingMore.
Implicit Types s t : jsstring.

Lemma slice_lookup (Q : N -> Prop) s i j (n : nat) :
  Forall Q (slice s i j) -> (i <= n < j)%nat -> (j <= length s)%nat ->
  exists c, s !! n = Some c /\ Q c.
Proof.
  intros Hall Hn Hj. unfold slice in Hall.
  destruct (lookup_lt_is_Some_2 s n ltac:(lia)) as [c Hc]. exists c.
  split; [done|]. eapply (proj1 (Forall_lookup _ _) Hall (n - i)%nat).
  apply lookup_take_Some. split; [|lia]. rewrite lookup_drop.
  by replace (i + (n - i))%nat with n by lia.
Qed.

Lemma split_two s a b c d :
  s !! a = Some c -> s !! b = Some d -> (a < b)%nat ->
  s = take a s ++ [c] ++ slice s (S a) b ++ [d] ++ drop (S b) s.
Proof.
  intros Ha Hb Hab. rewrite <- (take_drop a s) at 1. f_equal.
  rewrite (drop_S _ _ _ Ha). simpl. f_equal.
  rewrite (drop_split_at s (S a) b d) by (done || lia). done.
Qed.

Lemma slice_middle (pre mid post : jsstring) :
  slice (pre ++ mid ++ post) (length pre) (length pre + length mid) = mid.
Proof.
  unfold slice. rewrite drop_app_length.
  replace (length pre + length mid - length pre)%nat with (length mid) by lia.
  by rewrite take_app_length.
Qed.

Lemma lookup_middle (pre : jsstring) c post :
  (pre ++ c :: post) !! length pre = Some c.
Proof. by rewrite list_lookup_middle. Qed.

(** [/\w+\s*(?:\[|\(|\{)/] *)
Lemma reNode_spec line : regex_test reNode line = true <-> hasNodeBracket line.
Proof.
  rewrite regex_test_spec by done. unfold reNode, Gemini.mk, Diagram.mk.
  cbn [re_body re_flags lang seqs foldr plus star word space alts]. split.
  - intros (i & j & Hi & m1 & (n & [Hn _] & Hw) & m2 & (n' & _ & Hs)
            & m3 & Hb & ->).
    apply chain_charAt in Hw as (-> & Hle1 & Hw); [|done].
    apply chain_charAt in Hs as (-> & Hle2 & Hs); [|done].
    destruct (slice_lookup _ _ _ _ (i + n - 1) Hw ltac:(lia) Hle1)
      as (c & Hc & Hcw).
    rewrite setMatch_word in Hcw.
    assert (Hbr : exists b, line !! (i + n + n')%nat = Some b /\ b ∈ [91; 40; 123]).
    { destruct Hb as [(b & Hb & Hp & _)|[(b & Hb & Hp & _)|(b & Hb & Hp & _)]];
        rewrite setMatch_exact in Hp; apply N.eqb_eq in Hp as ->;
        eexists; (split; [exact Hb|]); repeat constructor. }
    destruct Hbr as (b & Hb' & Hbin).
    exists (take (i + n - 1) line), c, (slice line (i + n) (i + n + n')), b,
           (drop (S (i + n + n')) line).
    split; [|split; [done|split; [|done]]].
    + pose proof (split_two line (i + n - 1) (i + n + n') c b Hc Hb'
                    ltac:(lia)) as Hsp.
      replace (S (i + n - 1)) with (i + n)%nat in Hsp by lia. exact Hsp.
    + eapply Forall_impl; [exact Hs|]. intros x Hx. cbv beta in Hx. by rewrite setMatch_space in Hx.
  - intros (pre & c & blanks & b & post & -> & Hc & Hbl & Hb).
    exists (length pre), (S (length pre + 1 + length blanks)).
    split; [rewrite length_app; lia|].
    exists (length pre + 1)%nat. split.
    { exists 1%nat. split; [split; [lia|done]|].
      exists (S (length pre)). split; [|simpl; lia].
      exists c. split; [apply lookup_middle|]. by rewrite setMatch_word. }
    exists (length pre + 1 + length blanks)%nat. split.
    { exists (length blanks). split; [split; [lia|done]|].
      apply chain_charAt.
      - rewrite !length_app. simpl. lia.
      - split; [done|]. split; [rewrite !length_app; simpl; lia|].
        replace (pre ++ [c] ++ blanks ++ [b] ++ post)
          with ((pre ++ [c]) ++ blanks ++ ([b] ++ post))
          by (by rewrite <- !app_assoc).
        replace (length pre + 1)%nat with (length (pre ++ [c]))
          by (rewrite length_app; simpl; lia).
        rewrite slice_middle. eapply Forall_impl; [exact Hbl|].
        intros x Hx. cbv beta. by rewrite setMatch_space. }
    exists (S (length pre + 1 + length blanks)). split; [|done].
    assert (Hlk : (pre ++ [c] ++ blanks ++ [b] ++ post)
                    !! (length pre + 1 + length blanks)%nat = Some b).
    { replace (pre ++ [c] ++ blanks ++ [b] ++ post)
        with ((pre ++ [c] ++ blanks) ++ b :: post)
        by (by rewrite <- !app_assoc).
      replace (length pre + 1 + length blanks)%nat
        with (length (pre ++ [c] ++ blanks))
        by (rewrite !length_app; simpl; lia).
      apply lookup_middle. }
    assert (Hcase : b = 91 \/ b = 40 \/ b = 123).
    { repeat (apply elem_of_cons in Hb as [Hb|Hb]; [tauto|]). inversion Hb. }
    destruct Hcase as [->|[->| ->]]; [left|right; left|right; right];
      (eexists; split; [exact Hlk|]; by rewrite setMatch_exact).
Qed.

Lemma lang_token s (tok : string) i j :
  lang noFlags s (str tok) i j <->
  j = (i + length (lit tok))%nat /\ exists post, drop i s = lit tok ++ post.
Proof.
  unfold str. rewrite lang_lit, litAt_exact, startsWith_spec. done.
Qed.

(** [/-->|---|==>|=>|-\.\->|-\+->/] *)
Lemma reEdge_spec line : regex_test reEdge line = true <-> hasEdgeArrow line.
Proof.
  rewrite regex_test_spec by done. unfold reEdge, Gemini.mk, Diagram.mk.
  cbn [re_body re_flags alts lang]. split.
  - intros (i & j & Hi & Hl). rewrite !lang_token in Hl.
    assert (Htok : exists tok post, drop i line = tok ++ post /\ tok ∈ edgeArrows).
    { unfold edgeArrows.
      destruct Hl as [[_ [p Hp]]|[[_ [p Hp]]|[[_ [p Hp]]|[[_ [p Hp]]
                     |[[_ [p Hp]]|[_ [p Hp]]]]]]];
        eexists _, p; (split; [exact Hp|]); rewrite !fmap_cons;
        repeat first [apply list_elem_of_here | apply list_elem_of_further]. }
    destruct Htok as (tok & post & Hd & Hin).
    exists (take i line), tok, post. split; [|done].
    by rewrite <- Hd, take_drop.
  - intros (pre & tok & post & -> & Hin).
    unfold edgeArrows in Hin. rewrite !fmap_cons in Hin.
    assert (Hd : drop (length pre) (pre ++ tok ++ post) = tok ++ post)
      by apply drop_app_length.
    exists (length pre), (length pre + length tok)%nat.
    split; [rewrite length_app; lia|]. rewrite !lang_token, Hd.
    repeat (apply elem_of_cons in Hin as [->|Hin]; [eauto 10|try right]).
    inversion Hin.
Qed.
End ReadingMore.

Section SplitHead.
Implicit Types s t : jsstring.

Lemma takeWhile_all {A} (p : A -> bool) (l : list A) :
  Forall (fun x => p x = true) l -> takeWhile p l = l.
Proof. induction 1 as [|x l Hx _ IH]; simpl; [done|]. by rewrite Hx, IH. Qed.

Lemma takeWhile_stop {A} (p : A -> bool) (l : list A) q c :
  Forall (fun x => p x = true) (take q l) -> l !! q = Some c -> p c = false ->
  takeWhile p l = take q l.
Proof.
  revert q. induction l as [|x l IH]; intros [|q] Hall Hc Hp; simpl in *;
    try done.
  - injection Hc as ->. by rewrite Hp.
  - apply Forall_cons in Hall as [Hx Hall]. rewrite Hx. f_equal. by apply IH.
Qed.

(** [/\s+/] matches at [q] exactly when the character at [q] is blank, and
    the match ends after [q]. *)
Lemma reSpaces_some s q m :
  (q <= length s)%nat -> matchAt reSpaces s q = Some m ->
  (q < m_end m)%nat /\ exists c, s !! q = Some c /\ isWhiteSpace c = true.
Proof.
  intros Hq Hm. apply matchAt_sound in Hm as [_ Hl]; [|done|done].
  destruct Hl as (n & [Hn _] & Hch). destruct n as [|n]; [lia|].
  destruct Hch as (i & (c & Hc & Hp & ->) & Hch).
  rewrite setMatch_space in Hp. split; [|by exists c].
  apply (chain_bounded s) in Hch; [lia|apply charAt_bounded|].
  apply lookup_lt_Some in Hc. lia.
Qed.

Lemma reSpaces_none s q c :
  matchAt reSpaces s q = None -> s !! q = Some c -> isWhiteSpace c = false.
Proof.
  intros Hm Hc. destruct (isWhiteSpace c) eqn:E; [|done]. exfalso.
  apply lookup_lt_Some in Hc as Hlt.
  eapply (matchAt_none reSpaces s eq_refl q (S q)); [lia|done|].
  exists 1%nat. split; [split; [lia|done]|]. exists (S q). split; [|done].
  exists c. by rewrite setMatch_space.
Qed.

Lemma splitLoop_head s fuel q :
  (length s <= fuel + q)%nat ->
  Forall (fun c => notBlank c = true) (take q s) ->
  hd [] (splitLoop reSpaces s fuel 0 q) = takeWhile notBlank s.
Proof.
  revert q. induction fuel as [|fuel IH]; intros q Hf Hall; simpl.
  - rewrite drop_0. rewrite take_ge in Hall by lia. by rewrite takeWhile_all.
  - destruct (Nat.leb_spec (length s) q) as [Hle|Hlt]; simpl.
    { rewrite drop_0. rewrite take_ge in Hall by lia. by rewrite takeWhile_all. }
    destruct (lookup_lt_is_Some_2 s q Hlt) as [c Hc].
    destruct (matchAt reSpaces s q) as [m|] eqn:E.
    + apply reSpaces_some in E as (He & c' & Hc' & Hw); [|lia].
      assert (c' = c) as -> by congruence.
      destruct (Nat.eqb_spec (Nat.min (m_end m) (length s)) 0) as [?|_]; [lia|].
      simpl. unfold slice. rewrite drop_0, Nat.sub_0_r.
      symmetry. apply (takeWhile_stop _ _ _ c); [done|done|].
      unfold notBlank. by rewrite Hw.
    + apply IH; [lia|]. rewrite (take_S_r _ _ c) by done.
      apply Forall_app. split; [done|]. constructor; [|constructor].
      unfold notBlank. by rewrite (reSpaces_none s q c).
Qed.

(** [s.split(/\s+/)[0]] is the text before the first blank. *)
Lemma split_spaces_head s :
  s <> [] -> hd [] (split reSpaces s) = takeWhile notBlank s.
Proof.
  intros Hs. unfold split. destruct s as [|c s']; [done|].
  apply splitLoop_head; [lia|]. constructor.
Qed.
End SplitHead.

Section LabelLemmas.
Implicit Types (s t : jsstring) (P : N -> Prop).

Lemma escapeLabel_spec text :
  Diagram.escapeLabel text
  = (text ≫= (fun x => if x =? bsl then [bsl; bsl] else [x]))
      ≫= (fun x => if x =? dq then [bsl; dq] else [x]).
Proof. unfold Diagram.escapeLabel, reQuote, reBackslash. by rewrite !replaceChar_spec. Qed.

Lemma countUnescaped_escaped prev s :
  countUnescaped prev (s ≫= (fun x => if x =? dq then [bsl; dq] else [x])) = O.
Proof.
  revert prev. induction s as [|x s IH]; intros prev; [done|].
  rewrite bind_cons. destruct (N.eqb_spec x dq) as [->|Hx].
  - simpl. apply IH.
  - simpl. destruct (N.eqb_spec x dq); [done|]. simpl. apply IH.
Qed.

Lemma escapeLabel_no_unescaped text :
  unescapedQuotes (Diagram.escapeLabel text) = O.
Proof. rewrite escapeLabel_spec. apply countUnescaped_escaped. Qed.

Lemma cleanLabel_no_unescaped text : unescapedQuotes (cleanLabel text) = O.
Proof.
  unfold cleanLabel. destruct (negb (truthy (trim text))); [done|].
  apply escapeLabel_no_unescaped.
Qed.

Lemma escapeLabel_Forall P text :
  P bsl -> P dq -> Forall P text -> Forall P (Diagram.escapeLabel text).
Proof.
  intros Hb Hq Ht. unfold Diagram.escapeLabel.
  apply replace_Forall; [apply replace_Forall; [done|]|]; intros _; by repeat constructor.
Qed.

Lemma cleanLabel_Forall P text :
  P bsl -> P dq -> Forall P text -> Forall P (cleanLabel text).
Proof.
  intros Hb Hq Ht. unfold cleanLabel.
  destruct (negb (truthy (trim text))); [constructor|].
  apply escapeLabel_Forall; [done|done|]. apply trim_Forall.
  apply replace_Forall; [|by constructor].
  apply replace_Forall; [|by constructor].
  destruct (_ || _); [apply slice_Forall|]; by apply trim_Forall.
Qed.

Lemma split_hd_Forall P re s : Forall P s -> Forall P (hd [] (split re s)).
Proof.
  intros Hs. pose proof (split_Forall P re s Hs) as H.
  destruct (split re s); [constructor|]. by inversion H.
Qed.

Lemma formatNodeContent_Forall P raw :
  P bsl -> P dq -> P 32 -> Forall P raw -> Forall P (formatNodeContent raw).
Proof.
  intros Hb Hq Hsp Hr. unfold formatNodeContent.
  pose proof (trim_Forall P raw Hr) as Ht.
  destruct (negb (truthy (trim raw))); [by repeat constructor|].
  destruct (regex_test reIcon (trim raw)).
  - pose proof (split_hd_Forall P reSpaces _ Ht) as Hi.
    destruct (negb (truthy _)); [done|].
    rewrite !Forall_app. repeat split; try done; try by repeat constructor.
    apply cleanLabel_Forall; [done|done|]. by apply trim_Forall, Forall_drop.
  - rewrite !Forall_app. repeat split; try by repeat constructor.
    by apply cleanLabel_Forall.
Qed.
End LabelLemmas.

Section NoSemicolon.
Context `{UnicodeCase}.

Lemma normalizeLine_noSemi line : Forall noSemi (normalizeLine line).
Proof.
  unfold normalizeLine.
  assert (H0 : Forall noSemi (trim (replace reSemicolon line (fun _ => [])))).
  { apply trim_Forall. unfold reSemicolon. rewrite replaceChar_spec.
    apply Forall_bind, Forall_forall. intros x _. unfold compose.
    destruct (N.eqb_spec x semi) as [|Hx]; [constructor|].
    constructor; [exact Hx|constructor]. }
  destruct (negb (truthy _)); [constructor|].
  set (l0 := replace reDanglingArrow _ _).
  assert (H1 : Forall noSemi l0)
    by (unfold l0; apply replace_Forall; [done|intros; constructor]).
  clearbody l0. clear H0.
  assert (H2 : Forall noSemi (fold_left rewriteNodes NODE_BRACKETS l0)).
  { assert (Hb : Forall (fun b => noSemi b.1 /\ noSemi b.2) NODE_BRACKETS)
      by (repeat constructor; done).
    revert l0 H1. induction Hb as [|b bs [Hb1 Hb2] _ IH]; intros l0 H1; [done|].
    simpl. apply IH. unfold rewriteNodes. apply replace_Forall; [done|].
    intros m. rewrite !Forall_app. repeat split; try by repeat constructor.
    - by apply groupText_Forall.
    - apply formatNodeContent_Forall; try done. by apply groupText_Forall. }
  apply replace_Forall; [done|]. intros m.
  rewrite !Forall_app. repeat split; try by repeat constructor.
  - by apply groupText_Forall.
  - apply cleanLabel_Forall; try done. by apply groupText_Forall.
Qed.

Lemma headerStep_header st statement :
  header (headerStep st statement) = header st
  \/ header (headerStep st statement) = lit "graph LR"
  \/ header (headerStep st statement) = lit "graph TD".
Proof.
  unfold headerStep. destruct (_ && _); simpl; [|by left].
  right. destruct (eqs _ _); [by left|by right].
Qed.

Lemma fold_headerStep_header stmts st :
  header (fold_left headerStep stmts st) = header st
  \/ header (fold_left headerStep stmts st) = lit "graph LR"
  \/ header (fold_left headerStep stmts st) = lit "graph TD".
Proof.
  revert st. induction stmts as [|x stmts IH]; intros st; simpl; [by left|].
  destruct (IH (headerStep st x)) as [->|Hr]; [|by right].
  apply headerStep_header.
Qed.

Lemma normalizeGraphDiagram_noSemi code :
  Forall noSemi (normalizeGraphDiagram code).
Proof.
  unfold normalizeGraphDiagram. destruct (splitStatements code) as [|x stmts] eqn:E; [constructor|].
  rewrite <- E. apply join_Forall; [by repeat constructor|].
  constructor.
  - destruct (fold_headerStep_header (splitStatements code)
                {| header := lit "graph TD"; body := []; headerFound := false |})
      as [->|[->| ->]]; simpl; by apply Forall_forall; vm_compute; intros ? Hx;
      repeat (apply elem_of_cons in Hx as [->|Hx]; [done|]); inversion Hx.
  - apply Forall_forall. intros l Hl. apply list_elem_of_filter in Hl as [_ Hl].
    apply list_elem_of_fmap in Hl as (line & -> & _). apply normalizeLine_noSemi.
Qed.
End NoSemicolon.

(** * The claims *)

(** C10.  For the one-character input made of a double quote (and likewise
    of an apostrophe) [cleanLabel] returns the empty string: the lone
    character is both the opening and the closing quote of the
    quote-stripping branch, whose [slice(1, -1)] leaves nothing; so
    [formatNodeContent] of a single double quote is the empty-quoted
    string. *)
Theorem C10_lone_quote_is_stripped :
  startsWith [dq] [dq] && endsWith [dq] [dq] = true
  /\ slice [dq] 1 (length [dq] - 1) = []
  /\ cleanLabel [dq] = []
  /\ cleanLabel [sq] = []
  /\ formatNodeContent [dq] = [dq; dq].
Proof. repeat split; vm_compute; reflexivity. Qed.

(** C5 as stated fails: the first token of [graphite] is none of the three
    keywords, yet the text is sent to the flow-graph normalizer and comes
    back with a header line in front. *)
Lemma C5_counterexample :
  trim (lit "graphite") <> []
  /\ (Spec.firstToken (trim (lit "graphite")) ∉ Spec.keywords)
  /\ @sanitizeMermaidCode latinOnly (lit "graphite")
     = lit "graph TD" ++ [nl] ++ lit "graphite"
  /\ @sanitizeMermaidCode latinOnly (lit "graphite") <> trim (lit "graphite").
Proof.
  split; [by vm_compute|]. split.
  - vm_compute. intros Hin.
    repeat (apply elem_of_cons in Hin as [Hin|Hin]; [discriminate|]).
    inversion Hin.
  - split; [by vm_compute|]. by vm_compute.
Qed.

Section Dispatcher.
Context `{UnicodeCase}.

(** C5 (amended).  For every input that trims to empty [sanitizeMermaidCode]
    returns the empty string; for every input whose trimmed form is not
    empty and does not start with any of the character sequences [graph],
    [erDiagram], [sequenceDiagram] (a case-sensitive prefix test, whether
    or not the prefix ends a token) it returns the trimmed input
    unchanged. *)
Theorem C5_dispatch_passthrough (code : jsstring) :
  (trim code = [] -> sanitizeMermaidCode code = [])
  /\ (trim code <> [] ->
      startsWith (trim code) (lit "graph") = false ->
      startsWith (trim code) (lit "erDiagram") = false ->
      startsWith (trim code) (lit "sequenceDiagram") = false ->
      sanitizeMermaidCode code = trim code).
Proof.
  unfold sanitizeMermaidCode. split.
  - intros ->. done.
  - intros Hne H1 H2 H3. rewrite H1, H2, H3.
    destruct (trim code); [done|]. done.
Qed.
End Dispatcher.

Lemma C5_dispatch_passthrough_witness :
  @sanitizeMermaidCode latinOnly (lit "   ") = []
  /\ @sanitizeMermaidCode latinOnly (lit "  pie title Pets ")
     = lit "pie title Pets".
Proof.
  split.
  - apply (proj1 (@C5_dispatch_passthrough latinOnly (lit "   "))).
    by vm_compute.
  - rewrite (proj2 (@C5_dispatch_passthrough latinOnly (lit "  pie title Pets ")));
      by vm_compute.
Defined.

(** ** No capture is read undefined *)

Lemma patterns_inOrder : forallb inOrder patterns = true.
Proof. vm_compute. reflexivity. Qed.

Lemma capturesRead_alwaysDefines :
  forallb (fun p => alwaysDefines p.1 p.2) capturesRead = true.
Proof. vm_compute. reflexivity. Qed.

(** Every capture the sanitiser reads is defined by every match of its
    pattern, found by [exec] or by [matchAll]. *)
Lemma capturesRead_defined re n s m :
  (re, n) ∈ capturesRead ->
  (exists i, exec re s i = Some m) \/ m ∈ matchAll re s ->
  is_Some (group s m n).
Proof.
  intros Hin Hm.
  pose proof capturesRead_alwaysDefines as Hall.
  rewrite forallb_forall in Hall.
  apply list_elem_of_In, Hall in Hin. simpl in Hin.
  unfold alwaysDefines, inOrder in Hin.
  apply andb_true_iff in Hin as [Hin Hle].
  apply andb_true_iff in Hin as [Hin Hs].
  apply andb_true_iff in Hin as [Hwf Hnd].
  apply bool_decide_eq_true in Hs. apply bool_decide_eq_true in Hnd.
  apply Nat.leb_le in Hle.
  destruct Hm as [[i Hm]|Hm].
  - by eapply exec_defines.
  - by eapply matchAll_defines.
Qed.

(** [split] on white space gives at least one piece for a string that is
    not empty, so its first piece exists. *)
Lemma split_spaces_nonempty s : s <> [] -> split reSpaces s <> [].
Proof.
  destruct s as [|c s]; [done|]. intros _. unfold split.
  generalize (2 * length (c :: s))%nat. generalize (c :: s). intros t f.
  revert f.
  assert (forall f p q, splitLoop reSpaces t f p q <> []) as H.
  { induction f as [|f IH]; intros p q; simpl; [done|].
    destruct (length t <=? q)%nat; [done|].
    destruct (matchAt reSpaces t q); [|done].
    destruct (_ =? _)%nat; done. }
  intros f. apply H.
Qed.

(** C2 as stated fails: a text of no recognised dialect is returned as it
    is, with the quote it leaves open, and the flow-graph normalizer keeps
    an open quote of a statement too. *)
Lemma C2_counterexample :
  @sanitizeMermaidCode latinOnly (lit "note " ++ [dq] ++ lit "open")
    = lit "note " ++ [dq] ++ lit "open"
  /\ unterminatedQuote
       (@sanitizeMermaidCode latinOnly (lit "note " ++ [dq] ++ lit "open"))
     = true
  /\ unterminatedQuote
       (@sanitizeMermaidCode latinOnly
          (lit "graph TD" ++ [nl] ++ lit "A --> B" ++ [dq]))
     = true.
Proof. repeat split; vm_compute; reflexivity. Qed.

(** C2 (amended).  A run of [sanitizeMermaidCode] cannot fail: every
    capture group whose text the sanitiser uses is defined by every match of
    its pattern, and splitting on white space, of which the first piece is
    used, gives at least one piece for a string that is not empty.  The
    string returned can leave a quote open; what holds for every input is
    that the label text produced by [cleanLabel], which the normalizers wrap
    in double quotes, contains no unescaped double quote. *)
Theorem C2_labels_have_no_unescaped_quote (text : jsstring) :
  unescapedQuotes (cleanLabel text) = O
  /\ unterminatedQuote (cleanLabel text) = false
  /\ (forall re n m, (re, n) ∈ capturesRead ->
        (exists i, exec re text i = Some m) \/ m ∈ matchAll re text ->
        is_Some (group text m n))
  /\ (text <> [] -> split reSpaces text <> []).
Proof.
  unfold unterminatedQuote. rewrite cleanLabel_no_unescaped.
  repeat split.
  - intros re n m. apply capturesRead_defined.
  - apply split_spaces_nonempty.
Qed.

Lemma C2_labels_have_no_unescaped_quote_witness :
  exists m, exec (nodeRegex 91 93) (lit "A[x]") 0 = Some m
    /\ is_Some (group (lit "A[x]") m 2)
    /\ split reSpaces (lit "A[x]") <> [].
Proof.
  destruct (exec (nodeRegex 91 93) (lit "A[x]") 0) as [m|] eqn:E;
    [|vm_compute in E; discriminate E].
  exists m. split; [reflexivity|].
  destruct (C2_labels_have_no_unescaped_quote (lit "A[x]"))
    as (_ & _ & Hread & Hsplit).
  split.
  - apply (Hread (nodeRegex 91 93) 2%nat m).
    + unfold capturesRead. do 2 apply list_elem_of_further.
      apply list_elem_of_here.
    + left. exists O. exact E.
  - apply Hsplit. vm_compute. discriminate.
Defined.

(** C7 as stated fails for two of the three normalizers: the ER and the
    sequence normalizer keep a semicolon of their input. *)
Lemma C7_counterexample :
  semi ∈ @sanitizeSequence latinOnly (lit "A->>B: x;y")
  /\ semi ∈ sanitizeErd (lit "USER ||--o{ POST : has;many").
Proof.
  split; vm_compute;
    repeat first [apply list_elem_of_here | apply list_elem_of_further].
Qed.

(** C7 (amended).  For every input, the output of the flow-graph
    normalizer [normalizeGraphDiagram] contains no semicolon character. *)
Theorem C7_graph_output_has_no_semicolon `{UnicodeCase} (code : jsstring) :
  semi ∉ normalizeGraphDiagram code.
Proof.
  intros Hin.
  apply (proj1 (Forall_forall _ _) (normalizeGraphDiagram_noSemi code)) in Hin.
  by apply Hin.
Qed.

Section Fallbacks.
Context `{UnicodeCase}.

Lemma trim_fixed_ends s c r pre d :
  s = c :: r -> isWhiteSpace c = false ->
  s = pre ++ [d] -> isWhiteSpace d = false -> trim s = s.
Proof.
  intros Hs Hc Hp Hd. unfold trim, trimStart. rewrite Hs at 1. simpl.
  rewrite Hc, <- Hs, Hp. by apply trimEnd_snoc.
Qed.

Lemma counted_line test ls line :
  line ∈ ls -> countsAs test line ->
  existsb test (statementLines (join [nl] (lit "graph TD" :: ls))) = true.
Proof.
  intros Hin (Hnl & Ht & Hg & Htest). apply existsb_exists.
  exists (trim line). split; [|done]. apply list_elem_of_In.
  unfold statementLines. apply list_elem_of_filter.
  split; [by rewrite Ht, Hg|]. apply list_elem_of_fmap_2.
  rewrite splitOn_join by done. apply list_elem_of_bind.
  exists line. split; [|by right]. rewrite splitOn_single by done. by left.
Qed.

(** A diagram made of the header line and of lines among which one counts
    as a node line and one as an edge line, and which ends with a
    character that is not blank, is renderable. *)
Lemma renderable_lines ls node edge pre d :
  node ∈ ls -> edge ∈ ls ->
  countsAs (regex_test reNode) node -> countsAs (regex_test reEdge) edge ->
  join [nl] (lit "graph TD" :: ls) = pre ++ [d] -> isWhiteSpace d = false ->
  hasRenderableGraphDiagram (Some (join [nl] (lit "graph TD" :: ls))) = true.
Proof.
  intros Hn He Hnode Hedge Hlast Hd.
  pose proof (counted_line _ ls node Hn Hnode) as H1.
  pose proof (counted_line _ ls edge He Hedge) as H2.
  destruct ls as [|l0 ls']; [inversion Hn|].
  unfold hasRenderableGraphDiagram.
  set (out := join [nl] (lit "graph TD" :: l0 :: ls')) in *.
  assert (Hout : out = lit "graph TD" ++ [nl] ++ join [nl] (l0 :: ls')) by done.
  assert (Htrim : trim out = out).
  { eapply (trim_fixed_ends out 103); [by rewrite Hout|done|exact Hlast|done]. }
  assert (Htr : truthy out = true) by (by rewrite Hout).
  rewrite Htrim, Htr. cbn [negb].
  rewrite reGraphLine_spec.
  assert (Hhead : graphKeywordThenBlank out = true) by (by rewrite Hout).
  rewrite Hhead. cbn [negb].
  destruct (statementLines out) as [|x xs] eqn:E; [done|].
  cbn [length Nat.eqb]. by rewrite H1, H2.
Qed.

Lemma last_char_of_join ls (line : jsstring) p d :
  line = p ++ [d] -> exists pre, join [nl] (ls ++ [line]) = pre ++ [d].
Proof.
  intros ->. destruct (join_snoc [nl] ls (p ++ [d])) as [t Ht].
  exists (t ++ p). by rewrite Ht, app_assoc.
Qed.

Lemma not_in_closed (c : N) (l : jsstring) :
  forallb (fun x => negb (x =? c)) l = true -> c ∉ l.
Proof.
  intros Hall Hin. apply list_elem_of_In in Hin.
  apply (proj1 (forallb_forall _ _) Hall) in Hin.
  by rewrite N.eqb_refl in Hin.
Qed.

(** The shape of the business-flow diagram. *)
Lemma business_shape (user e1 e2 e3 p : jsstring) (d : N)
    (A B C : list jsstring) :
  countsAs (regex_test reNode) user -> countsAs (regex_test reEdge) e1 ->
  e3 = p ++ [d] -> isWhiteSpace d = false ->
  hasRenderableGraphDiagram
    (Some (join [nl] (([lit "graph TD"; user] ++ A ++ B) ++ (C ++ [e1; e2; e3]))))
  = true.
Proof.
  intros Hu He Hp Hd.
  set (ls := (user :: A ++ B ++ C ++ [e1; e2]) ++ [e3]).
  assert (Hls : ([lit "graph TD"; user] ++ A ++ B) ++ (C ++ [e1; e2; e3])
                = lit "graph TD" :: ls).
  { unfold ls. cbn [app]. rewrite <- !app_assoc. done. }
  rewrite Hls.
  destruct (last_char_of_join (lit "graph TD" :: user :: A ++ B ++ C ++ [e1; e2])
              e3 p d Hp) as [pre Hpre].
  apply (renderable_lines ls user e1 pre d); try done.
  - unfold ls. set_solver.
  - unfold ls. set_solver.
Qed.

Lemma business_renderable result :
  hasRenderableGraphDiagram (Some (buildBusinessFlowFallback result)) = true.
Proof.
  unfold buildBusinessFlowFallback. cbv zeta.
  apply (business_shape _ _ _ _ (lit "  Logic --> Outcom") 101); [| |done|done].
  - split; [by apply not_in_closed; vm_compute|]. repeat split; by vm_compute.
  - split; [by apply not_in_closed; vm_compute|]. repeat split; by vm_compute.
Qed.

(** The shape of the screen-transition diagram. *)
Lemma screen_shape (start endp e1 eN p : jsstring) (d : N)
    (A M : list jsstring) :
  countsAs (regex_test reNode) start -> countsAs (regex_test reEdge) e1 ->
  eN = p ++ [d] -> isWhiteSpace d = false ->
  hasRenderableGraphDiagram
    (Some (join [nl] ([lit "graph TD"; start; endp] ++ A
                      ++ ([e1] ++ M ++ [eN]))))
  = true.
Proof.
  intros Hs He Hp Hd.
  set (ls := (start :: endp :: A ++ e1 :: M) ++ [eN]).
  assert (Hls : [lit "graph TD"; start; endp] ++ A ++ ([e1] ++ M ++ [eN])
                = lit "graph TD" :: ls).
  { unfold ls. cbn [app]. rewrite <- !app_assoc. done. }
  rewrite Hls.
  destruct (last_char_of_join (lit "graph TD" :: start :: endp :: A ++ e1 :: M)
              eN p d Hp) as [pre Hpre].
  apply (renderable_lines ls start e1 pre d); try done.
  - unfold ls. set_solver.
  - unfold ls. set_solver.
Qed.

Lemma screen_renderable screens :
  hasRenderableGraphDiagram (Some (buildScreenTransitionFallback screens)) = true.
Proof.
  unfold buildScreenTransitionFallback. cbv zeta.
  set (list := match screens with [] => _ | _ => _ end).
  assert (Hl : exists x l, list = x :: l).
  { unfold list. destruct screens; eauto. }
  destruct Hl as (x & l & ->). rewrite imap_cons, fmap_cons.
  cbn [fst chainEdges].
  eapply (screen_shape _ _ _ _ _ 116); [| | |done].
  - split; [by apply not_in_closed; vm_compute|]. repeat split; by vm_compute.
  - split; [by apply not_in_closed; vm_compute|]. repeat split; by vm_compute.
  - unfold edgeLine. 
    change (lit "EndPoint") with (lit "EndPoin" ++ [116]).
    rewrite !app_assoc. reflexivity.
Qed.

(** C1.  For every analysis result (whatever its screen descriptions and
    components, none included) and every list of screen descriptions, the
    strings built by [buildBusinessFlowFallback] and
    [buildScreenTransitionFallback] are accepted by the validity
    classifier. *)
Theorem C1_fallbacks_are_renderable (result : AnalysisResult)
    (screens : list ScreenDescription) :
  hasRenderableGraphDiagram (Some (buildBusinessFlowFallback result)) = true
  /\ hasRenderableGraphDiagram (Some (buildScreenTransitionFallback screens))
     = true.
Proof. split; [apply business_renderable|apply screen_renderable]. Qed.
End Fallbacks.

(** C3 as stated fails in two places.  A line in which blanks separate the
    identifier from the bracket counts as a node line: the first diagram
    is accepted although no line of it has an identifier immediately
    followed by a bracket.  And the header line is left among the lines
    looked at unless it starts with [graph] and a space: the second
    diagram is its header line alone (the keyword, a tab, a node and an
    edge) and is accepted. *)
Lemma C3_counterexample :
  @hasRenderableGraphDiagram latinOnly
     (Some (lit "graph TD" ++ [nl] ++ lit "A [x]" ++ [nl] ++ lit "A-->B"))
   = true
  /\ existsb Spec.nodeBracketImmediately
       (splitOn nl (lit "graph TD" ++ [nl] ++ lit "A [x]" ++ [nl] ++ lit "A-->B"))
     = false
  /\ @hasRenderableGraphDiagram latinOnly
       (Some (lit "graph" ++ [9] ++ lit "A[x]-->B")) = true
  /\ length (splitOn nl (lit "graph" ++ [9] ++ lit "A[x]-->B")) = 1%nat.
Proof. repeat split; by vm_compute. Qed.

Section ClassifierSpec.
Context `{UnicodeCase}.

Lemma existsb_elem_of {A} (p : A -> bool) (P : A -> Prop) (l : list A) :
  (forall x, p x = true <-> P x) ->
  existsb p l = true <-> exists x, x ∈ l /\ P x.
Proof.
  intros Hp. rewrite existsb_exists. split.
  - intros (x & Hin & Hx). exists x. split; [by apply list_elem_of_In|by apply Hp].
  - intros (x & Hin & Hx). exists x. split; [by apply list_elem_of_In|by apply Hp].
Qed.

(** The lines the classifier looks at. *)
Lemma statementLines_spec trimmed line :
  line ∈ statementLines trimmed <->
  (exists l, l ∈ splitOn nl trimmed /\ line = trim l)
  /\ line <> []
  /\ startsWith (toLowerCase line) (lit "graph ") = false.
Proof.
  unfold statementLines. rewrite list_elem_of_filter, list_elem_of_fmap.
  rewrite andb_true_iff, negb_true_iff, truthy_true. split.
  - intros [[H1 H2] (l & -> & Hl)]. eauto.
  - intros ((l & Hl & ->) & H1 & H2). eauto.
Qed.

(** C3 (amended).  [hasRenderableGraphDiagram] is false for an absent or an
    empty or blank text; false when the trimmed text does not start,
    in any case, with [graph] followed by a blank character; false when
    no line is left among the trimmed lines that are not empty and do not
    start, in lower case, with [graph] and a space; and it is true exactly
    when, besides, at least one of the lines left contains a word
    character followed, after blanks or none, by one of the three opening
    brackets and at least one of them contains one of the arrows [-->],
    [---], [==>], [=>], [-.->], [-+->]. *)
Theorem C3_classifier (text : jsstring) :
  hasRenderableGraphDiagram None = false
  /\ (hasRenderableGraphDiagram (Some text) = true <->
      trim text <> []
      /\ graphKeywordThenBlank (trim text) = true
      /\ (exists line, line ∈ statementLines (trim text) /\ hasNodeBracket line)
      /\ (exists line, line ∈ statementLines (trim text) /\ hasEdgeArrow line))
  /\ (forall line,
        line ∈ statementLines (trim text) <->
        (exists l, l ∈ splitOn nl (trim text) /\ line = trim l)
        /\ line <> []
        /\ startsWith (toLowerCase line) (lit "graph ") = false).
Proof.
  split; [done|]. split; [|intros line; apply statementLines_spec].
  unfold hasRenderableGraphDiagram.
  destruct text as [|c text]; cbn [truthy negb].
  { split; [done|]. by intros [? _]. }
  set (t := trim (c :: text)).
  destruct t as [|d t'] eqn:E; cbn [truthy negb].
  { split; [done|]. by intros [? _]. }
  rewrite <- E. rewrite reGraphLine_spec.
  destruct (graphKeywordThenBlank t) eqn:Eh; cbn [negb].
  2: { split; [done|]. by intros (_ & ? & _). }
  destruct (statementLines t) as [|l ls] eqn:El; cbn [length Nat.eqb].
  { split; [done|]. intros (_ & _ & (line & Hin & _) & _). inversion Hin. }
  rewrite <- El. rewrite andb_true_iff.
  rewrite (existsb_elem_of _ _ _ reNode_spec),
          (existsb_elem_of _ _ _ reEdge_spec).
  split; [intros [H1 H2]; repeat split; try done; by rewrite E|].
  by intros (_ & _ & H1 & H2).
Qed.
End ClassifierSpec.

Section Header.
Context `{UnicodeCase}.

Lemma forallb_app_blank (a b : jsstring) :
  forallb isWhiteSpace (a ++ b) = forallb isWhiteSpace a && forallb isWhiteSpace b.
Proof. apply forallb_app. Qed.

Lemma trim_app_truthy a b : truthy (trim a) = true -> truthy (trim (a ++ b)) = true.
Proof.
  rewrite !truthy_true, !trim_nil, forallb_app.
  intros Ha Hab. apply andb_prop in Hab as [? _]. done.
Qed.

Lemma pushTrimmed_alive acc cur :
  acc <> [] \/ truthy (trim cur) = true -> pushTrimmed acc cur <> [].
Proof.
  unfold pushTrimmed. intros [Ha|Hc].
  - destruct (truthy (trim cur)); [|done]. by destruct acc.
  - rewrite Hc. by destruct acc.
Qed.

Lemma splitStep_alive st char : splitAlive st -> splitAlive (splitStep st char).
Proof.
  intros Hst. unfold splitStep.
  destruct (_ && _ : bool); [left; by apply pushTrimmed_alive|].
  destruct Hst as [Hs|Hc]; [by left|right]. simpl. by apply trim_app_truthy.
Qed.

Lemma fold_splitStep_alive input st :
  splitAlive st -> splitAlive (fold_left splitStep input st).
Proof.
  revert st. induction input as [|c input IH]; intros st Hst; [done|].
  simpl. by apply IH, splitStep_alive.
Qed.

(** A text that starts with a character that is neither blank, nor a
    separator, nor a quote has at least one statement. *)
Lemma splitStatements_not_nil c rest :
  isWhiteSpace c = false -> c <> semi -> c <> dq ->
  splitStatements (c :: rest) <> [].
Proof.
  intros Hw Hs Hq. unfold splitStatements. apply pushTrimmed_alive.
  cbn [fold_left]. apply fold_splitStep_alive. unfold splitStep. simpl.
  destruct (N.eqb_spec c dq); [done|]. simpl.
  destruct (N.eqb_spec c nl) as [->|_]; [done|].
  destruct (N.eqb_spec c semi); [done|]. simpl.
  right. apply truthy_true. rewrite trim_nil.
  cbn [current app forallb]. by rewrite Hw.
Qed.

Lemma headerStep_found st statement :
  headerFound st = true ->
  header (headerStep st statement) = header st
  /\ headerFound (headerStep st statement) = true.
Proof. intros Hf. unfold headerStep. by rewrite Hf. Qed.

Lemma fold_headerStep_found stmts st :
  headerFound st = true -> header (fold_left headerStep stmts st) = header st.
Proof.
  revert st. induction stmts as [|x stmts IH]; intros st Hf; [done|].
  simpl. destruct (headerStep_found st x Hf) as [H1 H2]. by rewrite IH.
Qed.

Lemma headerStep_match st statement :
  headerFound st = false -> regex_test reGraphHeader statement = true ->
  header (headerStep st statement) = headerOf statement
  /\ headerFound (headerStep st statement) = true.
Proof.
  intros Hf Ht. unfold headerStep, headerOf, statementIsLR, capturedDirection.
  rewrite Hf, Ht. simpl. split; [|done].
  destruct (exec reGraphDirection statement 0); [done|].
  by vm_compute.
Qed.

Lemma headerStep_skip st statement :
  headerFound st = false -> regex_test reGraphHeader statement = false ->
  header (headerStep st statement) = header st
  /\ headerFound (headerStep st statement) = false.
Proof. intros Hf Ht. unfold headerStep. by rewrite Hf, Ht. Qed.

(** The header the loop ends with is decided by the first statement that
    the header pattern accepts. *)
Lemma fold_headerStep_first stmts st :
  headerFound st = false ->
  header (fold_left headerStep stmts st)
  = match List.find (regex_test reGraphHeader) stmts with
    | Some statement => headerOf statement
    | None => header st
    end.
Proof.
  revert st. induction stmts as [|x stmts IH]; intros st Hf; [done|].
  simpl. destruct (regex_test reGraphHeader x) eqn:Ex.
  - destruct (headerStep_match st x Hf Ex) as [H1 H2].
    by rewrite fold_headerStep_found.
  - destruct (headerStep_skip st x Hf Ex) as [H1 H2]. by rewrite IH, H1.
Qed.

Lemma firstLine_join h rest :
  nl ∉ h -> firstLine (join [nl] (h :: rest)) = h.
Proof.
  intros Hh. unfold firstLine. rewrite splitOn_join by done.
  rewrite bind_cons, splitOn_single by done. done.
Qed.

Lemma headerOf_no_newline statement : nl ∉ headerOf statement.
Proof.
  unfold headerOf. destruct (statementIsLR statement);
    vm_compute; intros Hin;
    repeat (apply elem_of_cons in Hin as [Hin|Hin]; [discriminate|]);
    inversion Hin.
Qed.

(** C4.  For every input whose trimmed form begins with the keyword
    [graph], the first line of the output of [sanitizeMermaidCode] is
    [graph LR] when the direction word captured from the first header
    statement is [LR] up to case, and [graph TD] in every other case: no
    header statement, no direction word captured, or another word. *)
Theorem C4_header_line (code : jsstring) :
  startsWith (trim code) (lit "graph") = true ->
  firstLine (sanitizeMermaidCode code)
  = lit "graph " ++ (if directionIsLR (trim code) then lit "LR" else lit "TD").
Proof.
  intros Hg. unfold sanitizeMermaidCode. rewrite Hg.
  apply startsWith_spec in Hg as [rest Hg]. rewrite Hg.
  cbn [lit truthy negb]. change (truthy (lit "graph" ++ rest)) with true.
  cbn [negb]. unfold normalizeGraphDiagram.
  pose proof (splitStatements_not_nil 103 (lit "raph" ++ rest)
                eq_refl ltac:(done) ltac:(done)) as Hne.
  change (103 :: lit "raph" ++ rest) with (lit "graph" ++ rest) in Hne.
  destruct (splitStatements (lit "graph" ++ rest)) as [|x stmts] eqn:E; [done|].
  rewrite <- E. rewrite fold_headerStep_first by done.
  unfold directionIsLR, firstHeaderStatement.
  destruct (List.find _ _) as [statement|].
  - rewrite firstLine_join by apply headerOf_no_newline. done.
  - rewrite firstLine_join; [done|]. vm_compute. intros Hin.
    repeat (apply elem_of_cons in Hin as [Hin|Hin]; [discriminate|]).
    inversion Hin.
Qed.
End Header.

Lemma C4_header_line_witness :
  firstLine (@sanitizeMermaidCode latinOnly
               (lit " graph lr; A-->B" ++ [nl] ++ lit "B-->C"))
  = lit "graph LR"
  /\ firstLine (@sanitizeMermaidCode latinOnly (lit "graphTB; A-->B"))
     = lit "graph TD".
Proof.
  split.
  - rewrite (@C4_header_line latinOnly) by (by vm_compute). by vm_compute.
  - rewrite (@C4_header_line latinOnly) by (by vm_compute). by vm_compute.
Defined.

Section Lifelines.
Implicit Types s line : jsstring.

Lemma firstNonBlank_unique line x c x' c' :
  firstNonBlank line x c -> firstNonBlank line x' c' -> c = c'.
Proof.
  intros (H1 & H2 & H3) (H1' & H2' & H3').
  destruct (Nat.lt_trichotomy x x') as [Hlt|[->|Hlt]].
  - assert (Hin : take x' line !! x = Some c) by (by rewrite lookup_take_lt).
    apply (proj1 (Forall_lookup _ _) H1') in Hin. congruence.
  - congruence.
  - assert (Hin : take x line !! x' = Some c') by (by rewrite lookup_take_lt).
    apply (proj1 (Forall_lookup _ _) H1) in Hin. congruence.
Qed.

(** A line accepted by the pattern of [activate] or of [deactivate] has
    the first letter of that keyword as its first character that is not
    blank. *)
Lemma keyword_line (re : RegExp) (kw : string) k0 ktail line m :
  re_body re = seqs [RBol; RGroup 1 (star space); str kw; plus space;
                     RGroup 2 (plus RAny)] ->
  re_flags re = flagI -> wellFormed (re_body re) = true ->
  lit kw = k0 :: ktail -> 97 <= k0 <= 122 ->
  exec re line 0 = Some m ->
  exists x c, firstNonBlank line x c /\ lowerUnit c = k0.
Proof.
  intros Hb Hf Hwf Hk Hk0 He.
  apply exec_sound in He as (_ & Hl & _); [|done].
  rewrite Hb, Hf in Hl. cbn [seqs foldr lang star] in Hl.
  destruct Hl as (x0 & [-> Hs] & x1 & (n & _ & Hch) & x2 & Hlit & _).
  apply atLineStart_single in Hs; [|done]. rewrite Hs in Hch.
  apply chain_charAt in Hch as (-> & Hle & Hall); [|lia].
  apply (lang_lit flagI line (lit kw)) in Hlit as [_ Hlit].
  rewrite Hk in Hlit. simpl in Hle.
  change (0 + n)%nat with n in *.
  destruct (drop n line) as [|c rest] eqn:E; [done|].
  cbn [litAt] in Hlit. apply andb_prop in Hlit as [Hc _].
  rewrite setMatch_letter in Hc by done. apply N.eqb_eq in Hc.
  assert (Hlk : line !! n = Some c).
  { rewrite <- (Nat.add_0_r n), <- lookup_drop, E. done. }
  exists n, c. split; [|done]. split; [|split; [done|]].
  - unfold slice in Hall. rewrite drop_0, Nat.sub_0_r in Hall.
    eapply Forall_impl; [exact Hall|]. intros d Hd. cbv beta in Hd.
    by rewrite setMatch_space in Hd.
  - apply isWhiteSpace_letter. destruct (lowerUnit_cases c) as [[? E']|[? E']];
      rewrite E' in Hc; lia.
Qed.

(** No line is both an [activate] and a [deactivate] line. *)
Lemma activate_deactivate_exclusive line a d :
  activateName line = Some a -> deactivateName line = Some d -> False.
Proof.
  unfold activateName, deactivateName.
  destruct (exec reActivate line 0) as [m|] eqn:Ea; [|done].
  destruct (exec reDeactivate line 0) as [m'|] eqn:Ed; [|done].
  intros _ _.
  destruct (keyword_line reActivate "activate" 97 (lit "ctivate") line m
              eq_refl eq_refl eq_refl eq_refl ltac:(lia) Ea)
    as (x & c & Hx & Hc).
  destruct (keyword_line reDeactivate "deactivate" 100 (lit "eactivate") line m'
              eq_refl eq_refl eq_refl eq_refl ltac:(lia) Ed)
    as (x' & c' & Hx' & Hc').
  pose proof (firstNonBlank_unique _ _ _ _ _ Hx Hx') as ->. lia.
Qed.
End Lifelines.

Section SequenceClaims.
Context `{UnicodeCase}.

Lemma fold_left_snoc {A B} (f : A -> B -> A) (l : list B) (x : B) (a : A) :
  fold_left f (l ++ [x]) a = f (fold_left f l a) x.
Proof. by rewrite fold_left_app. Qed.

(** C6.  In [sanitizeSequence], a line on which the [deactivate] pattern
    captures [name] is dropped from the output exactly when the normalized
    name (quote characters removed, trimmed, in lower case) is empty or is
    not in the set of activated participants built from the lines before
    it; otherwise the line is kept and the name leaves the set.  So of the
    three lines [activate Bob], [deactivate Alice], [deactivate Bob] the
    second is dropped and the other two are kept, in order. *)
Theorem C6_deactivate_lines (pre : list jsstring) (line name : jsstring) :
  deactivateName (quoteMessage line) = Some name ->
  let st := fold_left sequenceStep pre (∅, []) in
  let participantId := normalizeParticipantId name in
  (participantId = [] \/ participantId ∉ st.1 ->
     fold_left sequenceStep (pre ++ [line]) (∅, []) = st)
  /\ (participantId <> [] /\ participantId ∈ st.1 ->
        fold_left sequenceStep (pre ++ [line]) (∅, [])
        = (st.1 ∖ {[participantId]}, st.2 ++ [quoteMessage line]))
  /\ sanitizeSequence
       (lit "activate Bob" ++ [nl] ++ lit "deactivate Alice" ++ [nl]
        ++ lit "deactivate Bob")
     = lit "activate Bob" ++ [nl] ++ lit "deactivate Bob".
Proof.
  intros Hd st pid. rewrite fold_left_snoc. fold st.
  assert (Ha : activateName (quoteMessage line) = None).
  { destruct (activateName (quoteMessage line)) as [a|] eqn:Ea; [|done].
    destruct (activate_deactivate_exclusive _ _ _ Ea Hd). }
  unfold sequenceStep. rewrite Ha, Hd. fold pid.
  split; [|split; [|by vm_compute]].
  - intros [->|Hn]; [done|]. rewrite (bool_decide_eq_false_2 _ Hn).
    by rewrite orb_true_r.
  - intros [Hne Hin]. rewrite (bool_decide_eq_true_2 _ Hin).
    apply truthy_true in Hne. by rewrite Hne.
Qed.
End SequenceClaims.

Lemma C6_deactivate_lines_witness :
  fold_left (@sequenceStep latinOnly)
    ([lit "activate Bob"] ++ [lit "deactivate Alice"]) (∅, [])
  = fold_left (@sequenceStep latinOnly) [lit "activate Bob"] (∅, [])
  /\ fold_left (@sequenceStep latinOnly)
       ([lit "activate Bob"] ++ [lit "deactivate  BOB "]) (∅, [])
     = (({[lit "bob"]} ∪ ∅) ∖ {[lit "bob"]},
        [lit "activate Bob"; lit "deactivate  BOB "]).
Proof.
  split.
  - apply (proj1 (@C6_deactivate_lines latinOnly [lit "activate Bob"]
                    (lit "deactivate Alice") (lit "Alice") eq_refl)).
    right. by vm_compute.
  - rewrite (proj1 (proj2 (@C6_deactivate_lines latinOnly [lit "activate Bob"]
                    (lit "deactivate  BOB ") (lit "BOB ") eq_refl))).
    + by vm_compute.
    + split; by vm_compute.
Defined.

(** C8 as stated fails: [fb:user] is a token with a two-letter namespace
    prefix and a colon, followed by a blank, yet it is not kept outside
    the quotes: only the prefix [fa:] marks an icon. *)
Lemma C8_counterexample :
  Spec.iconTokenThenBlank (trim (lit "fb:user Login")) = true
  /\ formatNodeContent (lit "fb:user Login")
     = [dq] ++ lit "fb:user Login" ++ [dq]
  /\ formatNodeContent (lit "fb:user Login")
     <> lit "fb:user " ++ [dq] ++ lit "Login" ++ [dq].
Proof. repeat split; by vm_compute. Qed.

(** C8 (amended).  [formatNodeContent] returns the two-character string of
    a pair of double quotes for empty or blank input; when the trimmed
    input starts, in any case, with [fa:] and a word character or hyphen,
    the icon is the text up to the first blank and the result is the icon
    alone when nothing but blanks follows it, and otherwise the icon, a
    space and the cleaned remainder in double quotes; in every other case
    the result is the whole cleaned text in double quotes.  So 'User
    Action' gives the quoted 'User Action', 'fa:user Login' gives fa:user
    and the quoted 'Login', and the empty string gives the pair of
    quotes. *)
Theorem C8_formatNodeContent (raw : jsstring) :
  formatNodeContent raw
  = (let trimmed := trim raw in
     match trimmed with
     | [] => [dq; dq]
     | _ =>
         if iconStart trimmed then
           let icon := takeWhile notBlank trimmed in
           match trim (drop (length icon) trimmed) with
           | [] => icon
           | rest => icon ++ lit " " ++ [dq] ++ cleanLabel rest ++ [dq]
           end
         else [dq] ++ cleanLabel trimmed ++ [dq]
     end)
  /\ formatNodeContent (lit "User Action") = [dq] ++ lit "User Action" ++ [dq]
  /\ formatNodeContent (lit "fa:user Login")
     = lit "fa:user " ++ [dq] ++ lit "Login" ++ [dq]
  /\ formatNodeContent [] = [dq; dq].
Proof.
  split; [|repeat split; by vm_compute].
  unfold formatNodeContent. cbv zeta.
  destruct (trim raw) as [|c t] eqn:E; [done|]. cbn [truthy negb].
  rewrite reIcon_spec. destruct (iconStart (c :: t)); [|done].
  rewrite split_spaces_head by done.
  by destruct (trim (drop _ _)).
Qed.

Section Screens.
Context `{UnicodeCase}.

Lemma screenKey_trim label : screenKey (trim label) = screenKey label.
Proof. unfold screenKey. by rewrite trim_idem. Qed.

Lemma extractStep_inv diagram st m :
  extractInv st -> extractInv (extractStep diagram st m).
Proof.
  intros [Hnd Hseen]. unfold extractStep.
  destruct (orElse _ _) as [label|]; [|done].
  destruct (negb (truthy label)); [done|].
  destruct (negb (truthy (trim label))); [done|]. simpl.
  destruct (bool_decide_reflect (toLowerCase (trim label) ∈ st.2)) as [Hin|Hin];
    [done|].
  assert (Hk : screenKey (trim label) = toLowerCase (trim label)).
  { unfold screenKey. by rewrite trim_idem. }
  split; simpl.
  - rewrite fmap_app. apply NoDup_app. split; [done|]. split.
    + intros k Hk1 Hk2. simpl in Hk2. apply list_elem_of_singleton in Hk2.
      subst k. rewrite Hk in Hk1. by apply Hseen in Hk1.
    + simpl. apply NoDup_singleton.
  - intros k. rewrite fmap_app, elem_of_app, elem_of_union, elem_of_singleton.
    simpl. rewrite list_elem_of_singleton, Hk, Hseen. tauto.
Qed.

Lemma fold_extractStep_inv diagram ms st :
  extractInv st -> extractInv (fold_left (extractStep diagram) ms st).
Proof.
  revert st. induction ms as [|m ms IH]; intros st Hst; [done|].
  simpl. by apply IH, extractStep_inv.
Qed.

(** The labels taken from a diagram are distinct up to case. *)
Lemma extract_NoDup diagram :
  NoDup (screenKey <$> extractScreenNamesFromDiagram diagram).
Proof.
  unfold extractScreenNamesFromDiagram. destruct diagram as [d|]; [|constructor].
  destruct (negb (truthy d)); [constructor|].
  apply fold_extractStep_inv. split; [constructor|]. intros k. simpl.
  split; [by intros ?%not_elem_of_empty|by intros ?%not_elem_of_nil].
Qed.

(** The map built from the descriptions returns, for a key, the last
    description with that key. *)
Lemma existingMap_lookup (existing : list ScreenDescription) (k : jsstring)
    (m0 : gmap jsstring ScreenDescription) :
  fold_left (fun m screen => <[screenKey (screenName screen) := screen]> m)
    existing m0 !! k
  = match last (filter (fun screen => screenKey (screenName screen) = k)
                  existing) with
    | Some screen => Some screen
    | None => m0 !! k
    end.
Proof.
  revert m0. induction existing as [|x l IH]; intros m0; [done|].
  simpl. rewrite IH. rewrite filter_cons.
  destruct (decide (screenKey (screenName x) = k)) as [Hk|Hk].
  - destruct (filter _ l) as [|y ys] eqn:E; simpl.
    + by rewrite <- Hk, lookup_insert_eq.
    + destruct (last (y :: ys)) eqn:El; [done|]. by apply last_None in El.
  - destruct (last (filter _ l)); [done|]. by rewrite lookup_insert_ne.
Qed.

Lemma extras_filter (labels : list jsstring) (existing : list ScreenDescription) :
  filter (fun screen =>
            negb (existsb (fun label =>
                             eqs (screenKey label)
                                 (screenKey (screenName screen))) labels) = true)
         existing
  = filter (fun screen => screenKey (screenName screen) ∉ screenKey <$> labels)
      existing.
Proof.
  apply list_filter_iff. intros screen.
  rewrite negb_true_iff, <- not_true_iff_false, existsb_exists.
  rewrite list_elem_of_fmap. split; intros Hn (label & H1 & H2); apply Hn.
  - exists label. split; [by apply list_elem_of_In|]. by apply eqs_eq.
  - apply eqs_eq in H2. exists label. split; [done|]. by apply list_elem_of_In.
Qed.

Lemma filter_all {A} (P : A -> Prop) `{!forall x, Decision (P x)} (l : list A) :
  Forall P l -> filter P l = l.
Proof.
  induction 1 as [|x l Hx _ IH]; [done|]. by rewrite filter_cons_True, IH.
Qed.

(** C9.  For every analysis result, the list that
    [ensureScreenDescriptionsMatchDiagram] returns starts with one entry
    for each label taken from the screen-transition diagram, in diagram
    order and distinct up to case: the existing description that matches
    the label up to case and outer blanks (the last one when several do),
    or else the auto-generated placeholder; then come the descriptions
    whose names are not in the diagram, in their original order.  So the
    list is at least as long as the list of labels.  For the diagram with
    the labels Login and Home and the one existing description Home the
    result is the placeholder of Login followed by that description. *)
Theorem C9_screen_descriptions_follow_diagram (result : AnalysisResult) :
  let labels :=
    extractScreenNamesFromDiagram (Some (screenTransitionDiagram result)) in
  let existing := screenDescriptions result in
  let out := screenDescriptions (ensureScreenDescriptionsMatchDiagram result) in
  NoDup (screenKey <$> labels)
  /\ out = ((fun label => default (createPlaceholderScreen label)
                                  (lastMatching existing label)) <$> labels)
           ++ filter (fun screen =>
                       screenKey (screenName screen) ∉ screenKey <$> labels)
                existing
  /\ (length labels <= length out)%nat
  /\ extractScreenNamesFromDiagram (Some (screenTransitionDiagram exampleResult))
     = [lit "Login"; lit "Home"]
  /\ screenDescriptions (ensureScreenDescriptionsMatchDiagram exampleResult)
     = [createPlaceholderScreen (lit "Login"); exampleHome].
Proof.
  intros labels existing out.
  assert (Hout : out = ((fun label => default (createPlaceholderScreen label)
                                  (lastMatching existing label)) <$> labels)
           ++ filter (fun screen =>
                       screenKey (screenName screen) ∉ screenKey <$> labels)
                existing).
  { unfold out, ensureScreenDescriptionsMatchDiagram. fold labels.
    destruct labels as [|l0 ls] eqn:El.
    - simpl. fold existing. symmetry. apply filter_all, Forall_forall.
      intros screen _ Hin. simpl in Hin. by apply not_elem_of_nil in Hin.
    - rewrite <- El. simpl. fold existing. rewrite extras_filter. f_equal.
      apply list_fmap_ext. intros i label _.
      rewrite existingMap_lookup. unfold lastMatching.
      by destruct (last _). }
  split; [apply extract_NoDup|]. split; [done|]. split.
  - rewrite Hout, length_app, length_fmap. lia.
  - split; by vm_compute.
Qed.
End Screens.

Import Chart Service.

(** * Supporting lemmas for the further properties *)

(** ** Screen descriptions and diagrams *)

Section Synchronization.
Context `{UnicodeCase}.

(** The descriptions [ensureScreenDescriptionsMatchDiagram] returns for
    the labels [labels] of the diagram and the descriptions [existing]. *)
Lemma synchronized_descriptions (result : AnalysisResult) :
  let labels :=
    extractScreenNamesFromDiagram (Some (screenTransitionDiagram result)) in
  let existing := screenDescriptions result in
  screenDescriptions (ensureScreenDescriptionsMatchDiagram result)
  = ((fun label => default (createPlaceholderScreen label)
                           (lastMatching existing label)) <$> labels)
    ++ filter (fun screen =>
                 screenKey (screenName screen) ∉ screenKey <$> labels)
         existing.
Proof.
  intros labels existing.
  unfold ensureScreenDescriptionsMatchDiagram. fold labels.
  destruct labels as [|l0 ls] eqn:El.
  - simpl. fold existing. symmetry. apply filter_all, Forall_forall.
    intros screen _ Hin. simpl in Hin. by apply not_elem_of_nil in Hin.
  - rewrite <- El. simpl. fold existing. rewrite extras_filter. f_equal.
    apply list_fmap_ext. intros i label _.
    rewrite existingMap_lookup. unfold lastMatching.
    by destruct (last _).
Qed.

(** The synchronization touches the list of descriptions only. *)
Lemma synchronized_fields (result : AnalysisResult) :
  ensureScreenDescriptionsMatchDiagram result
  = withScreenDescriptions result
      (screenDescriptions (ensureScreenDescriptionsMatchDiagram result)).
Proof.
  unfold ensureScreenDescriptionsMatchDiagram.
  destruct (extractScreenNamesFromDiagram _); [by destruct result|done].
Qed.

Lemma filter_none {A} (P : A -> Prop) `{!forall x, Decision (P x)} (l : list A) :
  Forall (fun x => ~ P x) l -> filter P l = [].
Proof.
  induction 1 as [|x l Hx _ IH]; [done|]. by rewrite filter_cons_False.
Qed.

Lemma last_filter_key (existing : list ScreenDescription) label d :
  lastMatching existing label = Some d ->
  d ∈ existing /\ screenKey (screenName d) = screenKey label.
Proof.
  unfold lastMatching. intros Hl.
  assert (Hin : d ∈ filter (fun screen =>
                   screenKey (screenName screen) = screenKey label) existing).
  { apply last_Some in Hl as [l' ->]. apply elem_of_app. right. by left. }
  by apply list_elem_of_filter in Hin as [? ?].
Qed.

(** The entry written for a label carries the key of the label. *)
Lemma entry_key (existing : list ScreenDescription) label :
  screenKey (screenName (default (createPlaceholderScreen label)
                           (lastMatching existing label)))
  = screenKey label.
Proof.
  destruct (lastMatching existing label) as [d|] eqn:E; [|done].
  simpl. by apply last_filter_key in E as [_ ?].
Qed.

Lemma filter_key_entries (existing : list ScreenDescription)
    (labels : list jsstring) label :
  NoDup (screenKey <$> labels) -> label ∈ labels ->
  filter (fun screen => screenKey (screenName screen) = screenKey label)
    ((fun l => default (createPlaceholderScreen l) (lastMatching existing l))
       <$> labels)
  = [default (createPlaceholderScreen label) (lastMatching existing label)].
Proof.
  induction labels as [|l ls IH]; intros Hnd Hin; [by apply not_elem_of_nil in Hin|].
  rewrite fmap_cons in Hnd. apply NoDup_cons in Hnd as [Hl Hnd].
  rewrite fmap_cons, filter_cons, entry_key.
  destruct (decide (screenKey l = screenKey label)) as [Hk|Hk].
  - assert (Hrest : filter (fun screen =>
                       screenKey (screenName screen) = screenKey label)
                      ((fun l => default (createPlaceholderScreen l)
                                   (lastMatching existing l)) <$> ls) = []).
    { apply filter_none, Forall_forall. intros d Hd Hkd.
      apply list_elem_of_fmap in Hd as (l' & -> & Hl').
      rewrite entry_key in Hkd. apply Hl. rewrite Hk, <- Hkd.
      by apply list_elem_of_fmap_2. }
    rewrite Hrest.
    apply elem_of_cons in Hin as [->|Hin]; [done|].
    exfalso. apply Hl. rewrite Hk. by apply list_elem_of_fmap_2.
  - apply elem_of_cons in Hin as [->|Hin]; [done|]. by apply IH.
Qed.


Lemma filter_key_extras (existing : list ScreenDescription)
    (labels : list jsstring) label :
  label ∈ labels ->
  filter (fun screen => screenKey (screenName screen) = screenKey label)
    (filter (fun screen =>
               screenKey (screenName screen) ∉ screenKey <$> labels) existing)
  = [].
Proof.
  intros Hin. apply filter_none, Forall_forall. intros d Hd Hk.
  apply list_elem_of_filter in Hd as [Hd _]. apply Hd. rewrite Hk.
  by apply list_elem_of_fmap_2.
Qed.

(** Run on its own result, the synchronization finds every entry again. *)
Lemma synchronized_again (existing : list ScreenDescription)
    (labels : list jsstring) :
  NoDup (screenKey <$> labels) ->
  let entry := fun l => default (createPlaceholderScreen l)
                                (lastMatching existing l) in
  let extras := filter (fun screen =>
                  screenKey (screenName screen) ∉ screenKey <$> labels)
                  existing in
  ((fun l => default (createPlaceholderScreen l)
                     (lastMatching ((entry <$> labels) ++ extras) l))
     <$> labels)
  ++ filter (fun screen =>
               screenKey (screenName screen) ∉ screenKey <$> labels)
       ((entry <$> labels) ++ extras)
  = (entry <$> labels) ++ extras.
Proof.
  intros Hnd entry extras. f_equal.
  - apply list_fmap_ext. intros i l Hl.
    apply list_elem_of_lookup_2 in Hl. unfold lastMatching at 1.
    rewrite filter_app. unfold entry, extras.
    rewrite filter_key_entries, filter_key_extras by done. done.
  - rewrite filter_app. replace (filter _ (entry <$> labels)) with
      (@nil ScreenDescription).
    + simpl. apply filter_all, Forall_forall. intros d Hd.
      by apply list_elem_of_filter in Hd as [? _].
    + symmetry. apply filter_none, Forall_forall. intros d Hd Hn.
      apply list_elem_of_fmap in Hd as (l & -> & Hl). apply Hn.
      unfold entry. rewrite entry_key. by apply list_elem_of_fmap_2.
Qed.

Lemma synchronized_diagram (result : AnalysisResult) :
  screenTransitionDiagram (ensureScreenDescriptionsMatchDiagram result)
  = screenTransitionDiagram result.
Proof. by rewrite synchronized_fields. Qed.

Lemma withScreenDescriptions_same (result : AnalysisResult) :
  withScreenDescriptions result (screenDescriptions result) = result.
Proof. by destruct result. Qed.

Lemma synchronized_twice (result : AnalysisResult) :
  ensureScreenDescriptionsMatchDiagram
    (ensureScreenDescriptionsMatchDiagram result)
  = ensureScreenDescriptionsMatchDiagram result.
Proof.
  set (r' := ensureScreenDescriptionsMatchDiagram result).
  rewrite (synchronized_fields r').
  assert (Hsame : screenDescriptions (ensureScreenDescriptionsMatchDiagram r')
                  = screenDescriptions r').
  { rewrite (synchronized_descriptions r'). unfold r'.
    rewrite synchronized_diagram, (synchronized_descriptions result).
    apply synchronized_again, extract_NoDup. }
  rewrite Hsame. apply withScreenDescriptions_same.
Qed.


(** The flow graphs of the result of [ensureGraphDiagrams] before the
    synchronization of the descriptions. *)
Lemma ensured_diagrams (result : AnalysisResult) :
  businessFlowDiagram (ensureGraphDiagrams result)
  = (if hasRenderableGraphDiagram (Some (businessFlowDiagram result))
     then businessFlowDiagram result else buildBusinessFlowFallback result)
  /\ screenTransitionDiagram (ensureGraphDiagrams result)
     = (if hasRenderableGraphDiagram (Some (screenTransitionDiagram result))
        then screenTransitionDiagram result
        else buildScreenTransitionFallback (screenDescriptions result)).
Proof.
  unfold ensureGraphDiagrams.
  rewrite synchronized_fields.
  cbn [businessFlowDiagram screenTransitionDiagram withScreenDescriptions].
  destruct (hasRenderableGraphDiagram (Some (businessFlowDiagram result)));
    cbn [negb screenTransitionDiagram withBusinessFlow];
    destruct (hasRenderableGraphDiagram (Some (screenTransitionDiagram result)));
    done.
Qed.

Lemma ensured_renderable (result : AnalysisResult) :
  hasRenderableGraphDiagram
    (Some (businessFlowDiagram (ensureGraphDiagrams result))) = true
  /\ hasRenderableGraphDiagram
       (Some (screenTransitionDiagram (ensureGraphDiagrams result))) = true.
Proof.
  destruct (ensured_diagrams result) as [-> ->]. split.
  - destruct (hasRenderableGraphDiagram (Some (businessFlowDiagram result)))
      eqn:E; [done|apply business_renderable].
  - destruct (hasRenderableGraphDiagram (Some (screenTransitionDiagram result)))
      eqn:E; [done|apply screen_renderable].
Qed.

(** [ensureGraphDiagrams] leaves a result alone whose two flow graphs are
    renderable, but for the synchronization of the descriptions. *)
Lemma ensured_when_renderable (result : AnalysisResult) :
  hasRenderableGraphDiagram (Some (businessFlowDiagram result)) = true ->
  hasRenderableGraphDiagram (Some (screenTransitionDiagram result)) = true ->
  ensureGraphDiagrams result = ensureScreenDescriptionsMatchDiagram result.
Proof.
  intros H1 H2. unfold ensureGraphDiagrams. rewrite H1. cbn [negb].
  by rewrite H2.
Qed.

Lemma ensured_twice (result : AnalysisResult) :
  ensureGraphDiagrams (ensureGraphDiagrams result) = ensureGraphDiagrams result.
Proof.
  destruct (ensured_renderable result) as [H1 H2].
  rewrite ensured_when_renderable by done.
  unfold ensureGraphDiagrams. apply synchronized_twice.
Qed.

End Synchronization.

Section Pieces.
Implicit Types (s t : jsstring).

Lemma pieceOf_refl s : pieceOf s s.
Proof. exists [], []. by rewrite app_nil_r. Qed.

Lemma pieceOf_trans t u s : pieceOf t u -> pieceOf u s -> pieceOf t s.
Proof.
  intros (a & b & ->) (c & d & ->). exists (c ++ a), (b ++ d).
  by rewrite <- !app_assoc.
Qed.

Lemma dropWhile_piece (p : N -> bool) s : pieceOf (dropWhile p s) s.
Proof.
  induction s as [|c s IH]; simpl; [apply pieceOf_refl|].
  destruct (p c); [|apply pieceOf_refl].
  destruct IH as (a & b & Hs). exists (c :: a), b. simpl. by rewrite <- Hs.
Qed.

Lemma trimEnd_piece s : pieceOf (trimEnd s) s.
Proof.
  induction s as [|c s IH]; simpl; [apply pieceOf_refl|].
  destruct IH as (a & b & Hs).
  destruct (trimEnd s) as [|d t] eqn:E.
  - destruct (isWhiteSpace c).
    + exists [], (c :: s). done.
    + exists [], s. done.
  - destruct (trimEnd_head _ _ _ E) as [s' ->].
    assert (Hpre : exists b', s' = t ++ b').
    { clear Hs a b. revert d t E. induction s' as [|e s' IH']; intros d t E.
      - simpl in E. destruct (isWhiteSpace d); [done|]. injection E as <-.
        by exists [].
      - change (trimEnd (d :: e :: s')) with
          (match trimEnd (e :: s') with
           | [] => if isWhiteSpace d then [] else [d]
           | u => d :: u
           end) in E.
        destruct (trimEnd (e :: s')) as [|e' u] eqn:E'.
        + destruct (isWhiteSpace d); [done|]. injection E as <-. by eexists.
        + injection E as <-.
          destruct (trimEnd_head _ _ _ E') as [s'' Hs'']. injection Hs'' as <- <-.
          destruct (IH' e u E') as [b' ->]. by exists b'. }
    destruct Hpre as [b' ->]. exists [], b'. done.
Qed.

Lemma trim_piece s : pieceOf (trim s) s.
Proof.
  unfold trim, trimStart.
  eapply pieceOf_trans; [apply trimEnd_piece|apply dropWhile_piece].
Qed.

Lemma slice_piece s a b : pieceOf (slice s a b) s.
Proof.
  unfold slice. exists (take a s), (drop (b - a) (drop a s)).
  by rewrite take_drop, take_drop.
Qed.

Lemma group_piece s m n t : group s m n = Some t -> pieceOf t s.
Proof.
  unfold group. destruct (m_caps m !! n) as [[[a b]|]|]; try done.
  intros [= <-]. apply slice_piece.
Qed.
End Pieces.

Section Labels.
Context `{UnicodeCase}.

Lemma orElse_piece diagram a b t :
  (forall u, a = Some u -> pieceOf u diagram) ->
  (forall u, b = Some u -> pieceOf u diagram) ->
  orElse a b = Some t -> pieceOf t diagram.
Proof.
  intros Ha Hb. unfold orElse. destruct a as [u|]; [|by apply Hb].
  destruct (truthy u); [by apply Ha|by apply Hb].
Qed.

Lemma extractStep_good diagram st m :
  Forall (goodLabel diagram) st.1 ->
  Forall (goodLabel diagram) (extractStep diagram st m).1.
Proof.
  intros Hst. unfold extractStep.
  destruct (orElse _ _) as [label|] eqn:E; [|done].
  destruct (negb (truthy label)); [done|].
  destruct (truthy (trim label)) eqn:Et; [|done]. cbn [negb orb].
  destruct (bool_decide _); [done|]. cbn [fst].
  apply Forall_app. split; [done|]. apply Forall_singleton.
  split; [by apply truthy_true|]. split; [apply trim_idem|].
  eapply pieceOf_trans; [apply trim_piece|].
  revert E. apply orElse_piece; [apply group_piece|].
  intros u. apply orElse_piece; apply group_piece.
Qed.

Lemma fold_extractStep_good diagram ms st :
  Forall (goodLabel diagram) st.1 ->
  Forall (goodLabel diagram) (fold_left (extractStep diagram) ms st).1.
Proof.
  revert st. induction ms as [|m ms IH]; intros st Hst; [done|].
  simpl. by apply IH, extractStep_good.
Qed.
End Labels.

Section Origin.
Context `{UnicodeCase}.

Lemma synchronized_origin (result : AnalysisResult) :
  Forall (fun d =>
            d ∈ screenDescriptions result
            \/ exists label,
                 label ∈ extractScreenNamesFromDiagram
                           (Some (screenTransitionDiagram result))
                 /\ d = createPlaceholderScreen label)
         (screenDescriptions (ensureScreenDescriptionsMatchDiagram result)).
Proof.
  rewrite synchronized_descriptions. apply Forall_app. split.
  - apply Forall_fmap, Forall_forall. intros label Hl. cbv beta.
    unfold compose.
    destruct (lastMatching (screenDescriptions result) label) as [d|] eqn:E.
    + left. simpl. by apply last_filter_key in E as [? _].
    + right. by exists label.
  - apply Forall_forall. intros d Hd. left.
    by apply list_elem_of_filter in Hd as [_ ?].
Qed.


Lemma extracted_labels_good diagram :
  Forall (goodLabel diagram)
    (extractScreenNamesFromDiagram (Some diagram)).
Proof.
  unfold extractScreenNamesFromDiagram.
  destruct (negb (truthy diagram)); [constructor|].
  apply fold_extractStep_good. constructor.
Qed.
End Origin.

(** ** Statements *)

Section Statements.
Implicit Types (s t : jsstring) (st : SplitState).

Lemma visible_app s t : visible (s ++ t) = visible s ++ visible t.
Proof. apply filter_app. Qed.

Lemma visible_dropWhile s : visible (dropWhile isWhiteSpace s) = visible s.
Proof.
  induction s as [|c s IH]; [done|]. simpl.
  destruct (isWhiteSpace c) eqn:E; [|done].
  rewrite IH. unfold visible. rewrite filter_cons_False; [done|].
  unfold separatorOrBlank. rewrite E. done.
Qed.

Lemma visible_trimEnd s : visible (trimEnd s) = visible s.
Proof.
  induction s as [|c s IH]; [done|]. simpl.
  destruct (trimEnd s) as [|d t] eqn:E.
  - simpl in IH. destruct (isWhiteSpace c) eqn:Ec.
    + unfold visible at 2. rewrite filter_cons_False.
      * exact IH.
      * unfold separatorOrBlank. by rewrite Ec.
    + change (c :: s) with ([c] ++ s). rewrite visible_app, <- IH.
      by rewrite app_nil_r.
  - change (c :: d :: t) with ([c] ++ d :: t).
    change (c :: s) with ([c] ++ s). by rewrite !visible_app, IH.
Qed.

Lemma visible_trim s : visible (trim s) = visible s.
Proof. unfold trim, trimStart. by rewrite visible_trimEnd, visible_dropWhile. Qed.

Lemma concat_pushTrimmed acc cur :
  visible (concat (pushTrimmed acc cur)) = visible (concat acc) ++ visible cur.
Proof.
  unfold pushTrimmed. destruct (trim cur) as [|c t] eqn:E; simpl.
  - rewrite <- (visible_trim cur), E. by rewrite app_nil_r.
  - rewrite concat_app, visible_app. simpl. rewrite app_nil_r.
    by rewrite <- E, visible_trim.
Qed.

Lemma splitStep_visible st char :
  visible (concat (statements (splitStep st char)) ++ current (splitStep st char))
  = visible (concat (statements st) ++ current st) ++ visible [char].
Proof.
  unfold splitStep.
  destruct (negb _ && _) eqn:E; cbn [statements current].
  - rewrite app_nil_r, concat_pushTrimmed, visible_app.
    apply andb_true_iff in E as [_ E].
    assert (Hc : visible [char] = []).
    { unfold visible. rewrite filter_cons_False; [done|].
      unfold separatorOrBlank. apply orb_true_iff in E as [E|E].
      - apply N.eqb_eq in E. subst char. done.
      - rewrite E. by rewrite orb_true_r. }
    by rewrite Hc, app_nil_r.
  - by rewrite !visible_app, app_assoc.
Qed.

Lemma fold_splitStep_visible input st :
  let st' := fold_left splitStep input st in
  visible (concat (statements st') ++ current st')
  = visible (concat (statements st) ++ current st) ++ visible input.
Proof.
  revert st. induction input as [|c input IH]; intros st; simpl.
  - by rewrite app_nil_r.
  - rewrite IH, splitStep_visible, <- app_assoc. f_equal.
    change (c :: input) with ([c] ++ input). by rewrite visible_app.
Qed.

Lemma pushTrimmed_trimmed acc cur :
  Forall trimmedStatement acc -> Forall trimmedStatement (pushTrimmed acc cur).
Proof.
  intros Hacc. unfold pushTrimmed. destruct (truthy (trim cur)) eqn:E; [|done].
  apply Forall_app. split; [done|]. apply Forall_singleton.
  split; [by apply truthy_true|apply trim_idem].
Qed.

Lemma splitStep_trimmed st char :
  Forall trimmedStatement (statements st) ->
  Forall trimmedStatement (statements (splitStep st char)).
Proof.
  intros Hst. unfold splitStep. destruct (negb _ && _); cbn [statements];
    [by apply pushTrimmed_trimmed|done].
Qed.

Lemma fold_splitStep_trimmed input st :
  Forall trimmedStatement (statements st) ->
  Forall trimmedStatement (statements (fold_left splitStep input st)).
Proof.
  revert st. induction input as [|c input IH]; intros st Hst; [done|].
  simpl. by apply IH, splitStep_trimmed.
Qed.

Lemma splitStatements_trimmed input :
  Forall trimmedStatement (splitStatements input).
Proof.
  unfold splitStatements. apply pushTrimmed_trimmed, fold_splitStep_trimmed.
  constructor.
Qed.

Lemma splitStatements_visible input :
  visible (concat (splitStatements input)) = visible input.
Proof.
  unfold splitStatements. rewrite concat_pushTrimmed.
  rewrite <- visible_app, fold_splitStep_visible. done.
Qed.

Lemma plain_trim s : plain s -> plain (trim s).
Proof.
  intros [H1 H2]. split; intros Hin.
  - assert (Hf : Forall (fun c => c <> nl) (trim s)).
    { apply trim_Forall, Forall_forall. by intros c Hc ->. }
    by apply (proj1 (Forall_forall _ _) Hf) in Hin.
  - assert (Hf : Forall (fun c => c <> semi) (trim s)).
    { apply trim_Forall, Forall_forall. by intros c Hc ->. }
    by apply (proj1 (Forall_forall _ _) Hf) in Hin.
Qed.

Lemma plain_snoc s c : plain s -> c <> nl -> c <> semi -> plain (s ++ [c]).
Proof.
  intros [H1 H2] Hn Hs. split; intros Hin;
    apply elem_of_app in Hin as [Hin|Hin]; try done;
    apply list_elem_of_singleton in Hin; done.
Qed.

Lemma pushTrimmed_plain acc cur :
  Forall plain acc -> plain cur -> Forall plain (pushTrimmed acc cur).
Proof.
  intros Hacc Hcur. unfold pushTrimmed. destruct (truthy (trim cur)); [|done].
  apply Forall_app. split; [done|]. apply Forall_singleton. by apply plain_trim.
Qed.

Lemma splitStep_plain st char :
  char <> dq -> plainState st -> plainState (splitStep st char).
Proof.
  intros Hq (Hin & Hcur & Hst). unfold splitStep.
  rewrite (proj2 (N.eqb_neq char dq) Hq). cbn [andb]. rewrite Hin. cbn [negb andb].
  destruct ((char =? nl) || (char =? semi)) eqn:E.
  - split; [done|]. split; [split; apply not_elem_of_nil|].
    by apply pushTrimmed_plain.
  - apply orb_false_iff in E as [E1 E2].
    apply N.eqb_neq in E1. apply N.eqb_neq in E2.
    split; [done|]. split; [by apply plain_snoc|done].
Qed.

Lemma fold_splitStep_plain input st :
  dq ∉ input -> plainState st -> plainState (fold_left splitStep input st).
Proof.
  revert st. induction input as [|c input IH]; intros st Hq Hst; [done|].
  simpl. apply IH.
  - intros Hin. apply Hq. by right.
  - apply splitStep_plain; [|done]. intros ->. apply Hq. by left.
Qed.

Lemma splitStatements_plain input :
  dq ∉ input -> Forall plain (splitStatements input).
Proof.
  intros Hq. unfold splitStatements.
  destruct (fold_splitStep_plain input
              {| statements := []; current := []; inQuote := false;
                 previous := None |} Hq) as (_ & Hcur & Hst).
  { split; [done|]. split; [split; apply not_elem_of_nil|constructor]. }
  by apply pushTrimmed_plain.
Qed.

Lemma filter_none_blank s :
  Forall (fun c => separatorOrBlank c = true) s -> visible s = [].
Proof.
  induction 1 as [|c s Hc _ IH]; [done|]. unfold visible.
  rewrite filter_cons_False; [done|]. by rewrite Hc.
Qed.

(** No statement: the text holds blanks and semicolons only. *)
Lemma splitStatements_nil input :
  splitStatements input = [] <-> forallb separatorOrBlank input = true.
Proof.
  split.
  - intros Hnil. pose proof (splitStatements_visible input) as Hv.
    rewrite Hnil in Hv. simpl in Hv. symmetry in Hv.
    apply forallb_forall. intros c Hc. apply list_elem_of_In in Hc.
    destruct (separatorOrBlank c) eqn:E; [done|].
    assert (Hin : c ∈ visible input) by (by apply list_elem_of_filter).
    rewrite Hv in Hin. by apply not_elem_of_nil in Hin.
  - intros Hall.
    assert (Hq : dq ∉ input).
    { intros Hin. apply list_elem_of_In in Hin.
      by apply (proj1 (forallb_forall _ _) Hall) in Hin. }
    assert (Hvis : visible input = []).
    { apply filter_none_blank, Forall_forall. intros c Hc.
      apply list_elem_of_In in Hc.
      by apply (proj1 (forallb_forall _ _) Hall) in Hc. }
    pose proof (splitStatements_visible input) as Hv. rewrite Hvis in Hv.
    pose proof (splitStatements_trimmed input) as Ht.
    pose proof (splitStatements_plain input Hq) as Hp.
    destruct (splitStatements input) as [|x l]; [done|]. exfalso.
    apply Forall_cons in Ht as [[Hne Htr] _].
    apply Forall_cons in Hp as [[_ Hsemi] _].
    destruct x as [|c x]; [done|].
    assert (Hc : isWhiteSpace c = false) by (by eapply trim_head).
    simpl in Hv. unfold visible in Hv. rewrite filter_cons_True in Hv; [done|].
    unfold separatorOrBlank. rewrite Hc. simpl. apply N.eqb_neq.
    intros ->. apply Hsemi. by left.
Qed.
End Statements.


Section EmptyGraph.
Context `{UnicodeCase}.

Lemma normalizeGraphDiagram_nil code :
  normalizeGraphDiagram code = [] <-> splitStatements code = [].
Proof.
  unfold normalizeGraphDiagram.
  destruct (splitStatements code) as [|x stmts] eqn:E; [done|].
  split; [|done]. intros Hj. exfalso.
  destruct (join_head [nl]
              (header (fold_left headerStep (x :: stmts)
                         {| header := lit "graph TD"; body := [];
                            headerFound := false |}))
              (filter (fun l => truthy l = true)
                 (normalizeLine <$>
                    body (fold_left headerStep (x :: stmts)
                            {| header := lit "graph TD"; body := [];
                               headerFound := false |})))) as [t Ht].
  rewrite Ht in Hj.
  destruct (fold_headerStep_header (x :: stmts)
              {| header := lit "graph TD"; body := []; headerFound := false |})
    as [Hh|[Hh|Hh]]; rewrite Hh in Hj; discriminate Hj.
Qed.
End EmptyGraph.

(** ** Lifelines *)

Section Sequence.
Context `{UnicodeCase}.
Implicit Types (active : gset jsstring) (lines out : list jsstring).

Lemma sequenceStep_out st line :
  exists new, (sequenceStep st line).2 = st.2 ++ new
    /\ (sequenceStep (st.1, []) line) = ((sequenceStep st line).1, new).
Proof.
  unfold sequenceStep. destruct (activateName _) as [a|].
  - eexists. split; [reflexivity|]. by rewrite app_nil_l.
  - destruct (deactivateName _) as [d|].
    + cbn [fst snd]. destruct (_ || _).
      * exists []. by rewrite app_nil_r.
      * eexists. split; [reflexivity|]. by rewrite app_nil_l.
    + eexists. split; [reflexivity|]. by rewrite app_nil_l.
Qed.

Lemma fold_sequenceStep_out lines st :
  fold_left sequenceStep lines st
  = ((fold_left sequenceStep lines (st.1, [])).1,
     st.2 ++ (fold_left sequenceStep lines (st.1, [])).2).
Proof.
  revert st. induction lines as [|line lines IH]; intros [active out].
  - simpl. by rewrite app_nil_r.
  - cbn [fold_left fst snd].
    destruct (sequenceStep_out (active, out) line) as (new & Hout & Hst).
    cbn [fst snd] in Hout, Hst.
    rewrite (IH (sequenceStep (active, out) line)).
    rewrite Hst. rewrite (IH (_, new)). cbn [fst snd].
    rewrite Hout, <- app_assoc. done.
Qed.

Lemma pushedLines_cons active line lines :
  pushedLines active (line :: lines)
  = (sequenceStep (active, []) line).2
    ++ pushedLines (sequenceStep (active, []) line).1 lines.
Proof.
  unfold pushedLines. cbn [fold_left]. by rewrite fold_sequenceStep_out.
Qed.

Lemma pushedLines_inOrder lines active :
  lifelinesInOrder active (pushedLines active lines).
Proof.
  revert active. induction lines as [|line lines IH]; intros active; [done|].
  rewrite pushedLines_cons. unfold sequenceStep. cbn [fst snd].
  destruct (activateName (quoteMessage line)) as [a|] eqn:Ea.
  - cbn [app fst snd lifelinesInOrder]. rewrite Ea. cbv zeta. apply IH.
  - destruct (deactivateName (quoteMessage line)) as [d|] eqn:Ed.
    + destruct (truthy (normalizeParticipantId d)) eqn:Et; cbn [negb orb].
      * destruct (bool_decide_reflect (normalizeParticipantId d ∈ active))
          as [Hin|Hin]; cbn [negb app fst snd].
        -- cbn [lifelinesInOrder]. rewrite Ea, Ed. cbv zeta.
           split; [by apply truthy_true|]. split; [done|apply IH].
        -- apply IH.
      * apply IH.
    + cbn [app fst snd lifelinesInOrder]. rewrite Ea, Ed. apply IH.
Qed.

Lemma pushedLines_sublist lines active :
  sublist (pushedLines active lines) (quoteMessage <$> lines)
  /\ filter notDeactivate (pushedLines active lines)
     = filter notDeactivate (quoteMessage <$> lines).
Proof.
  revert active. induction lines as [|line lines IH]; intros active; [done|].
  rewrite pushedLines_cons, fmap_cons. unfold sequenceStep. cbn [fst snd].
  destruct (activateName (quoteMessage line)) as [a|] eqn:Ea.
  - cbn [app fst snd]. destruct (IH (if truthy (normalizeParticipantId a)
        then {[normalizeParticipantId a]} ∪ active else active)) as [H1 H2].
    split; [by apply sublist_skip|]. rewrite !filter_cons.
    destruct (decide (notDeactivate (quoteMessage line))); by rewrite H2.
  - destruct (deactivateName (quoteMessage line)) as [d|] eqn:Ed.
    + assert (Hd : ~ notDeactivate (quoteMessage line))
        by (unfold notDeactivate; by rewrite Ed).
      destruct (_ || _); cbn [app fst snd].
      * destruct (IH active) as [H1 H2]. split; [by apply sublist_cons|].
        by rewrite filter_cons_False.
      * destruct (IH (active ∖ {[normalizeParticipantId d]})) as [H1 H2].
        split; [by apply sublist_skip|]. by rewrite !filter_cons_False, H2.
    + cbn [app fst snd]. destruct (IH active) as [H1 H2].
      split; [by apply sublist_skip|].
      by rewrite !filter_cons_True, H2.
Qed.

(** No step of the loop puts a line feed into a line. *)
Lemma quoteMessage_Forall (P : N -> Prop) line :
  P bsl -> P dq -> Forall P line -> Forall P (quoteMessage line).
Proof.
  intros Hb Hq Hl. unfold quoteMessage.
  destruct (exec reMessage line 0) as [m|]; [|done].
  destruct (truthy _); [|done].
  rewrite !Forall_app. repeat split; try by repeat constructor.
  - by apply groupText_Forall.
  - apply cleanLabel_Forall; [done|done|]. by apply trim_Forall, groupText_Forall.
Qed.

Lemma splitOn_Forall c s : Forall (fun p => c ∉ p) (splitOn c s).
Proof.
  induction s as [|x s IH]; simpl.
  - constructor; [apply not_elem_of_nil|constructor].
  - destruct (N.eqb_spec x c) as [->|Hx].
    + constructor; [apply not_elem_of_nil|done].
    + destruct (splitOn c s) as [|p ps].
      { apply Forall_singleton. intros Hin%list_elem_of_singleton. done. }
      apply Forall_cons in IH as [Hp Hps]. constructor; [|done].
      intros Hin. apply elem_of_cons in Hin as [?|?]; done.
Qed.

Lemma sublist_Forall_fmap {A B} (P : B -> Prop) (f : A -> B) l k :
  sublist k (f <$> l) -> Forall (fun x => P (f x)) l -> Forall P k.
Proof.
  intros Hs Hl. apply Forall_forall. intros y Hy.
  eapply elem_of_sublist in Hy; [|exact Hs].
  apply list_elem_of_fmap in Hy as (x & -> & Hx).
  by apply (proj1 (Forall_forall _ _) Hl).
Qed.

Lemma pushedLines_lines code :
  Forall (fun p => nl ∉ p) (pushedLines ∅ (splitOn nl code)).
Proof.
  eapply sublist_Forall_fmap; [apply pushedLines_sublist|].
  eapply Forall_impl; [apply splitOn_Forall|]. intros line Hline. cbv beta.
  intros Hin.
  assert (Hf : Forall (fun c => c <> nl) (quoteMessage line)).
  { apply quoteMessage_Forall; [done|done|]. apply Forall_forall.
    by intros c Hc ->. }
  by apply (proj1 (Forall_forall _ _) Hf) in Hin.
Qed.

Lemma bind_splitOn_single c (ls : list jsstring) :
  Forall (fun p => c ∉ p) ls -> ls ≫= splitOn c = ls.
Proof.
  induction 1 as [|p ls Hp _ IH]; [done|].
  by rewrite bind_cons, splitOn_single, IH.
Qed.

(** The lines of the text [sanitizeSequence] returns are the lines it has
    pushed, or the one empty line when it has pushed none. *)
Lemma sanitizeSequence_lines code :
  splitOn nl (sanitizeSequence code)
  = match pushedLines ∅ (splitOn nl code) with
    | [] => [[]]
    | ls => ls
    end.
Proof.
  unfold sanitizeSequence. fold (pushedLines ∅ (splitOn nl code)).
  pose proof (pushedLines_lines code) as Hl.
  destruct (pushedLines ∅ (splitOn nl code)) as [|l ls] eqn:E; [done|].
  rewrite splitOn_join by done. by apply bind_splitOn_single.
Qed.
End Sequence.

(** ** Labels *)

Section Escaping.
Implicit Types (s t a b : jsstring).

Local Abbreviation doubleBackslash :=
  (fun x : N => if x =? bsl then [bsl; bsl] else [x]).
Local Abbreviation escapeQuote :=
  (fun x : N => if x =? dq then [bsl; dq] else [x]).

Lemma doubleBackslash_inj a b :
  a ≫= doubleBackslash = b ≫= doubleBackslash -> a = b.
Proof.
  revert b. induction a as [|x a IH]; intros [|y b]; rewrite ?bind_cons.
  - done.
  - simpl. destruct (y =? bsl); discriminate.
  - simpl. destruct (x =? bsl); discriminate.
  - destruct (N.eqb_spec x bsl) as [->|Hx], (N.eqb_spec y bsl) as [->|Hy];
      simpl; intros E.
    + injection E as E. f_equal. by apply IH.
    + injection E as E _. by subst y.
    + injection E as E _. by subst x.
    + injection E as -> E. f_equal. by apply IH.
Qed.

Lemma escapeQuote_head a c t : a ≫= escapeQuote = c :: t -> c <> dq.
Proof.
  destruct a as [|x a]; [done|]. rewrite bind_cons.
  destruct (N.eqb_spec x dq) as [->|Hx]; simpl; intros [= <- _]; done.
Qed.

Lemma escapeQuote_inj a b :
  a ≫= escapeQuote = b ≫= escapeQuote -> a = b.
Proof.
  revert b. induction a as [|x a IH]; intros [|y b]; rewrite ?bind_cons.
  - done.
  - simpl. destruct (y =? dq); discriminate.
  - simpl. destruct (x =? dq); discriminate.
  - destruct (N.eqb_spec x dq) as [->|Hx], (N.eqb_spec y dq) as [->|Hy];
      simpl; intros E.
    + injection E as E. f_equal. by apply IH.
    + injection E as _ E. symmetry in E. by apply escapeQuote_head in E.
    + injection E as _ E. by apply escapeQuote_head in E.
    + injection E as -> E. f_equal. by apply IH.
Qed.

Lemma escapeLabel_inj a b :
  Diagram.escapeLabel a = Diagram.escapeLabel b -> a = b.
Proof.
  rewrite !escapeLabel_spec. intros E.
  by apply doubleBackslash_inj, escapeQuote_inj.
Qed.

Lemma escapeLabel_cons c s :
  Diagram.escapeLabel (c :: s)
  = (if c =? bsl then [bsl; bsl] else if c =? dq then [bsl; dq] else [c])
    ++ Diagram.escapeLabel s.
Proof.
  rewrite !escapeLabel_spec, bind_cons, bind_app. f_equal.
  destruct (N.eqb_spec c bsl) as [->|Hc]; [done|].
  simpl. by rewrite app_nil_r.
Qed.

Lemma escapeLabel_app s t :
  Diagram.escapeLabel (s ++ t) = Diagram.escapeLabel s ++ Diagram.escapeLabel t.
Proof. rewrite !escapeLabel_spec. by rewrite !bind_app. Qed.

Lemma escapeLabel_nil : Diagram.escapeLabel [] = [].
Proof. by rewrite escapeLabel_spec. Qed.

Lemma trimEnd_last s m d : trimEnd s = m ++ [d] -> isWhiteSpace d = false.
Proof.
  revert m. induction s as [|x s IH]; intros m; simpl.
  - by destruct m.
  - destruct (trimEnd s) as [|y t] eqn:E.
    + destruct (isWhiteSpace x) eqn:Hx; [by destruct m|].
      destruct m as [|? [|? ?]]; intros [= ->]; done.
    + destruct m as [|z m]; [intros [= _ E']; done|].
      intros [= _ E']. by apply (IH m).
Qed.

Lemma trim_last s m d : trim s = m ++ [d] -> isWhiteSpace d = false.
Proof. apply trimEnd_last. Qed.

Lemma trim_ends s c r :
  trim s = c :: r ->
  isWhiteSpace c = false
  /\ exists m d, c :: r = m ++ [d] /\ isWhiteSpace d = false.
Proof.
  intros E. split; [by eapply trim_head|].
  destruct (exists_last (l := c :: r) ltac:(done)) as (m & d & Hmd).
  exists m, d. split; [done|]. apply (trim_last s m). by rewrite E.
Qed.

Lemma trim_unchanged s c r m d :
  s = c :: r -> s = m ++ [d] -> isWhiteSpace c = false ->
  isWhiteSpace d = false -> trim s = s.
Proof.
  intros Hs Hm Hc Hd. unfold trim, trimStart. rewrite Hs at 1. simpl.
  rewrite Hc, <- Hs, Hm. by apply trimEnd_snoc.
Qed.

Lemma escapeLabel_trimmed s : trim s = s -> trim (Diagram.escapeLabel s) = Diagram.escapeLabel s.
Proof.
  intros Hs. destruct s as [|c r] eqn:Es; [by rewrite escapeLabel_nil|].
  destruct (trim_ends _ _ _ Hs) as (Hc & m & d & Hmd & Hd).
  assert (Hfirst : exists c' r', Diagram.escapeLabel (c :: r) = c' :: r'
                                 /\ isWhiteSpace c' = false).
  { rewrite escapeLabel_cons.
    destruct (c =? bsl); [by eexists _, _|].
    destruct (c =? dq); by eexists _, _. }
  assert (Hlast : exists m' d', Diagram.escapeLabel (c :: r) = m' ++ [d']
                                /\ isWhiteSpace d' = false).
  { rewrite Hmd, escapeLabel_app, escapeLabel_cons, escapeLabel_nil, app_nil_r.
    destruct (N.eqb_spec d bsl) as [->|_].
    - exists (Diagram.escapeLabel m ++ [bsl]), bsl.
      by rewrite <- app_assoc.
    - destruct (N.eqb_spec d dq) as [->|_].
      + exists (Diagram.escapeLabel m ++ [bsl]), dq. by rewrite <- app_assoc.
      + by exists (Diagram.escapeLabel m), d. }
  destruct Hfirst as (c' & r' & E1 & Hc'), Hlast as (m' & d' & E2 & Hd').
  by eapply trim_unchanged.
Qed.

Lemma cleanLabel_trimmed text : trim (cleanLabel text) = cleanLabel text.
Proof.
  unfold cleanLabel. destruct (negb (truthy (trim text))); [done|].
  apply escapeLabel_trimmed, trim_idem.
Qed.

(** A blank text gives the empty label. *)
Lemma cleanLabel_blank text :
  forallb isWhiteSpace text = true -> cleanLabel text = [].
Proof.
  intros Hb. apply trim_nil in Hb. unfold cleanLabel. by rewrite Hb.
Qed.
End Escaping.

(** ** The chart signature *)

Section Hash.
Local Open Scope Z_scope.

Lemma toInt32_range x : - 2 ^ 31 <= toInt32 x < 2 ^ 31.
Proof.
  unfold toInt32. pose proof (Z.mod_pos_bound x (2 ^ 32) ltac:(lia)).
  destruct (Z.leb_spec (2 ^ 31) (x mod 2 ^ 32)); lia.
Qed.

Lemma toInt32_mod x : toInt32 x mod 2 ^ 32 = x mod 2 ^ 32.
Proof.
  unfold toInt32. destruct (Z.leb_spec (2 ^ 31) (x mod 2 ^ 32)).
  - rewrite <- (Z.mod_add _ 1 (2 ^ 32)) by lia.
    replace (x mod 2 ^ 32 - 2 ^ 32 + 1 * 2 ^ 32) with (x mod 2 ^ 32) by lia.
    apply Z.mod_mod. lia.
  - apply Z.mod_mod. lia.
Qed.

Lemma toInt32_congr x y : x mod 2 ^ 32 = y mod 2 ^ 32 -> toInt32 x = toInt32 y.
Proof. unfold toInt32. by intros ->. Qed.

Lemma imul_mod x y : imul x y mod 2 ^ 32 = (x * y) mod 2 ^ 32.
Proof.
  change (imul x y) with (toInt32 ((x mod 2 ^ 32) * (y mod 2 ^ 32))).
  rewrite toInt32_mod. symmetry. apply Z.mul_mod. lia.
Qed.

Lemma hashStep_congr h p c :
  h mod 2 ^ 32 = p mod 2 ^ 32 ->
  hashStep h c = toInt32 (31 * p + Z.of_N c).
Proof.
  intros Hhp. unfold hashStep. apply toInt32_congr.
  rewrite Z.add_mod, imul_mod by lia.
  rewrite (Z.mul_mod 31 h), Hhp, <- (Z.mul_mod 31 p) by lia.
  rewrite <- Z.add_mod by lia. done.
Qed.

Lemma fold_hashStep value h p :
  h = toInt32 p ->
  fold_left hashStep value h
  = toInt32 (fold_left (fun acc c => 31 * acc + Z.of_N c) value p).
Proof.
  revert h p. induction value as [|c value IH]; intros h p ->; [done|].
  simpl. apply IH. apply hashStep_congr, toInt32_mod.
Qed.

Lemma hashCode_polynomial value : hashCode value = toInt32 (polynomial31 value).
Proof. unfold hashCode, polynomial31. by apply fold_hashStep. Qed.
End Hash.

Section Digits.
Implicit Types (n : N) (acc : jsstring).

Lemma digit36_isDigit d : d < 36 -> isDigit36 (digit36 d).
Proof.
  intros Hd. unfold digit36, isDigit36. destruct (N.ltb_spec d 10); lia.
Qed.

Lemma digit36_value d : d < 36 -> valueOfDigit36 (digit36 d) = d.
Proof.
  intros Hd. unfold digit36, valueOfDigit36.
  destruct (N.ltb_spec d 10).
  - destruct (N.ltb_spec (48 + d) 58); lia.
  - destruct (N.ltb_spec (87 + d) 58); lia.
Qed.

Lemma digits36_acc fuel n acc :
  digits36 fuel n acc = digits36 fuel n [] ++ acc.
Proof.
  revert n acc. induction fuel as [|fuel IH]; intros n acc; [done|].
  simpl. destruct (n <? 36); [done|].
  rewrite (IH _ (_ :: acc)), (IH _ [_]), <- app_assoc. done.
Qed.

Lemma digits36_unfold fuel n :
  digits36 (S fuel) n []
  = if n <? 36 then [digit36 n]
    else digits36 fuel (n / 36) [] ++ [digit36 (n mod 36)].
Proof.
  simpl. destruct (N.ltb_spec n 36).
  - by rewrite N.mod_small.
  - by rewrite digits36_acc.
Qed.

Lemma value36_snoc l c : value36 (l ++ [c]) = 36 * value36 l + valueOfDigit36 c.
Proof. unfold value36. by rewrite fold_left_app. Qed.

Lemma mod36_lt n : n mod 36 < 36.
Proof. apply N.mod_lt. lia. Qed.

Lemma div36_lt n fuel :
  n < 36 ^ N.of_nat (S fuel) -> n / 36 < 36 ^ N.of_nat fuel.
Proof.
  intros Hn. apply N.Div0.div_lt_upper_bound.
  by rewrite Nat2N.inj_succ, N.pow_succ_r' in Hn.
Qed.

(** With fuel for its digits, a number is printed in full. *)
Lemma digits36_spec fuel n :
  n < 36 ^ N.of_nat (S fuel) ->
  value36 (digits36 (S fuel) n []) = n
  /\ Forall isDigit36 (digits36 (S fuel) n [])
  /\ (1 <= length (digits36 (S fuel) n []) <= S fuel)%nat.
Proof.
  revert n. induction fuel as [|fuel IH]; intros n Hn;
    rewrite digits36_unfold; destruct (N.ltb_spec n 36) as [Hlt|Hge].
  - split; [|split].
    + unfold value36. simpl. by rewrite digit36_value.
    + apply Forall_singleton. by apply digit36_isDigit.
    + simpl. lia.
  - change (36 ^ N.of_nat 1) with 36 in Hn. lia.
  - split; [|split].
    + unfold value36. simpl. by rewrite digit36_value.
    + apply Forall_singleton. by apply digit36_isDigit.
    + simpl. lia.
  - destruct (IH _ (div36_lt _ _ Hn)) as (Hv & Hd & Hl). split; [|split].
    + rewrite value36_snoc, Hv, digit36_value by apply mod36_lt.
      symmetry. apply N.div_mod. done.
    + apply Forall_app. split; [done|]. apply Forall_singleton.
      apply digit36_isDigit, mod36_lt.
    + rewrite length_app. cbn [length]. lia.
Qed.

Lemma digits36_fuel fuel fuel' n :
  n < 36 ^ N.of_nat (S fuel) -> n < 36 ^ N.of_nat (S fuel') ->
  digits36 (S fuel) n [] = digits36 (S fuel') n [].
Proof.
  revert fuel' n. induction fuel as [|fuel IH]; intros fuel' n Hn Hn';
    rewrite !(digits36_unfold _ n); destruct (N.ltb_spec n 36) as [Hlt|Hge];
    try done.
  - change (36 ^ N.of_nat 1) with 36 in Hn. lia.
  - destruct fuel' as [|fuel'].
    + change (36 ^ N.of_nat 1) with 36 in Hn'. lia.
    + f_equal. apply IH; by apply div36_lt.
Qed.

Lemma log2_fuel n : n < 36 ^ N.of_nat (S (N.to_nat (N.log2 n))).
Proof.
  rewrite Nat2N.inj_succ, N2Nat.id.
  destruct (N.eq_dec n 0) as [->|Hn]; [done|].
  pose proof (N.log2_spec n ltac:(lia)) as [_ Hlt].
  eapply N.lt_le_trans; [exact Hlt|].
  apply N.pow_le_mono_l. lia.
Qed.

Lemma toString36_spec n :
  value36 (toString36 n) = n /\ Forall isDigit36 (toString36 n)
  /\ toString36 n <> [].
Proof.
  destruct (digits36_spec _ n (log2_fuel n)) as (Hv & Hd & Hl).
  split; [done|]. split; [done|]. unfold toString36.
  destruct (digits36 _ _ _); simpl in *; [lia|done].
Qed.

Lemma toString36_length n k :
  n < 36 ^ N.of_nat (S k) -> (length (toString36 n) <= S k)%nat.
Proof.
  intros Hn. unfold toString36.
  rewrite (digits36_fuel _ k) by (apply log2_fuel || done).
  by apply digits36_spec.
Qed.

Lemma toString36_inj n m : toString36 n = toString36 m -> n = m.
Proof.
  intros E. destruct (toString36_spec n) as [<- _].
  destruct (toString36_spec m) as [<- _]. by rewrite E.
Qed.
End Digits.

Section Signature.
Context `{UnicodeCase}.

Lemma hashCode_range value : (- 2 ^ 31 <= hashCode value < 2 ^ 31)%Z.
Proof. rewrite hashCode_polynomial. apply toInt32_range. Qed.

Lemma hashString_digits value :
  hashString value <> [] /\ (length (hashString value) <= 6)%nat
  /\ Forall isDigit36 (hashString value).
Proof.
  unfold hashString. pose proof (hashCode_range value) as Hr.
  destruct (toString36_spec (Z.to_N (Z.abs (hashCode value)))) as (_ & Hd & Hne).
  split; [done|]. split; [|done]. apply (toString36_length _ 5).
  change (36 ^ N.of_nat 6) with 2176782336. lia.
Qed.

Lemma hashString_same a b :
  hashString a = hashString b <-> Z.abs (hashCode a) = Z.abs (hashCode b).
Proof.
  unfold hashString. split.
  - intros E%toString36_inj. lia.
  - by intros ->.
Qed.
End Signature.

(** ** Code fences *)

Section Fences.
Implicit Types (s t : jsstring).

Lemma litAt_caseSensitive fl t s :
  ignoreCase fl = false -> litAt fl t s = startsWith s t.
Proof.
  intros Hfl. revert s. induction t as [|c t IH]; intros [|d s];
    cbn [litAt startsWith]; try done.
  rewrite IH. f_equal. unfold setMatch, setMem. rewrite Hfl. simpl.
  rewrite !orb_false_r. apply N.eqb_sym.
Qed.

Lemma fence_lang s i j :
  lang flagG s (str "```") i j <-> j = (i + 3)%nat /\ fenceAt s i.
Proof.
  unfold str. rewrite lang_lit. change (length (lit "```")) with 3%nat.
  rewrite litAt_caseSensitive, startsWith_spec by done. unfold fenceAt. split.
  - intros [-> [t Ht]]. split; [done|].
    assert (H0 : s !! (i + 0)%nat = Some 96) by (by rewrite <- lookup_drop, Ht).
    assert (H1 : s !! (i + 1)%nat = Some 96) by (by rewrite <- lookup_drop, Ht).
    assert (H2 : s !! (i + 2)%nat = Some 96) by (by rewrite <- lookup_drop, Ht).
    replace (i + 0)%nat with i in H0 by lia.
    replace (i + 1)%nat with (S i) in H1 by lia.
    replace (i + 2)%nat with (S (S i)) in H2 by lia. done.
  - intros [-> (H0 & H1 & H2)]. split; [done|].
    exists (drop (S (S (S i))) s).
    rewrite (drop_S _ _ _ H0), (drop_S _ _ _ H1), (drop_S _ _ _ H2). done.
Qed.

Lemma fenceAt_piece s : pieceOf (lit "```") s <-> exists i, fenceAt s i.
Proof.
  split.
  - intros (pre & post & ->). exists (length pre). unfold fenceAt.
    assert (Hk : forall k, (pre ++ lit "```" ++ post) !! (length pre + k)%nat
                           = (lit "```" ++ post) !! k).
    { intros k. rewrite lookup_app_r by lia. f_equal. lia. }
    rewrite <- (Nat.add_0_r (length pre)) at 1.
    replace (S (length pre)) with (length pre + 1)%nat by lia.
    replace (S (length pre + 1)) with (length pre + 2)%nat by lia.
    rewrite !Hk. repeat split; reflexivity.
  - intros (i & H0 & H1 & H2). exists (take i s), (drop (S (S (S i))) s).
    rewrite <- (take_drop i s) at 1. f_equal.
    rewrite (drop_S _ _ _ H0), (drop_S _ _ _ H1), (drop_S _ _ _ H2). done.
Qed.

Lemma slice_lookup_lt s i j k :
  (k < j - i)%nat -> slice s i j !! k = s !! (i + k)%nat.
Proof.
  intros Hk. unfold slice. rewrite lookup_take_lt by done.
  by rewrite lookup_drop.
Qed.

Lemma slice_length_le s i j :
  (i <= j <= length s)%nat -> length (slice s i j) = (j - i)%nat.
Proof.
  intros Hij. unfold slice. rewrite length_take, length_drop. lia.
Qed.

(** Before a fence that is the first one from [i] on, the text to keep
    has no fence, and none begins in it when more text follows. *)
Lemma fence_free_join s i idx rest :
  (i <= idx)%nat -> (idx + 3 <= length s)%nat -> fenceAt s idx ->
  (forall i', (i <= i' < idx)%nat -> ~ fenceAt s i') ->
  (forall k, ~ fenceAt rest k) ->
  forall k, ~ fenceAt (slice s i idx ++ rest) k.
Proof.
  intros Hi Hlen (F0 & F1 & F2) Hfirst Hrest k (H0 & H1 & H2).
  assert (Hl : length (slice s i idx) = (idx - i)%nat)
    by (apply slice_length_le; lia).
  destruct (decide (k < idx - i)%nat) as [Hk|Hk].
  - (* the fence begins in the kept text *)
    rewrite lookup_app_l, slice_lookup_lt in H0 by lia.
    destruct (decide (S (S k) < idx - i)%nat) as [Hk2|Hk2].
    + rewrite lookup_app_l, slice_lookup_lt in H1 by lia.
      rewrite lookup_app_l, slice_lookup_lt in H2 by lia.
      apply (Hfirst (i + k)%nat); [lia|]. unfold fenceAt.
      replace (S (i + k)) with (i + S k)%nat by lia.
      replace (S (i + S k)) with (i + S (S k))%nat by lia. done.
    + destruct (decide (S k < idx - i)%nat) as [Hk1|Hk1].
      * rewrite lookup_app_l, slice_lookup_lt in H1 by lia.
        assert (idx = S (S (i + k))) as Hidx by lia.
        apply (Hfirst (i + k)%nat); [lia|]. unfold fenceAt.
        replace (S (i + k)) with (i + S k)%nat by lia.
        replace (S (i + S k)) with idx by lia. done.
      * assert (idx = S (i + k)) as Hidx by lia.
        apply (Hfirst (i + k)%nat); [lia|]. unfold fenceAt.
        rewrite <- Hidx. done.
  - apply (Hrest (k - (idx - i))%nat). unfold fenceAt.
    rewrite lookup_app_r in H0, H1, H2 by lia. rewrite Hl in H0, H1, H2.
    replace (S k - (idx - i))%nat with (S (k - (idx - i))) in H1 by lia.
    replace (S (S k) - (idx - i))%nat with (S (S (k - (idx - i)))) in H2 by lia.
    done.
Qed.

Lemma stripFence_loop s fuel i :
  (length s + 2 <= fuel + i)%nat -> (i <= length s)%nat ->
  forall k, ~ fenceAt
    (substitute s (fun _ => []) (matchAllLoop reFence s fuel i) i) k.
Proof.
  revert i. induction fuel as [|fuel IH]; intros i Hf Hi; [lia|].
  simpl. destruct (exec reFence s i) as [m|] eqn:E.
  - apply exec_sound in E as (H1 & H2 & H3); [|done].
    apply fence_lang in H2 as [He Hfence]. rewrite He.
    destruct (Nat.eqb_spec (m_index m + 3) (m_index m)) as [?|_]; [lia|].
    cbn [substitute]. rewrite He. cbn [app].
    assert (Hend : (m_index m + 3 <= length s)%nat).
    { destruct Hfence as (_ & _ & F2). apply lookup_lt_Some in F2. lia. }
    apply fence_free_join; [lia|done|done| |apply IH; lia].
    intros i' Hi' Hf'. apply (H3 i' Hi' (i' + 3)%nat). by apply fence_lang.
  - cbn [substitute]. intros k (H0 & H1 & H2).
    rewrite lookup_drop in H0, H1, H2.
    apply lookup_lt_Some in H0 as Hlt.
    eapply (exec_none reFence s eq_refl i E (i + k)%nat); [lia|].
    apply fence_lang. split; [reflexivity|]. unfold fenceAt.
    replace (S (i + k)) with (i + S k)%nat by lia.
    replace (S (i + S k)) with (i + S (S k))%nat by lia. done.
Qed.

(** [s.replace(/```/g, '')] leaves no code fence. *)
Lemma stripFence_free s :
  ~ pieceOf (lit "```") (replace reFence s (fun _ => [])).
Proof.
  rewrite fenceAt_piece. intros [k Hk]. revert Hk.
  unfold replace. cbn [global re_flags reFence Diagram.mk flagG].
  unfold matchAll. apply stripFence_loop; lia.
Qed.

Lemma sanitizeHtmlResponse_free html :
  ~ pieceOf (lit "```") (sanitizeHtmlResponse html).
Proof.
  intros Hp. eapply stripFence_free. eapply pieceOf_trans; [exact Hp|].
  apply trim_piece.
Qed.

(** [replace] leaves a text alone in which its pattern matches nowhere. *)
Lemma replace_no_match (re : RegExp) s f :
  wellFormed (re_body re) = true ->
  (forall i j, ~ lang (re_flags re) s (re_body re) i j) ->
  replace re s f = s.
Proof.
  intros Hwf Hno.
  assert (E : exec re s 0 = None).
  { destruct (exec re s 0) as [m|] eqn:E; [|done].
    apply exec_sound in E as (_ & Hl & _); [|done]. by apply Hno in Hl. }
  unfold replace, matchAll. rewrite Nat.add_succ_r. cbn [matchAllLoop].
  rewrite E. by destruct (global (re_flags re)).
Qed.

Lemma setMatch_flags fl fl' negated items d :
  ignoreCase fl = ignoreCase fl' ->
  setMatch fl negated items d = setMatch fl' negated items d.
Proof. intros Hfl. unfold setMatch. by rewrite Hfl. Qed.

Lemma htmlFence_start s i j :
  lang flagGI s (re_body reHtmlFence) i j -> s !! i = Some 96.
Proof.
  cbn [re_body reHtmlFence Diagram.mk seqs foldr str lit fmap list_fmap map
       String.list_ascii_of_string lang].
  intros (m & (m1 & (d & Hd & Hp & ->) & _) & _).
  rewrite (setMatch_flags flagGI flagI) in Hp by done.
  set (c := Ascii.N_of_ascii _) in Hp. vm_compute in c. subst c.
  rewrite setMatch_other in Hp by lia. apply N.eqb_eq in Hp. by subst d.
Qed.

Lemma sanitizeHtmlResponse_plain html :
  96 ∉ html -> sanitizeHtmlResponse html = trim html.
Proof.
  intros Hno. unfold sanitizeHtmlResponse.
  rewrite (replace_no_match reHtmlFence).
  - rewrite (replace_no_match reFence); [done|done|].
    intros i j [_ (H0 & _)]%fence_lang. apply Hno.
    by eapply list_elem_of_lookup_2.
  - done.
  - intros i j Hl%htmlFence_start. apply Hno. by eapply list_elem_of_lookup_2.
Qed.
End Fences.

(** ** Participant ids *)

Section Participants.
Implicit Types (s t : jsstring).

Lemma anyQuote_lang s i j :
  lang flagG s (re_body reAnyQuote) i j <->
  exists c, s !! i = Some c /\ isQuote c = true /\ j = S i.
Proof.
  cbn [re_body reAnyQuote Diagram.mk lang]. unfold charAt, setMatch, setMem.
  cbn [existsb itemMem ignoreCase flagG andb orb xorb].
  split; intros (c & Hc & Hp & ->); exists c; (split; [done|split; [|done]]).
  - unfold isQuote. by rewrite !orb_false_r in Hp.
  - unfold isQuote in Hp. by rewrite !orb_false_r.
Qed.

Lemma stripQuotes_loop s fuel i :
  (length s + 2 <= fuel + i)%nat -> (i <= length s)%nat ->
  substitute s (fun _ => []) (matchAllLoop reAnyQuote s fuel i) i
  = filter (fun c => isQuote c = false) (drop i s).
Proof.
  revert i. induction fuel as [|fuel IH]; intros i Hf Hi; [lia|].
  simpl. destruct (exec reAnyQuote s i) as [m|] eqn:E.
  - apply exec_sound in E as (H1 & H2 & H3); [|done].
    apply anyQuote_lang in H2 as (c & Hc & Hq & He). rewrite He.
    destruct (Nat.eqb_spec (S (m_index m)) (m_index m)) as [?|_]; [lia|].
    cbn [substitute app]. apply lookup_lt_Some in Hc as Hlt.
    rewrite He, IH by lia.
    rewrite (drop_split_at s i (m_index m) c) by (done || lia).
    rewrite filter_app, filter_cons_False by (by rewrite Hq). f_equal.
    symmetry. apply filter_all, slice_Forall_lookup.
    intros i' x Hi' Hx. destruct (isQuote x) eqn:Ex; [|done].
    exfalso. apply (H3 i' ltac:(lia) (S i')). apply anyQuote_lang. by exists x.
  - cbn [substitute]. symmetry. apply filter_all, Forall_lookup. intros n x Hn.
    rewrite lookup_drop in Hn. destruct (isQuote x) eqn:Ex; [|done].
    exfalso. apply lookup_lt_Some in Hn as Hlt.
    eapply (exec_none reAnyQuote s eq_refl _ E (i + n)%nat); [lia|].
    apply anyQuote_lang. by exists x.
Qed.

(** [raw.replace(/[DQ']/g, '')] removes the quotes of [raw]. *)
Lemma stripQuotes_spec s :
  replace reAnyQuote s (fun _ => []) = filter (fun c => isQuote c = false) s.
Proof.
  unfold replace. cbn [global re_flags reAnyQuote Diagram.mk flagG].
  unfold matchAll. rewrite stripQuotes_loop by lia. by rewrite drop_0.
Qed.

Lemma lowerUnit_blank c : isWhiteSpace (lowerUnit c) = isWhiteSpace c.
Proof.
  destruct (lowerUnit_cases c) as [[Hc ->]|[Hc ->]]; [|done].
  by rewrite !isWhiteSpace_letter by lia.
Qed.

Lemma dropWhile_map_lower s :
  dropWhile isWhiteSpace (map lowerUnit s)
  = map lowerUnit (dropWhile isWhiteSpace s).
Proof.
  induction s as [|c s IH]; [done|]. simpl. rewrite lowerUnit_blank.
  by destruct (isWhiteSpace c).
Qed.

Lemma trimEnd_map_lower s :
  trimEnd (map lowerUnit s) = map lowerUnit (trimEnd s).
Proof.
  induction s as [|c s IH]; [done|]. simpl. rewrite IH, lowerUnit_blank.
  destruct (trimEnd s); [by destruct (isWhiteSpace c)|done].
Qed.

Lemma trim_map_lower s : trim (map lowerUnit s) = map lowerUnit (trim s).
Proof.
  unfold trim, trimStart. by rewrite dropWhile_map_lower, trimEnd_map_lower.
Qed.

Lemma lowerUnit_idem c : lowerUnit (lowerUnit c) = lowerUnit c.
Proof.
  destruct (lowerUnit_cases c) as [[Hc ->]|[Hc ->]].
  - destruct (lowerUnit_cases (c + 32)) as [[Hc' ->]|[Hc' ->]]; [lia|done].
  - destruct (lowerUnit_cases c) as [[Hc' ->]|[Hc' ->]]; [lia|done].
Qed.

Lemma lowerUnit_quote c : isQuote (lowerUnit c) = isQuote c.
Proof.
  unfold isQuote, dq, sq.
  destruct (lowerUnit_cases c) as [[Hc ->]|[Hc ->]]; [|done].
  rewrite (proj2 (N.eqb_neq (c + 32) 34)), (proj2 (N.eqb_neq (c + 32) 39)),
    (proj2 (N.eqb_neq c 34)), (proj2 (N.eqb_neq c 39)) by lia. done.
Qed.

Lemma lowerUnit_latin c : isBasicLatin (lowerUnit c) = isBasicLatin c.
Proof.
  unfold isBasicLatin.
  destruct (lowerUnit_cases c) as [[Hc ->]|[Hc ->]]; [|done].
  rewrite (proj2 (N.ltb_lt (c + 32) 128)), (proj2 (N.ltb_lt c 128)) by lia.
  done.
Qed.

Lemma forallb_Forall_latin s :
  forallb isBasicLatin s = true <-> Forall (fun c => isBasicLatin c = true) s.
Proof.
  rewrite forallb_forall, Forall_forall. split; intros Hs c Hc; apply Hs.
  - by apply list_elem_of_In.
  - by apply list_elem_of_In.
Qed.
End Participants.

Section CanonicalIds.
Context `{UnicodeCase}.
Implicit Types (s raw : jsstring).

Lemma toLowerCase_latin s :
  forallb isBasicLatin s = true -> toLowerCase s = map lowerUnit s.
Proof. intros Hs. unfold toLowerCase. by rewrite Hs. Qed.

Lemma normalizeParticipantId_latin raw :
  forallb isBasicLatin raw = true ->
  normalizeParticipantId raw
  = map lowerUnit (trim (filter (fun c => isQuote c = false) raw)).
Proof.
  intros Hl. unfold normalizeParticipantId. rewrite stripQuotes_spec.
  apply toLowerCase_latin, forallb_Forall_latin, trim_Forall.
  apply forallb_Forall_latin in Hl.
  apply Forall_forall. intros c Hc. apply list_elem_of_filter in Hc as [_ Hc].
  by apply (proj1 (Forall_forall _ _) Hl).
Qed.

Lemma normalizeParticipantId_canonical raw :
  forallb isBasicLatin raw = true ->
  canonicalId (normalizeParticipantId raw)
  /\ forallb isBasicLatin (normalizeParticipantId raw) = true.
Proof.
  intros Hl. rewrite normalizeParticipantId_latin by done.
  split; [split|].
  - apply Forall_forall. intros c Hc.
    apply list_elem_of_fmap in Hc as (d & -> & Hd).
    rewrite lowerUnit_quote. split.
    + assert (Hf : Forall (fun c => isQuote c = false)
                     (trim (filter (fun c => isQuote c = false) raw))).
      { apply trim_Forall, Forall_forall. intros x Hx.
        by apply list_elem_of_filter in Hx as [? _]. }
      by apply (proj1 (Forall_forall _ _) Hf).
    + destruct (lowerUnit_cases d) as [[Hc' ->]|[Hc' ->]]; lia.
  - by rewrite trim_map_lower, trim_idem.
  - apply forallb_Forall_latin, Forall_forall. intros c Hc.
    apply list_elem_of_fmap in Hc as (d & -> & Hd). rewrite lowerUnit_latin.
    assert (Hf : Forall (fun c => isBasicLatin c = true)
                   (trim (filter (fun c => isQuote c = false) raw))).
    { apply trim_Forall, Forall_forall. intros x Hx.
      apply list_elem_of_filter in Hx as [_ Hx].
      apply forallb_Forall_latin in Hl.
      by apply (proj1 (Forall_forall _ _) Hl). }
    by apply (proj1 (Forall_forall _ _) Hf).
Qed.

Lemma map_lower_fixed id :
  Forall (fun c => ~ (65 <= c <= 90)) id -> map lowerUnit id = id.
Proof.
  induction 1 as [|c id Hc _ IH]; [done|]. simpl. rewrite IH. f_equal.
  destruct (lowerUnit_cases c) as [[Hc' ->]|[Hc' ->]]; [lia|done].
Qed.

Lemma canonicalId_fixed id :
  forallb isBasicLatin id = true -> canonicalId id ->
  normalizeParticipantId id = id.
Proof.
  intros Hl [Hc Ht]. rewrite normalizeParticipantId_latin by done.
  rewrite filter_all by (eapply Forall_impl; [exact Hc|]; by intros c [? _]).
  rewrite Ht. apply map_lower_fixed.
  eapply Forall_impl; [exact Hc|]. by intros c [_ ?].
Qed.
End CanonicalIds.

(** ** The repair stage and the project context *)

Section RepairLoop.
Context `{UnicodeCase}.
Variable regenerated : GraphDiagramKey -> option jsstring.
Local Abbreviation repairedText := (repairedText regenerated).

Lemma fallback_renderable key parsed :
  hasRenderableGraphDiagram (Some (buildFallbackDiagram key parsed)) = true.
Proof. destruct key; [apply business_renderable|apply screen_renderable]. Qed.

Lemma repairedText_renderable key parsed :
  hasRenderableGraphDiagram (Some (repairedText key parsed)) = true.
Proof.
  unfold repairedText.
  destruct (hasRenderableGraphDiagram (Some (diagramOf key parsed))) eqn:E;
    [done|].
  destruct (regenerated key) as [text|]; [|apply fallback_renderable].
  destruct (hasRenderableGraphDiagram (Some text)) eqn:Et; [done|].
  apply fallback_renderable.
Qed.

Lemma repairDiagram_spec parsed key :
  repairDiagram regenerated parsed key
  = withDiagram key parsed (repairedText key parsed).
Proof.
  unfold repairDiagram, repairedText.
  destruct (hasRenderableGraphDiagram (Some (diagramOf key parsed))) eqn:E;
    cbn [negb].
  - by destruct key, parsed.
  - destruct (regenerated key) as [text|]; [|done].
    by destruct (hasRenderableGraphDiagram (Some text)).
Qed.

Lemma repaired_loop parsed :
  let r1 := withBusinessFlow parsed (repairedText businessFlowKey parsed) in
  fold_left (repairDiagram regenerated) [businessFlowKey; screenTransitionKey]
    parsed
  = withScreenTransition r1 (repairedText screenTransitionKey parsed).
Proof.
  cbn [fold_left]. rewrite !repairDiagram_spec. cbn [withDiagram]. done.
Qed.

Lemma repairDiagrams_spec parsed :
  repairDiagrams regenerated parsed
  = ensureScreenDescriptionsMatchDiagram
      (withScreenTransition
         (withBusinessFlow parsed (repairedText businessFlowKey parsed))
         (repairedText screenTransitionKey parsed)).
Proof.
  unfold repairDiagrams. rewrite repaired_loop. cbv zeta.
  apply ensured_when_renderable; cbn [businessFlowDiagram
    screenTransitionDiagram withScreenTransition withBusinessFlow];
    apply repairedText_renderable.
Qed.
End RepairLoop.

Lemma rememberProjectContext_spec projectText previous :
  match getProjectContext (rememberProjectContext projectText previous) with
  | None => projectText = []
  | Some context =>
      projectText <> []
      /\ context = take PROJECT_CONTEXT_LIMIT projectText
      /\ (length context <= PROJECT_CONTEXT_LIMIT)%nat
      /\ ((length projectText <= PROJECT_CONTEXT_LIMIT)%nat ->
          context = projectText)
  end.
Proof.
  unfold getProjectContext, rememberProjectContext.
  destruct projectText as [|c t]; [done|]. cbn [truthy].
  split; [done|]. unfold slice. rewrite drop_0, Nat.sub_0_r.
  split; [done|]. split.
  - rewrite length_take. lia.
  - intros Hle. by apply take_ge.
Qed.

(** ** Keywords *)

Section Keywords.
Implicit Types (s text : jsstring).

Lemma lang_alts fl s rs i j :
  lang fl s (alts rs) i j <-> exists r, r ∈ rs /\ lang fl s r i j.
Proof.
  induction rs as [|r rs IH].
  - simpl. split.
    + intros (c & _ & Hp & _). unfold setMatch, setMem in Hp. simpl in Hp.
      by destruct (ignoreCase fl).
    + intros (r & Hr & _). by apply not_elem_of_nil in Hr.
  - destruct rs as [|r' rs].
    + simpl. split.
      * intros Hl. exists r. split; [by left|done].
      * intros (r0 & Hr & Hl). apply list_elem_of_singleton in Hr. by subst.
    + change (alts (r :: r' :: rs)) with (RAlt r (alts (r' :: rs))).
      cbn [lang]. rewrite IH. split.
      * intros [Hl|(r0 & Hr & Hl)].
        -- exists r. split; [by left|done].
        -- exists r0. split; [by right|done].
      * intros (r0 & Hr & Hl). apply elem_of_cons in Hr as [->|Hr].
        -- by left.
        -- right. by exists r0.
Qed.

Lemma wellFormed_str k : wellFormed (str k) = true.
Proof.
  unfold str. induction (lit k) as [|c l IH]; [done|]. simpl. exact IH.
Qed.

Lemma wellFormed_alts rs :
  Forall (fun r => wellFormed r = true) rs -> wellFormed (alts rs) = true.
Proof.
  induction 1 as [|r rs Hr Hrs IH]; [done|].
  destruct rs as [|r' rs]; [done|].
  change (alts (r :: r' :: rs)) with (RAlt r (alts (r' :: rs))).
  simpl in *. by rewrite Hr, IH.
Qed.

(** [/(k1|k2|...)/i] accepts the texts that hold one of the words. *)
Lemma keywords_spec (re : RegExp) (kws : list string) text :
  re_body re = RGroup 1 (alts (str <$> kws)) -> re_flags re = flagI ->
  Forall lowerCaseWord kws ->
  regex_test re text = true <-> mentions kws text.
Proof.
  intros Hb Hf Hlow.
  assert (Hwf : wellFormed (re_body re) = true).
  { rewrite Hb. simpl. apply wellFormed_alts, Forall_fmap, Forall_forall.
    intros k _. apply wellFormed_str. }
  rewrite regex_test_spec by done. rewrite Hb, Hf. cbn [lang]. split.
  - intros (i & j & Hi & Hl). apply lang_alts in Hl as (r & Hr & Hl).
    apply list_elem_of_fmap in Hr as (k & -> & Hk).
    unfold str in Hl. apply lang_lit in Hl as [-> Hl].
    rewrite litAt_ignoreCase in Hl
      by (by apply (proj1 (Forall_forall _ _) Hlow)).
    unfold startsWithIgnoreCase in Hl. apply eqs_eq in Hl.
    exists k, (take i text), (take (length (lit k)) (drop i text)),
      (drop (length (lit k)) (drop i text)).
    split; [done|]. split; [by rewrite !take_drop|done].
  - intros (k & pre & tok & post & Hk & -> & Htok).
    exists (length pre), (length pre + length (lit k))%nat.
    split; [rewrite length_app; lia|]. apply lang_alts.
    exists (str k). split; [by apply list_elem_of_fmap_2|].
    unfold str. apply lang_lit. split; [done|].
    rewrite litAt_ignoreCase by (by apply (proj1 (Forall_forall _ _) Hlow)).
    unfold startsWithIgnoreCase. apply eqs_eq.
    rewrite drop_app_length.
    assert (Hlen : length (lit k) = length tok)
      by (by rewrite <- Htok, length_fmap).
    rewrite Hlen, take_app_length. done.
Qed.

Lemma keywords_lowerCase :
  Forall lowerCaseWord logicKeywords /\ Forall lowerCaseWord dataKeywords.
Proof.
  split; repeat (apply Forall_cons; split;
    [unfold lowerCaseWord; vm_compute;
     repeat (apply Forall_cons; split; [right; reflexivity|]); constructor|]);
    constructor.
Qed.

Lemma reLogicKeywords_spec text :
  regex_test reLogicKeywords text = true <-> mentions logicKeywords text.
Proof. apply keywords_spec; [done|done|apply keywords_lowerCase]. Qed.

Lemma reDataKeywords_spec text :
  regex_test reDataKeywords text = true <-> mentions dataKeywords text.
Proof. apply keywords_spec; [done|done|apply keywords_lowerCase]. Qed.

(** [pickComponentLabel] takes the first component that the pattern
    accepts by its name or its path. *)
Lemma pickComponentLabel_first (hit : ComponentInfo -> Prop)
    (re : RegExp) components fallback :
  (forall c, regex_test re (name c) || regex_test re (path c) = true <-> hit c) ->
  (Forall (fun c => ~ hit c) components
   /\ pickComponentLabel components re fallback = fallback)
  \/ exists pre c post,
       components = pre ++ c :: post /\ Forall (fun c => ~ hit c) pre /\ hit c
       /\ pickComponentLabel components re fallback = componentLabel c.
Proof.
  intros Hhit. unfold pickComponentLabel.
  induction components as [|c l IH]; [left; by split|].
  simpl. destruct (regex_test re (name c) || regex_test re (path c)) eqn:E.
  - right. exists [], c, l. split; [done|]. split; [constructor|].
    split; [by apply Hhit|done].
  - assert (Hc : ~ hit c) by (intros Hc%Hhit; congruence).
    destruct IH as [[Hall Hp]|(pre & c' & post & -> & Hpre & Hc' & Hp)].
    + left. split; [by constructor|done].
    + right. exists (c :: pre), c', post. split; [done|].
      split; [by constructor|]. by split.
Qed.
End Keywords.

(** ** Labels of the fallback diagrams *)

Section FallbackLabels.
Implicit Types (s t : jsstring).

Lemma blank_not_quote c : isWhiteSpace c = true -> (c =? dq) = false.
Proof.
  intros Hc. destruct (N.eqb_spec c dq) as [->|]; [|done]. by vm_compute in Hc.
Qed.

Lemma blank_not_backslash c : isWhiteSpace c = true -> Some c <> Some bsl.
Proof. intros Hc [= ->]. by vm_compute in Hc. Qed.

Lemma countUnescaped_blank prev s :
  forallb isWhiteSpace s = true -> countUnescaped prev s = O.
Proof.
  revert prev. induction s as [|c s IH]; intros prev; [done|]. simpl.
  intros [Hc Hs]%andb_prop. rewrite (blank_not_quote c Hc). simpl.
  by apply IH.
Qed.

(** The character before matters only by being a backslash or not. *)
Lemma countUnescaped_prev p1 p2 s :
  p1 <> Some bsl -> p2 <> Some bsl ->
  countUnescaped p1 s = countUnescaped p2 s.
Proof.
  intros H1 H2. destruct s as [|c s]; [done|]. simpl.
  by rewrite (bool_decide_eq_false_2 _ H1), (bool_decide_eq_false_2 _ H2).
Qed.

Lemma countUnescaped_dropWhile prev s :
  prev <> Some bsl ->
  countUnescaped prev (dropWhile isWhiteSpace s) = countUnescaped prev s.
Proof.
  revert prev. induction s as [|c s IH]; intros prev Hp; [done|]. simpl.
  destruct (isWhiteSpace c) eqn:Hc; [|done].
  rewrite (blank_not_quote c Hc). simpl. rewrite IH by done.
  apply countUnescaped_prev; [done|by apply blank_not_backslash].
Qed.

Lemma countUnescaped_trimEnd prev s :
  countUnescaped prev (trimEnd s) = countUnescaped prev s.
Proof.
  revert prev. induction s as [|c s IH]; intros prev; [done|].
  cbn [trimEnd]. destruct (trimEnd s) as [|d t] eqn:E.
  - apply trimEnd_nil in E.
    cbn [countUnescaped]. rewrite (countUnescaped_blank _ s E).
    destruct (isWhiteSpace c) eqn:Hc.
    + by rewrite (blank_not_quote c Hc).
    + done.
  - cbn [countUnescaped]. f_equal. rewrite <- IH. done.
Qed.

Lemma unescapedQuotes_trim s : unescapedQuotes (trim s) = unescapedQuotes s.
Proof.
  unfold unescapedQuotes, trim, trimStart.
  by rewrite countUnescaped_trimEnd, countUnescaped_dropWhile.
Qed.

Lemma fallback_escapeLabel_spec text :
  Gemini.escapeLabel text
  = trim (text ≫= (fun x => if x =? dq then [bsl; dq] else [x])).
Proof. unfold Gemini.escapeLabel, reQuote. by rewrite replaceChar_spec. Qed.
End FallbackLabels.

(** * Further properties of the code *)

Section GuaranteeLayer.
Context `{UnicodeCase}.

(** X1.  Whatever the analysis result, the two flow graphs of the result
    of [ensureGraphDiagrams] are accepted by [hasRenderableGraphDiagram]:
    each is the given diagram when that one is accepted and the fallback
    built from the given result otherwise.  The other fields, the list of
    screen descriptions apart, are the given ones. *)
Theorem ensureGraphDiagrams_renderable (result : AnalysisResult) :
  let out := ensureGraphDiagrams result in
  hasRenderableGraphDiagram (Some (businessFlowDiagram out)) = true
  /\ hasRenderableGraphDiagram (Some (screenTransitionDiagram out)) = true
  /\ businessFlowDiagram out
     = (if hasRenderableGraphDiagram (Some (businessFlowDiagram result))
        then businessFlowDiagram result
        else buildBusinessFlowFallback result)
  /\ screenTransitionDiagram out
     = (if hasRenderableGraphDiagram (Some (screenTransitionDiagram result))
        then screenTransitionDiagram result
        else buildScreenTransitionFallback (screenDescriptions result))
  /\ overview out = overview result
  /\ components out = components result
  /\ technologies out = technologies result
  /\ sequenceDiagram out = sequenceDiagram result
  /\ databaseERD out = databaseERD result
  /\ codeQualityAnalysis out = codeQualityAnalysis result.
Proof.
  intros out. unfold out.
  destruct (ensured_renderable result) as [R1 R2].
  destruct (ensured_diagrams result) as [D1 D2].
  split; [done|]. split; [done|]. split; [done|]. split; [done|].
  unfold ensureGraphDiagrams. rewrite synchronized_fields.
  destruct (hasRenderableGraphDiagram (Some (businessFlowDiagram result)));
    cbn [negb screenTransitionDiagram withBusinessFlow];
    destruct (hasRenderableGraphDiagram (Some (screenTransitionDiagram result)));
    done.
Qed.

(** X2.  [ensureGraphDiagrams] applied to its own result changes
    nothing. *)
Theorem ensureGraphDiagrams_idempotent (result : AnalysisResult) :
  ensureGraphDiagrams (ensureGraphDiagrams result) = ensureGraphDiagrams result.
Proof. apply ensured_twice. Qed.

(** X3.  [ensureScreenDescriptionsMatchDiagram] applied to its own result
    changes nothing: every label of the diagram finds the entry written
    for it, and the descriptions outside the diagram stay behind them. *)
Theorem ensureScreenDescriptions_idempotent (result : AnalysisResult) :
  ensureScreenDescriptionsMatchDiagram
    (ensureScreenDescriptionsMatchDiagram result)
  = ensureScreenDescriptionsMatchDiagram result.
Proof. apply synchronized_twice. Qed.

(** X4.  [extractScreenNamesFromDiagram] gives no name for an absent or
    an empty diagram; every name it gives is not empty, has no blank at
    either end and is a piece of the text of the diagram. *)
Theorem extractScreenNames_labels (diagram : jsstring) :
  extractScreenNamesFromDiagram None = []
  /\ extractScreenNamesFromDiagram (Some []) = []
  /\ Forall (fun label =>
               label <> [] /\ trim label = label /\ pieceOf label diagram)
       (extractScreenNamesFromDiagram (Some diagram)).
Proof. split; [done|]. split; [done|]. apply extracted_labels_good. Qed.

(** X5.  Every entry of the list [ensureScreenDescriptionsMatchDiagram]
    returns is one of the given descriptions or the placeholder of a label
    of the diagram: nothing else is made up. *)
Theorem synchronized_entries_origin (result : AnalysisResult) :
  Forall (fun d =>
            d ∈ screenDescriptions result
            \/ exists label,
                 label ∈ extractScreenNamesFromDiagram
                           (Some (screenTransitionDiagram result))
                 /\ d = createPlaceholderScreen label)
         (screenDescriptions (ensureScreenDescriptionsMatchDiagram result)).
Proof. apply synchronized_origin. Qed.

End GuaranteeLayer.


Section StatementSplitter.
Context `{UnicodeCase}.

(** X7.  Every statement [splitStatements] returns is not empty and has
    no blank at either end. *)
Theorem splitStatements_trimmed_statements (input : jsstring) :
  Forall (fun st => st <> [] /\ trim st = st) (splitStatements input).
Proof. apply splitStatements_trimmed. Qed.


(** X9.  For an input without a double quote, no statement
    [splitStatements] returns holds a line feed or a semicolon. *)
Theorem splitStatements_without_quotes (input : jsstring) :
  dq ∉ input ->
  Forall (fun st => (nl ∉ st) /\ (semi ∉ st)) (splitStatements input).
Proof. apply splitStatements_plain. Qed.

(** X10.  [splitStatements] returns no statement, and
    [normalizeGraphDiagram] the empty string, exactly for an input made of
    blanks and semicolons only. *)
Theorem normalizeGraphDiagram_empty_iff_blank (code : jsstring) :
  (splitStatements code = [] <-> forallb separatorOrBlank code = true)
  /\ (normalizeGraphDiagram code = []
      <-> forallb separatorOrBlank code = true).
Proof.
  split; [apply splitStatements_nil|].
  rewrite <- splitStatements_nil. apply normalizeGraphDiagram_nil.
Qed.
End StatementSplitter.

Lemma splitStatements_without_quotes_witness :
  Forall (fun st => (nl ∉ st) /\ (semi ∉ st))
    (splitStatements (lit "A-->B; B-->C")).
Proof.
  apply splitStatements_without_quotes. vm_compute. intros Hin.
  repeat (apply elem_of_cons in Hin as [Hin|Hin]; [discriminate|]).
  inversion Hin.
Defined.

Section SequenceNormalizer.
Context `{UnicodeCase}.

(** X11.  In the text [sanitizeSequence] returns, every [deactivate] line
    names a participant that is active there: its id (the name without
    quotes, trimmed, in lower case) is not empty, an [activate] line
    before it has the same id and no [deactivate] line in between has
    it. *)
Theorem sanitizeSequence_lifelines_in_order (code : jsstring) :
  lifelinesInOrder ∅ (splitOn nl (sanitizeSequence code)).
Proof.
  rewrite sanitizeSequence_lines.
  pose proof (pushedLines_inOrder (splitOn nl code) ∅) as Hok.
  destruct (pushedLines ∅ (splitOn nl code)); [by vm_compute|done].
Qed.

(** X12.  [sanitizeSequence] joins lines taken, in order, from the lines
    of its input after the message-quoting step; among them are all those
    that are no [deactivate] line. *)
Theorem sanitizeSequence_keeps_other_lines (code : jsstring) :
  let kept := pushedLines ∅ (splitOn nl code) in
  sanitizeSequence code = join [nl] kept
  /\ kept `sublist_of` (quoteMessage <$> splitOn nl code)
  /\ filter notDeactivate kept
     = filter notDeactivate (quoteMessage <$> splitOn nl code).
Proof.
  intros kept. split; [done|]. apply pushedLines_sublist.
Qed.
End SequenceNormalizer.

(** X13.  [escapeLabel] of the diagram component loses nothing: two texts
    have the same escaped form only when they are equal. *)
Theorem escapeLabel_injective (a b : jsstring) :
  Diagram.escapeLabel a = Diagram.escapeLabel b <-> a = b.
Proof. split; [apply escapeLabel_inj|by intros ->]. Qed.

(** X14.  The label [cleanLabel] returns has no blank at either end, and
    blanks around the text given do not change it. *)
Theorem cleanLabel_trimmed_label (text : jsstring) :
  trim (cleanLabel text) = cleanLabel text
  /\ cleanLabel (trim text) = cleanLabel text.
Proof.
  split; [apply cleanLabel_trimmed|]. unfold cleanLabel. by rewrite trim_idem.
Qed.

Section ChartSignature.
Context `{UnicodeCase}.

(** X15.  The signature of a chart is never empty, has at most six
    characters and is made of digits and lower-case letters: the word
    [empty] for a chart that is absent or is sanitised to nothing, the
    hash in base 36, without sign, otherwise. *)
Theorem chartSignature_digits (chart : option jsstring) (value : jsstring) :
  (chartSignature chart <> [] /\ (length (chartSignature chart) <= 6)%nat
   /\ Forall isDigit36 (chartSignature chart))
  /\ (hashString value <> [] /\ (length (hashString value) <= 6)%nat
      /\ Forall isDigit36 (hashString value))
  /\ chartSignature None = lit "empty"
  /\ cleanChart (Some value) = sanitizeMermaidCode value.
Proof.
  split; [|split; [apply hashString_digits|split; [done|]]].
  - unfold chartSignature. destruct (negb (truthy (cleanChart chart))).
    + split; [done|]. split; [vm_compute; lia|].
      repeat (apply Forall_cons; split; [unfold isDigit36; vm_compute; right;
        split; discriminate|]). constructor.
    + apply hashString_digits.
  - unfold cleanChart, sanitizeMermaidCode. rewrite trim_idem.
    by destruct (negb (truthy (trim value))).
Qed.
End ChartSignature.

(** X16.  The hash [hashString] computes is the value, reduced modulo 2^32
    to a signed 32-bit number, of the polynomial that has the code units
    of the text as coefficients at 31; it lies between -2^31 and
    2^31 - 1. *)
Theorem hashCode_is_polynomial (value : jsstring) :
  hashCode value = toInt32 (polynomial31 value)
  /\ (hashCode value mod 2 ^ 32 = polynomial31 value mod 2 ^ 32)%Z
  /\ (- 2 ^ 31 <= hashCode value < 2 ^ 31)%Z.
Proof.
  split; [apply hashCode_polynomial|]. split; [|apply hashCode_range].
  rewrite hashCode_polynomial. apply toInt32_mod.
Qed.

(** X17.  Two texts have the same [hashString] exactly when their hashes
    are equal up to sign; the digits [hashString] returns stand, in base
    36, for the absolute value of the hash. *)
Theorem hashString_same_iff (a b : jsstring) :
  (hashString a = hashString b <-> Z.abs (hashCode a) = Z.abs (hashCode b))
  /\ Z.of_N (value36 (hashString a)) = Z.abs (hashCode a).
Proof.
  split; [apply hashString_same|]. unfold hashString.
  destruct (toString36_spec (Z.to_N (Z.abs (hashCode a)))) as [-> _]. lia.
Qed.

(** X18.  The text [sanitizeHtmlResponse] returns holds no code fence
    (three backticks in a row) and has no blank at either end. *)
Theorem sanitizeHtmlResponse_no_fence (html : jsstring) :
  ~ pieceOf (lit "```") (sanitizeHtmlResponse html)
  /\ trim (sanitizeHtmlResponse html) = sanitizeHtmlResponse html.
Proof. split; [apply sanitizeHtmlResponse_free|apply trim_idem]. Qed.

(** X19.  A text without a backtick is only trimmed by
    [sanitizeHtmlResponse]. *)
Theorem sanitizeHtmlResponse_plain_text (html : jsstring) :
  96 ∉ html -> sanitizeHtmlResponse html = trim html.
Proof. apply sanitizeHtmlResponse_plain. Qed.

Lemma sanitizeHtmlResponse_plain_text_witness :
  sanitizeHtmlResponse (lit " <p>Hi</p> ") = lit "<p>Hi</p>".
Proof.
  rewrite sanitizeHtmlResponse_plain_text; [by vm_compute|].
  vm_compute. intros Hin.
  repeat (apply elem_of_cons in Hin as [Hin|Hin]; [discriminate|]).
  inversion Hin.
Defined.

Section Participants.
Context `{UnicodeCase}.

(** X20.  For a name of Basic Latin characters, [normalizeParticipantId]
    gives the name without its quotes, trimmed, in lower case: an id with
    no quote, no capital ASCII letter and no blank at either end, which
    [normalizeParticipantId] maps to itself. *)
Theorem normalizeParticipantId_canonical_form (raw : jsstring) :
  forallb isBasicLatin raw = true ->
  let id := normalizeParticipantId raw in
  id = map lowerUnit (trim (filter (fun c => isQuote c = false) raw))
  /\ Forall (fun c => isQuote c = false /\ ~ (65 <= c <= 90)) id
  /\ trim id = id
  /\ normalizeParticipantId id = id.
Proof.
  intros Hl id. destruct (normalizeParticipantId_canonical raw Hl)
    as [[Hc Ht] Hlatin].
  split; [by apply normalizeParticipantId_latin|]. split; [done|].
  split; [done|]. by apply canonicalId_fixed.
Qed.
End Participants.

Lemma normalizeParticipantId_canonical_form_witness :
  @normalizeParticipantId latinOnly ([32; dq] ++ lit "Bob" ++ [dq; 32])
  = lit "bob".
Proof.
  destruct (@normalizeParticipantId_canonical_form latinOnly
              ([32; dq] ++ lit "Bob" ++ [dq; 32]) eq_refl) as [-> _].
  by vm_compute.
Defined.

Section RepairStage.
Context `{UnicodeCase}.
Variable regenerated : GraphDiagramKey -> option jsstring.

(** X21.  Whatever the regeneration call does for either key (a text or a
    failure), both flow graphs of the result of the repair stage of
    [analyzeProject] are accepted by [hasRenderableGraphDiagram].  Each is
    the diagram of the response when that one is accepted, else the
    regenerated text when there is one and it is accepted, else the
    fallback; the fields other than the two graphs and the screen
    descriptions are those of the response. *)
Theorem repairDiagrams_renderable (parsed : AnalysisResult) :
  let out := repairDiagrams regenerated parsed in
  hasRenderableGraphDiagram (Some (businessFlowDiagram out)) = true
  /\ hasRenderableGraphDiagram (Some (screenTransitionDiagram out)) = true
  /\ businessFlowDiagram out = repairedText regenerated businessFlowKey parsed
  /\ screenTransitionDiagram out
     = repairedText regenerated screenTransitionKey parsed
  /\ overview out = overview parsed
  /\ components out = components parsed
  /\ technologies out = technologies parsed
  /\ sequenceDiagram out = sequenceDiagram parsed
  /\ databaseERD out = databaseERD parsed
  /\ codeQualityAnalysis out = codeQualityAnalysis parsed.
Proof.
  intros out. unfold out. rewrite repairDiagrams_spec, synchronized_fields.
  cbn [businessFlowDiagram screenTransitionDiagram withScreenTransition
       withBusinessFlow withScreenDescriptions overview components
       technologies sequenceDiagram databaseERD codeQualityAnalysis].
  split; [apply repairedText_renderable|].
  split; [apply repairedText_renderable|]. done.
Qed.
End RepairStage.

(** X22.  [pickComponentLabel] with the pattern of the logic keywords (and
    likewise with the pattern of the data keywords) returns the label of
    the first component whose name or path holds one of the keywords, in
    any case of its letters: the name, followed by the description after
    a hyphen when there is one.  It returns the fallback when no component
    has such a name or path. *)
Theorem pickComponentLabel_first_match (components : list ComponentInfo)
    (fallback : jsstring) :
  let picked := fun (re : RegExp) (keywords : list string) =>
    let hit := fun c =>
      mentions keywords (name c) \/ mentions keywords (path c) in
    (Forall (fun c => ~ hit c) components
     /\ pickComponentLabel components re fallback = fallback)
    \/ exists pre c post,
         components = pre ++ c :: post /\ Forall (fun c => ~ hit c) pre
         /\ hit c
         /\ pickComponentLabel components re fallback = componentLabel c in
  picked reLogicKeywords logicKeywords /\ picked reDataKeywords dataKeywords.
Proof.
  intros picked. split; apply pickComponentLabel_first; intros c;
    rewrite orb_true_iff.
  - by rewrite !reLogicKeywords_spec.
  - by rewrite !reDataKeywords_spec.
Qed.

(** X23.  After [rememberProjectContext], [getProjectContext] gives
    nothing for an empty project text and otherwise the first 120000 code
    units of the text: the whole text when it is no longer than that. *)
Theorem rememberProjectContext_bounds (projectText : jsstring)
    (previous : option jsstring) :
  match getProjectContext (rememberProjectContext projectText previous) with
  | None => projectText = []
  | Some context =>
      projectText <> []
      /\ context = take PROJECT_CONTEXT_LIMIT projectText
      /\ (length context <= PROJECT_CONTEXT_LIMIT)%nat
      /\ ((length projectText <= PROJECT_CONTEXT_LIMIT)%nat ->
          context = projectText)
  end.
Proof. apply rememberProjectContext_spec. Qed.

(** X24.  A label as the fallback builders write it between double quotes
    ([escapeLabel] of the service) holds no double quote that is not
    preceded by a backslash, and has no blank at either end. *)
Theorem fallback_label_escaped (text : jsstring) :
  unescapedQuotes (Gemini.escapeLabel text) = O
  /\ trim (Gemini.escapeLabel text) = Gemini.escapeLabel text.
Proof.
  rewrite fallback_escapeLabel_spec, trim_idem, unescapedQuotes_trim.
  split; [apply countUnescaped_escaped|done].
Qed.
